(** * A contiguous, resizable sequence: [vector<T>] of src/vector/vector.h

    The container is embedded in a small state-and-exception monad over a
    world made of the live [vector] objects, the free store (blocks of
    element slots) and a schedule saying which of the coming fallible
    operations (operator new, a copy constructor, a copy assignment) raise.
    Undefined behaviour of the C++ program (a dereference outside a block,
    reading a slot that holds no object, [pop_back] on an empty vector) is
    the result [UB]. *)

From stdpp Require Import base gmap list.
From Stdlib Require Import ZArith Lia.
Local Open Scope Z_scope.

(** ** Pointers and the object representation *)

(** A [T*]: the block it points into ([None] for a pointer obtained from
    [nullptr]) and the element offset inside that block. *)
Record ptr := Ptr { blk : option positive; off : Z }.

Definition nullptr : ptr := Ptr None 0.

Definition ptr_add (p : ptr) (n : Z) : ptr := Ptr (blk p) (off p + n).

#[global] Instance ptr_eq_dec : EqDecision ptr.
Proof. solve_decision. Defined.

(** The three data members, lines 245-247. [size_t] values are integers in
    [0, 2^64); the wrap-around of the arithmetic on them is written out
    where the code computes. *)
Record vector := Vector { data_ : ptr; size_ : Z; capacity_ : Z }.

Definition two64 : Z := 2 ^ 64.
Definition wrap (z : Z) : Z := z mod two64.

Inductive exn := bad_alloc | element_error.

(** What the container asks of its element type: [sizeof(T)] and
    [std::is_trivially_copy_constructible<T>::value]. *)
Class Element (T : Type) := {
  sizeof_T : positive;
  trivially_copy_constructible : bool
}.

Section Model.

Context {T : Type} `{!Element T}.

Record world := World {
  objs : gmap positive vector;
  heap : gmap positive (list (option T));
  faults : list bool
}.

Definition set_objs (o : gmap positive vector) (w : world) : world :=
  World o (heap w) (faults w).
Definition set_heap (h : gmap positive (list (option T))) (w : world) : world :=
  World (objs w) h (faults w).
Definition set_faults (f : list bool) (w : world) : world :=
  World (objs w) (heap w) f.

(** ** The monad *)

Inductive result (A : Type) : Type :=
| Ok (a : A) (w : world)
| Throw (e : exn) (w : world)
| UB.
Arguments Ok {A} a w.
Arguments Throw {A} e w.
Arguments UB {A}.

Definition M (A : Type) : Type := world → result A.

Definition ret {A} (a : A) : M A := λ w, Ok a w.

Definition bind {A B} (m : M A) (f : A → M B) : M B := λ w,
  match m w with
  | Ok a w' => f a w'
  | Throw e w' => Throw e w'
  | UB => UB
  end.

Definition ub {A} : M A := λ _, UB.

Notation "'let*' x ':=' m 'in' k" := (bind m (λ x, k))
  (at level 10, x name, m at level 100, k at level 200).
Notation "m ;; k" := (bind m (λ _, k))
  (at level 100, k at level 200, right associativity).

(** [try { m } catch (...) { h; throw; }] with a cleanup [h] that is
    [noexcept]. *)
Definition on_throw {A} (m : M A) (h : M unit) : M A := λ w,
  match m w with
  | Throw e w' =>
      match h w' with
      | Ok _ w'' => Throw e w''
      | _ => UB
      end
  | r => r
  end.

(** One fallible step: the next entry of the schedule decides; an exhausted
    schedule lets everything succeed. *)
Definition may_throw (e : exn) : M unit := λ w,
  match faults w with
  | true :: fs => Throw e (set_faults fs w)
  | false :: fs => Ok tt (set_faults fs w)
  | [] => Ok tt w
  end.

(** ** Objects *)

Definition get (this : positive) : M vector := λ w,
  match objs w !! this with
  | Some v => Ok v w
  | None => UB
  end.

Definition put (this : positive) (v : vector) : M unit := λ w,
  match objs w !! this with
  | Some _ => Ok tt (set_objs (<[this := v]> (objs w)) w)
  | None => UB
  end.

Definition set_data (this : positive) (p : ptr) : M unit :=
  let* v := get this in put this (Vector p (size_ v) (capacity_ v)).
Definition set_size (this : positive) (n : Z) : M unit :=
  let* v := get this in put this (Vector (data_ v) n (capacity_ v)).
Definition set_capacity (this : positive) (n : Z) : M unit :=
  let* v := get this in put this (Vector (data_ v) (size_ v) n).

(** ** The free store *)

(** [operator new(bytes)]: a fresh block; it holds as many element slots as
    fit into [bytes], all without an object. *)
Definition operator_new (bytes : Z) : M ptr :=
  may_throw bad_alloc;;
  λ w, let l := fresh (dom (heap w)) in
       Ok (Ptr (Some l) 0)
          (set_heap (<[l := replicate (Z.to_nat (bytes / Z.pos sizeof_T)) None]> (heap w)) w).

(** [operator delete(p)]: nothing for a null pointer, otherwise [p] must be
    the start of a live block. *)
Definition operator_delete (p : ptr) : M unit := λ w,
  match blk p with
  | None => if decide (off p = 0) then Ok tt w else UB
  | Some l =>
      match heap w !! l with
      | Some _ => if decide (off p = 0) then Ok tt (set_heap (delete l (heap w)) w) else UB
      | None => UB
      end
  end.

(** The slot [*p], when [p] points into a live block. *)
Definition peek (p : ptr) : M (option T) := λ w,
  match blk p with
  | Some l =>
      match heap w !! l with
      | Some buf =>
          if decide (0 ≤ off p) then
            match buf !! Z.to_nat (off p) with
            | Some o => Ok o w
            | None => UB
            end
          else UB
      | None => UB
      end
  | None => UB
  end.

Definition poke (p : ptr) (o : option T) : M unit := λ w,
  match blk p with
  | Some l =>
      match heap w !! l with
      | Some buf =>
          if decide (0 ≤ off p ∧ (Z.to_nat (off p) < length buf)%nat) then
            Ok tt (set_heap (<[l := <[Z.to_nat (off p) := o]> buf]> (heap w)) w)
          else UB
      | None => UB
      end
  | None => UB
  end.

(** ** Operations of the element type *)

(** [T(x)], the copy constructor: trivial ones cannot raise. *)
Definition copy_T (x : T) : M T :=
  if trivially_copy_constructible then ret x
  else may_throw element_error;; ret x.

(** Reading the object at [*p]. *)
Definition read_at (p : ptr) : M T :=
  let* o := peek p in
  match o with
  | Some x => ret x
  | None => ub
  end.

(** [new(p) T(x)]. *)
Definition construct_at (p : ptr) (x : T) : M unit :=
  let* _ := peek p in
  let* y := copy_T x in
  poke p (Some y).

(** [p->~T()]. *)
Definition destroy_at (p : ptr) : M unit :=
  let* o := peek p in
  match o with
  | Some _ => poke p None
  | None => ub
  end.

(** [*p = x], the copy assignment.  It is taken to raise, when it raises,
    before it has written; the container promises nothing about the value
    an element holds after its assignment has raised, and what is stated
    here for a raising assignment speaks of the number of elements only. *)
Definition assign_at (p : ptr) (x : T) : M unit :=
  let* o := peek p in
  match o with
  | Some _ => may_throw element_error;; poke p (Some x)
  | None => ub
  end.

(** [std::swap] of the objects at [p] and [q] for an element type without move operations:
    [T tmp = *p; *p = *q; *q = tmp;]. *)
Definition swap_at (p q : ptr) : M unit :=
  let* x := read_at p in
  let* tmp := copy_T x in
  let* y := read_at q in
  assign_at p y;;
  assign_at q tmp.

(** [pos - begin()]: the pointers must belong to the same block. *)
Definition ptr_diff (p q : ptr) : M Z :=
  if decide (blk p = blk q) then ret (off p - off q) else ub.

(** ** Private helpers, lines 196-243 *)

Definition allocate_data (n : Z) : M ptr :=
  operator_new (wrap (n * Z.pos sizeof_T)).

Fixpoint destroy_loop (n : nat) (data : ptr) : M unit :=
  match n with
  | O => ret tt
  | S n' => destroy_at (ptr_add data (Z.of_nat n'));; destroy_loop n' data
  end.

(** [while (size > 0) data[--size].~T();] *)
Definition destroy_elements (data : ptr) (size : Z) : M unit :=
  destroy_loop (Z.to_nat size) data.

Fixpoint memcpy_loop (n : nat) (dst src : ptr) (i : Z) : M unit :=
  match n with
  | O => ret tt
  | S n' =>
      let* o := peek (ptr_add src i) in
      poke (ptr_add dst i) o;;
      memcpy_loop n' dst src (i + 1)
  end.

(** [std::memcpy(dst, src, bytes)], slot by slot. *)
Definition memcpy (dst src : ptr) (bytes : Z) : M unit :=
  memcpy_loop (Z.to_nat (bytes / Z.pos sizeof_T)) dst src 0.

(** The [for] loop of [copy_elements]; the handler of the enclosing [try]
    sees the value [i] of the iteration that raised. *)
Fixpoint copy_loop (n : nat) (src dst : ptr) (i : Z) : M unit :=
  match n with
  | O => ret tt
  | S n' =>
      on_throw
        (let* x := read_at (ptr_add src i) in construct_at (ptr_add dst i) x)
        (destroy_elements dst i);;
      copy_loop n' src dst (i + 1)
  end.

Definition copy_elements (src dst : ptr) (size : Z) : M unit :=
  if trivially_copy_constructible then
    memcpy dst src (wrap (size * Z.pos sizeof_T))
  else
    copy_loop (Z.to_nat size) src dst 0.

Definition calc_new_capacity (this : positive) : M Z :=
  let* v := get this in
  ret (if decide (capacity_ v = 0) then 1 else wrap (capacity_ v * 2)).

Definition new_buffer (this : positive) (new_capacity : Z) : M unit :=
  let* new_data :=
    (if decide (new_capacity ≠ 0) then allocate_data new_capacity else ret nullptr) in
  let* v := get this in
  (if decide (size_ v ≠ 0) then
     on_throw (copy_elements (data_ v) new_data (size_ v)) (operator_delete new_data);;
     destroy_elements (data_ v) (size_ v)
   else ret tt);;
  let* v := get this in
  operator_delete (data_ v);;
  set_data this new_data;;
  set_capacity this new_capacity.

(** ** The public interface *)

(** [vector() noexcept = default]: the object comes to life in storage
    [this], which holds no object yet. *)
Definition vector_default (this : positive) : M unit := λ w,
  match objs w !! this with
  | None => Ok tt (set_objs (<[this := Vector nullptr 0 0]> (objs w)) w)
  | Some _ => UB
  end.

Definition clear (this : positive) : M unit :=
  let* v := get this in
  destroy_elements (data_ v) (size_ v);;
  set_size this 0.

(** [~vector()], after which the storage [this] holds no object. *)
Definition vector_dtor (this : positive) : M unit :=
  clear this;;
  let* v := get this in
  operator_delete (data_ v);;
  λ w, Ok tt (set_objs (delete this (objs w)) w).

(** [vector(vector const& other) : vector()]. The target constructor has
    completed when the body runs, so an exception leaving the body runs the
    destructor. *)
Definition vector_copy (this other : positive) : M unit :=
  vector_default this;;
  on_throw
    (let* o := get other in
     if decide (size_ o ≠ 0) then
       let* p := allocate_data (size_ o) in
       set_data this p;;
       let* t := get this in
       copy_elements (data_ o) (data_ t) (size_ o);;
       set_size this (size_ o);;
       let* t := get this in
       set_capacity this (size_ t)
     else ret tt)
    (vector_dtor this).

Definition swap (this other : positive) : M unit :=
  let* a := get this in
  let* b := get other in
  set_data this (data_ b);;
  set_data other (data_ a);;
  let* a := get this in
  let* b := get other in
  set_size this (size_ b);;
  set_size other (size_ a);;
  let* a := get this in
  let* b := get other in
  set_capacity this (capacity_ b);;
  set_capacity other (capacity_ a).

(** Storage for a temporary object. *)
Definition temporary : M positive := λ w, Ok (fresh (dom (objs w))) w.

(** [operator=]: [vector(other).swap( *this )], the temporary dying at the
    end of the full expression. *)
Definition assign (this other : positive) : M unit :=
  if decide (this ≠ other) then
    let* tmp := temporary in
    vector_copy tmp other;;
    swap tmp this;;
    vector_dtor tmp
  else ret tt.

Definition index (this : positive) (i : Z) : M ptr :=
  let* v := get this in ret (ptr_add (data_ v) i).

Definition data (this : positive) : M ptr :=
  let* v := get this in ret (data_ v).

Definition size (this : positive) : M Z :=
  let* v := get this in ret (size_ v).

Definition capacity (this : positive) : M Z :=
  let* v := get this in ret (capacity_ v).

Definition empty (this : positive) : M bool :=
  let* v := get this in ret (bool_decide (size_ v = 0)).

Definition front (this : positive) : M ptr :=
  let* v := get this in ret (ptr_add (data_ v) 0).

Definition back (this : positive) : M ptr :=
  let* v := get this in ret (ptr_add (data_ v) (size_ v - 1)).

Definition begin_ (this : positive) : M ptr :=
  let* v := get this in ret (data_ v).

Definition end_ (this : positive) : M ptr :=
  let* v := get this in ret (ptr_add (data_ v) (size_ v)).

(** The argument is a [T const&]; it is read before anything is released,
    so the model passes the value. *)
Definition push_back (this : positive) (element : T) : M unit :=
  let* v := get this in
  (if decide (size_ v = capacity_ v) then
     let* tmp := copy_T element in
     let* c := calc_new_capacity this in
     new_buffer this c;;
     let* v := get this in
     construct_at (ptr_add (data_ v) (size_ v)) tmp
   else
     construct_at (ptr_add (data_ v) (size_ v)) element);;
  let* v := get this in
  set_size this (wrap (size_ v + 1)).

Definition pop_back (this : positive) : M unit :=
  let* v := get this in
  set_size this (wrap (size_ v - 1));;
  let* v := get this in
  destroy_at (ptr_add (data_ v) (size_ v)).

Definition reserve (this : positive) (new_capacity : Z) : M unit :=
  let* v := get this in
  if decide (new_capacity > capacity_ v) then new_buffer this new_capacity
  else ret tt.

Definition shrink_to_fit (this : positive) : M unit :=
  let* v := get this in
  if decide (size_ v < capacity_ v) then new_buffer this (size_ v)
  else ret tt.

(** [for (iterator i = end() - 1; i != cur; --i) std::swap( *i, *(i - 1))].
    The pointer walks down; [fuel] is its offset at the start, so that at
    fuel [0] the offset is not positive and [*(i - 1)] is outside the
    block. *)
Fixpoint insert_loop (fuel : nat) (i cur : ptr) : M unit :=
  if decide (i = cur) then ret tt
  else
    match fuel with
    | O => ub
    | S fuel' => swap_at i (ptr_add i (-1));; insert_loop fuel' (ptr_add i (-1)) cur
    end.

Definition insert (this : positive) (pos : ptr) (element : T) : M ptr :=
  let* b := begin_ this in
  let* ind := ptr_diff pos b in
  push_back this element;;
  let* b := begin_ this in
  let cur := ptr_add b ind in
  let* e := end_ this in
  let i := ptr_add e (-1) in
  insert_loop (Z.to_nat (off i)) i cur;;
  ret cur.

(** The number of slots of the block [p] points into. *)
Definition block_slots (p : ptr) : M nat := λ w,
  Ok (match blk p with
      | Some l => match heap w !! l with Some buf => length buf | None => O end
      | None => O
      end) w.

(** [for (iterator i = begin() + f_shift; i != end() - cnt; ++i)
      std::iter_swap(i, i + cnt)].
    The pointer walks up; with [fuel] above the number of slots of its block,
    at fuel [0] the pointer [i + cnt] is outside the block. *)
Fixpoint erase_loop (fuel : nat) (this : positive) (i : ptr) (cnt : Z) : M unit :=
  let* e := end_ this in
  if decide (i = ptr_add e (- cnt)) then ret tt
  else
    match fuel with
    | O => ub
    | S fuel' => swap_at i (ptr_add i cnt);; erase_loop fuel' this (ptr_add i 1) cnt
    end.

Fixpoint pop_loop (n : nat) (this : positive) : M unit :=
  match n with
  | O => ret tt
  | S n' => pop_back this;; pop_loop n' this
  end.

Definition erase (this : positive) (first last : ptr) : M ptr :=
  let* b := begin_ this in
  let* f_shift := ptr_diff first b in
  let* b := begin_ this in
  let* l_shift := ptr_diff last b in
  let cnt := l_shift - f_shift in
  if decide (cnt ≤ 0) then
    let* b := begin_ this in ret (ptr_add b l_shift)
  else
    let* b := begin_ this in
    let i := ptr_add b f_shift in
    let* n := block_slots i in
    erase_loop (S n) this i cnt;;
    pop_loop (Z.to_nat cnt) this;;
    let* b := begin_ this in
    ret (ptr_add b f_shift).

Definition erase1 (this : positive) (pos : ptr) : M ptr :=
  erase this pos (ptr_add pos 1).


(** ** Specification vocabulary *)

(** The slots [allocate_data n] obtains. *)
Definition alloc_slots (n : Z) : nat :=
  Z.to_nat (wrap (n * Z.pos sizeof_T) / Z.pos sizeof_T).

(** A block of [len] slots whose first slots hold the objects [s]. *)
Definition filled (s : list T) (len : nat) : list (option T) :=
  (Some <$> s) ++ replicate (len - length s) None.

Fixpoint all_some (l : list (option T)) : option (list T) :=
  match l with
  | [] => Some []
  | Some x :: l' => cons x <$> all_some l'
  | None :: _ => None
  end.

(** The observable element sequence [this[0], ..., this[size - 1]]. *)
Definition elems (w : world) (this : positive) : option (list T) :=
  match objs w !! this with
  | None => None
  | Some v =>
      match blk (data_ v) with
      | None => if decide (size_ v = 0) then Some [] else None
      | Some l =>
          match heap w !! l with
          | None => None
          | Some buf =>
              if decide (0 ≤ size_ v ∧ (Z.to_nat (size_ v) ≤ length buf)%nat)
              then all_some (take (Z.to_nat (size_ v)) buf)
              else None
          end
      end
  end.

Definition size_of (w : world) (this : positive) : option Z :=
  size_ <$> objs w !! this.
Definition capacity_of (w : world) (this : positive) : option Z :=
  capacity_ <$> objs w !! this.
Definition data_of (w : world) (this : positive) : option ptr :=
  data_ <$> objs w !! this.

(** Invariant I1 on a block: objects in the first [n] slots, none behind. *)
Definition inited (n : nat) (buf : list (option T)) : Prop :=
  (n ≤ length buf)%nat ∧
  Forall is_Some (take n buf) ∧
  Forall (λ o, o = None) (drop n buf).

(** A well-formed container: invariants I1 and I2 and the buffer that
    [allocate_data] returned for its capacity. *)
Definition vec_ok (w : world) (v : vector) : Prop :=
  0 ≤ size_ v ∧ size_ v ≤ capacity_ v ∧ capacity_ v < two64 ∧ off (data_ v) = 0 ∧
  match blk (data_ v) with
  | None => capacity_ v = 0
  | Some l =>
      capacity_ v ≠ 0 ∧
      match heap w !! l with
      | None => False
      | Some buf =>
          length buf = alloc_slots (capacity_ v) ∧ inited (Z.to_nat (size_ v)) buf
      end
  end.

(** Invariant I3: two objects never own the same block. *)
Definition separate (o1 : positive) (v1 : vector) (o2 : positive) (v2 : vector) : Prop :=
  o1 = o2 ∨ blk (data_ v1) = None ∨ blk (data_ v1) ≠ blk (data_ v2).

Definition world_ok (w : world) : Prop :=
  map_Forall (λ _ v, vec_ok w v) (objs w) ∧
  map_Forall (λ o1 v1, map_Forall (λ o2 v2, separate o1 v1 o2 v2) (objs w)) (objs w).

(** Invariant I2 as the specification words it. *)
Definition I2 (v : vector) : Prop :=
  size_ v ≤ capacity_ v ∧ (capacity_ v = 0 → data_ v = nullptr).

(** What an observer of object [o] can see: its members and its block. *)
Definition view (w : world) (o : positive) : option (vector * option (list (option T))) :=
  match objs w !! o with
  | None => None
  | Some v => Some (v, match blk (data_ v) with Some l => heap w !! l | None => None end)
  end.

(** The weakest-precondition reading of a computation: one postcondition per
    way of ending. *)
Definition wp {A} (m : M A) (w : world)
    (Q : A → world → Prop) (E : exn → world → Prop) (U : Prop) : Prop :=
  match m w with
  | Ok a w' => Q a w'
  | Throw e w' => E e w'
  | UB => U
  end.

(** The schedule never raises. *)
Definition quiet (w : world) : Prop := faults w = [].

(** A computation that raises only when the schedule says so. *)
Definition nothrow {A} (m : M A) : Prop :=
  ∀ w, quiet w →
    match m w with
    | Ok _ w' => quiet w'
    | Throw _ _ => False
    | UB => True
    end.

#[global] Instance inited_dec n buf : Decision (inited n buf).
Proof. unfold inited. apply _. Defined.

#[global] Instance vec_ok_dec w v : Decision (vec_ok w v).
Proof.
  unfold vec_ok. destruct (blk (data_ v)) as [l|]; [|apply _].
  destruct (heap w !! l); apply _.
Defined.

#[global] Instance separate_dec o1 v1 o2 v2 : Decision (separate o1 v1 o2 v2).
Proof. unfold separate. apply _. Defined.

#[global] Instance world_ok_dec w : Decision (world_ok w).
Proof. unfold world_ok. apply _. Defined.

(** ** The representation of a container *)

(** [v] is well formed in heap [H] and holds the sequence [s]. *)
Definition vec_rep (H : gmap positive (list (option T))) (v : vector) (s : list T) : Prop :=
  size_ v = Z.of_nat (length s) ∧ size_ v ≤ capacity_ v ∧ capacity_ v < two64 ∧
  off (data_ v) = 0 ∧
  match blk (data_ v) with
  | None => capacity_ v = 0
  | Some l =>
      capacity_ v ≠ 0 ∧ (length s ≤ alloc_slots (capacity_ v))%nat ∧
      H !! l = Some (filled s (alloc_slots (capacity_ v)))
  end.

(** The heap without the block behind [d]. *)
Definition drop_block (d : ptr) (H : gmap positive (list (option T))) :
    gmap positive (list (option T)) :=
  match blk d with
  | Some l => delete l H
  | None => H
  end.

(** Blocks other than the one behind [d] are as they were. *)
Definition heap_frame (d : ptr) (H H' : gmap positive (list (option T))) : Prop :=
  ∀ l, blk d ≠ Some l → is_Some (H !! l) → H' !! l = H !! l.

(** The buffer [d'] is the old one, or none, or a block that did not exist. *)
Definition fresh_or_same (d d' : ptr) (H : gmap positive (list (option T))) : Prop :=
  blk d' = blk d ∨ blk d' = None ∨ ∃ l', blk d' = Some l' ∧ H !! l' = None.

(** The effect of a member function on its object: new members [v'], new
    content [s'], nothing else touched. *)
Definition evolves (this : positive) (v : vector) (O : gmap positive vector)
    (H : gmap positive (list (option T))) (w' : world) (v' : vector) (s' : list T) : Prop :=
  objs w' = <[this := v']> O ∧ vec_rep (heap w') v' s' ∧
  heap_frame (data_ v) H (heap w') ∧ fresh_or_same (data_ v) (data_ v') H.

(** The capacity [push_back] asks for when the buffer is full. *)
Definition grown (cap : Z) : Z :=
  if decide (cap = 0) then 1 else wrap (cap * 2).

(** There is a slot for one more element, after growing if the buffer is
    full. *)
Definition has_room (v : vector) : Prop :=
  if decide (size_ v = capacity_ v)
  then size_ v < Z.of_nat (alloc_slots (grown (capacity_ v)))
  else size_ v < Z.of_nat (alloc_slots (capacity_ v)).

(** Exchanging the elements at two positions of a sequence. *)
Definition swap_list (s : list T) (i j : nat) : list T :=
  match s !! i, s !! j with
  | Some x, Some y => <[j := x]> (<[i := y]> s)
  | _, _ => s
  end.

(** The sequence after [n] rounds of the loop of [insert], the walking
    pointer starting at position [k]. *)
Fixpoint bubble (n k : nat) (s : list T) : list T :=
  match n with
  | O => s
  | S n' => bubble n' (k - 1) (swap_list s k (k - 1))
  end.

(** The sequence after [n] rounds of the first loop of [erase], the walking
    pointer starting at position [i]. *)
Fixpoint shift (n i cnt : nat) (s : list T) : list T :=
  match n with
  | O => s
  | S n' => shift n' (S i) cnt (swap_list s i (i + cnt))
  end.

(** [this[i] = x], an assignment through the reference [operator[]]
    returns. *)
Definition store_at (this : positive) (i : Z) (x : T) : M unit :=
  let* p := index this i in assign_at p x.

(** The calls a client can make on the objects of a world. *)
Inductive call : Type :=
| Default (this : positive)
| Copy (this other : positive)
| Destroy (this : positive)
| Assign (this other : positive)
| PushBack (this : positive) (x : T)
| PopBack (this : positive)
| Reserve (this : positive) (n : Z)
| ShrinkToFit (this : positive)
| Clear (this : positive)
| Swap (this other : positive)
| Insert (this : positive) (pos : ptr) (x : T)
| Erase (this : positive) (first last : ptr)
| Erase1 (this : positive) (pos : ptr)
| Store (this : positive) (i : Z) (x : T).

Definition run (c : call) : M unit :=
  match c with
  | Default this => vector_default this
  | Copy this other => vector_copy this other
  | Destroy this => vector_dtor this
  | Assign this other => assign this other
  | PushBack this x => push_back this x
  | PopBack this => pop_back this
  | Reserve this n => reserve this n
  | ShrinkToFit this => shrink_to_fit this
  | Clear this => clear this
  | Swap this other => swap this other
  | Insert this pos x => let* _ := insert this pos x in ret tt
  | Erase this first last => let* _ := erase this first last in ret tt
  | Erase1 this pos => let* _ := erase1 this pos in ret tt
  | Store this i x => store_at this i x
  end.

(** The object a call is made on. *)
Definition target (c : call) : positive :=
  match c with
  | Default this | Copy this _ | Destroy this | Assign this _ | PushBack this _
  | PopBack this | Reserve this _ | ShrinkToFit this | Clear this | Swap this _
  | Insert this _ _ | Erase this _ _ | Erase1 this _ | Store this _ _ => this
  end.

(** The objects a call may modify: its target, and for [swap] its
    argument. *)
Definition touches (c : call) (o : positive) : Prop :=
  target c = o ∨ match c with Swap _ other => other = o | _ => False end.

(** A call that makes sense in [w]: member functions are called on live
    objects, constructors run in storage that holds no object, and a
    [size_t] argument is in range. *)
Definition callable (w : world) (c : call) : Prop :=
  match c with
  | Default this => objs w !! this = None
  | Copy this other => objs w !! this = None ∧ is_Some (objs w !! other)
  | Assign this other | Swap this other =>
      is_Some (objs w !! this) ∧ is_Some (objs w !! other)
  | Reserve this n => is_Some (objs w !! this) ∧ 0 ≤ n < two64
  | Destroy this | PushBack this _ | PopBack this | ShrinkToFit this | Clear this
  | Insert this _ _ | Erase this _ _ | Erase1 this _ | Store this _ _ =>
      is_Some (objs w !! this)
  end.

(** The computation came back, normally or by an exception, in world [w']. *)
Definition ends_in {A} (r : result A) (w' : world) : Prop :=
  match r with
  | Ok _ w => w = w'
  | Throw _ w => w = w'
  | UB => False
  end.

(** The worlds a program can reach from the empty one by calls, the test
    harness resetting the schedule at will. *)
Inductive reachable : world → Prop :=
| reach_empty F : reachable (World ∅ ∅ F)
| reach_schedule w F : reachable w → reachable (set_faults F w)
| reach_call w c w' :
    reachable w → callable w c → ends_in (run c w) w' → reachable w'.

(** After a call on [this] the world is well formed and no other object
    has changed. *)
Definition kept (this : positive) (w w' : world) : Prop :=
  world_ok w' ∧ ∀ o, o ≠ this → view w' o = view w o.

#[global] Instance has_room_dec v : Decision (has_room v).
Proof. unfold has_room. destruct (decide (size_ v = capacity_ v)); apply _. Defined.

(** The least power of two that is at least [n], and 0 for [n = 0]. *)
Definition doubling (n : nat) : Z :=
  if decide (n = 0%nat) then 0 else 2 ^ Z.log2_up (Z.of_nat n).

(** [push_back] of each element of [xs] in turn, observing [size()] and
    [capacity()] after every call. *)
Fixpoint push_trace (this : positive) (xs : list T) : M (list (Z * Z)) :=
  match xs with
  | [] => ret []
  | x :: xs' =>
      push_back this x;;
      let* n := size this in
      let* c := capacity this in
      let* tr := push_trace this xs' in
      ret ((n, c) :: tr)
  end.

(** Any number of calls, none of which touches object [o], ended normally
    or by an exception, the schedule reset at will in between. *)
Inductive untouched_run (o : positive) : world → world → Prop :=
| no_call w : untouched_run o w w
| new_schedule w F w' :
    untouched_run o (set_faults F w) w' → untouched_run o w w'
| one_call w c w1 w' :
    callable w c → ¬ touches c o → ends_in (run c w) w1 →
    untouched_run o w1 w' → untouched_run o w w'.

(** [c] has just been made a copy of [src]: by the copy constructor in
    fresh storage, or by assignment to a live object. *)
Definition copied (c src : positive) (w w1 : world) : Prop :=
  (objs w !! c = None ∧ vector_copy c src w = Ok tt w1) ∨
  (c ≠ src ∧ is_Some (objs w !! c) ∧ assign c src w = Ok tt w1).


(** ** Vocabulary for the properties of the remaining members *)

(** Every exception the computation can leave with satisfies [P]. *)
Definition raises_only {A} (P : exn → Prop) (m : M A) : Prop :=
  ∀ w, match m w with
       | Throw e _ => P e
       | _ => True
       end.

(** Reading an element through the reference that [operator[]], [front()]
    and [back()] return. *)
Definition load (this : positive) (i : Z) : M T :=
  let* p := index this i in read_at p.
Definition load_front (this : positive) : M T :=
  let* p := front this in read_at p.
Definition load_back (this : positive) : M T :=
  let* p := back this in read_at p.

(** [end() - begin()]. *)
Definition distance (this : positive) : M Z :=
  let* e := end_ this in
  let* b := begin_ this in
  ptr_diff e b.

(** [push_back] of each element of [xs] in turn. *)
Fixpoint push_all (this : positive) (xs : list T) : M unit :=
  match xs with
  | [] => ret tt
  | x :: xs' => push_back this x;; push_all this xs'
  end.

(** Every block of the free store is the buffer of a live container. *)
Definition no_garbage (w : world) : Prop :=
  ∀ l, is_Some (heap w !! l) →
    ∃ o v, objs w !! o = Some v ∧ blk (data_ v) = Some l.


(** Whichever way the computation ends, the world it ends in is related by
    [R] to the one it started in. *)
Definition preserves {A} (R : world → world → Prop) (m : M A) : Prop :=
  ∀ w, match m w with
       | Ok _ w' | Throw _ w' => R w w'
       | UB => True
       end.

(** The same objects and the same blocks, whatever the blocks hold. *)
Definition same_blocks (w w' : world) : Prop :=
  objs w' = objs w ∧ ∀ l, is_Some (heap w' !! l) ↔ is_Some (heap w !! l).

(** The same blocks, and every object with the buffer it had. *)
Definition same_buffers (w w' : world) : Prop :=
  (∀ o, data_ <$> objs w' !! o = data_ <$> objs w !! o) ∧
  (∀ l, is_Some (heap w' !! l) ↔ is_Some (heap w !! l)).


(** The calls that never give capacity back: all but [shrink_to_fit],
    assignment, [swap], constructors and destructor. *)
Definition keeps_capacity (c : call) : Prop :=
  match c with
  | PushBack _ _ | PopBack _ | Reserve _ _ | Clear _
  | Insert _ _ _ | Erase _ _ _ | Erase1 _ _ | Store _ _ _ => True
  | _ => False
  end.


(** Every block of the free store, but possibly the block [X] in flight,
    is the buffer of a live container. *)
Definition garbage_in (X : option positive) (w : world) : Prop :=
  ∀ l, is_Some (heap w !! l) →
    X = Some l ∨ ∃ o v, objs w !! o = Some v ∧ blk (data_ v) = Some l.

(** A computation that leaves no garbage behind, however it ends. *)
Definition leak_free {A} (m : M A) : Prop :=
  ∀ w, no_garbage w →
    match m w with
    | Ok _ w' | Throw _ w' => no_garbage w'
    | UB => True
    end.


(** [push_back] and [insert] with the argument as the source has it, a
    [T const&]: the referenced object is read where the source copies from
    it, in [T tmp = element] before [new_buffer] when the buffer is full,
    in [new(data_ + size_) T(element)] otherwise. *)
Definition push_back_ref (this : positive) (element : ptr) : M unit :=
  let* v := get this in
  (if decide (size_ v = capacity_ v) then
     let* x := read_at element in
     let* tmp := copy_T x in
     let* c := calc_new_capacity this in
     new_buffer this c;;
     let* v := get this in
     construct_at (ptr_add (data_ v) (size_ v)) tmp
   else
     let* x := read_at element in
     construct_at (ptr_add (data_ v) (size_ v)) x);;
  let* v := get this in
  set_size this (wrap (size_ v + 1)).

Definition insert_ref (this : positive) (pos : ptr) (element : ptr) : M ptr :=
  let* b := begin_ this in
  let* ind := ptr_diff pos b in
  push_back_ref this element;;
  let* b := begin_ this in
  let cur := ptr_add b ind in
  let* e := end_ this in
  let i := ptr_add e (-1) in
  insert_loop (Z.to_nat (off i)) i cur;;
  ret cur.

End Model.

Arguments Ok {T A} a w.
Arguments Throw {T A} e w.
Arguments UB {T A}.

Notation "'let*' x ':=' m 'in' k" := (bind m (λ x, k))
  (at level 10, x name, m at level 100, k at level 200).
Notation "m ;; k" := (bind m (λ _, k))
  (at level 100, k at level 200, right associativity).

(** * Example worlds

    Containers of integers, with an element type whose copy operations may
    raise ([sizeof] 8, no trivial copy constructor). *)

#[global] Instance Z_element : Element Z :=
  {| sizeof_T := 8; trivially_copy_constructible := false |}.

(** The world a computation ends in (the empty world if it leaves the
    program). *)
Definition world_after {A} (r : result (T := Z) A) : world (T := Z) :=
  match r with
  | Ok _ w => w
  | Throw _ w => w
  | UB => World ∅ ∅ []
  end.

Definition w_none : world (T := Z) := World ∅ ∅ [].

(** Object 1 default-constructed. *)
Definition w_fresh : world (T := Z) :=
  Eval vm_compute in world_after (vector_default 1 w_none).

(** Object 1 holding [1; 2; 3] (capacity 4). *)
Definition w_123 : world (T := Z) :=
  Eval vm_compute in
    world_after ((push_back 1%positive 1;; push_back 1%positive 2;;
                  push_back 1%positive 3) w_fresh).

Definition v_123 : vector := Eval vm_compute in default (Vector nullptr 0 0) (objs w_123 !! 1%positive).

(** Object 1 holding [1; 99; 2; 3]. *)
Definition w_1_99_2_3 : world (T := Z) :=
  Eval vm_compute in world_after (insert 1%positive (ptr_add (data_ v_123) 1) 99 w_123).

Definition v_1_99_2_3 : vector :=
  Eval vm_compute in default (Vector nullptr 0 0) (objs w_1_99_2_3 !! 1%positive).

(** Object 1 holding [1; 3] after [erase] of positions 1 and 2. *)
Definition w_1_3 : world (T := Z) :=
  Eval vm_compute in
    world_after (erase 1%positive (ptr_add (data_ v_1_99_2_3) 1)
                   (ptr_add (data_ v_1_99_2_3) 3) w_1_99_2_3).

(** Object 2 copy-constructed from object 1 holding [1; 2; 3]. *)
Definition w_copy : world (T := Z) :=
  Eval vm_compute in world_after (vector_copy 2 1 w_123).

(** Then [push_back(4)] on the copy. *)
Definition w_copy_pushed : world (T := Z) :=
  Eval vm_compute in world_after (push_back 2%positive 4 w_copy).

(** Object 1 holding [1; 2; 3] after [reserve(10)]. *)
Definition w_reserved : world (T := Z) :=
  Eval vm_compute in world_after (reserve 1 10 w_123).

(** Object 1 holding [1; 2; 3] after [shrink_to_fit]. *)
Definition w_shrunk : world (T := Z) :=
  Eval vm_compute in world_after (shrink_to_fit 1 w_123).

(** Object 1 default-constructed, the third fallible step to come raises:
    in [push_back] on an empty container these steps are the copy of the
    argument, [operator new], and the construction of the new element. *)
Definition w_fresh_faulty : world (T := Z) := set_faults [false; false; true] w_fresh.

(** Object 1 holding [7] with capacity 1, the fourth fallible step to come
    raises: the copy of the argument, [operator new], the relocation of
    [7], and the construction of the new element. *)
Definition w_7 : world (T := Z) :=
  Eval vm_compute in world_after (push_back 1%positive 7 w_fresh).
Definition w_7_faulty : world (T := Z) := set_faults [false; false; false; true] w_7.

(** An element type with a trivial copy constructor. *)
Definition Z_pod : Element Z :=
  {| sizeof_T := 8; trivially_copy_constructible := true |}.

Definition lookup_or_null (w : world (T := Z)) (o : positive) : vector :=
  default (Vector nullptr 0 0) (objs w !! o).

Definition v_fresh : vector := Eval vm_compute in lookup_or_null w_fresh 1.
Definition v_7 : vector := Eval vm_compute in lookup_or_null w_7 1.
Definition v_copy : vector := Eval vm_compute in lookup_or_null w_copy 2.
Definition v_copy_pushed : vector := Eval vm_compute in lookup_or_null w_copy_pushed 2.
Definition v_reserved : vector := Eval vm_compute in lookup_or_null w_reserved 1.

(** Object 1 holding [1; 2; 3] with room for one more; the fourth fallible
    step to come raises: in [insert] at [begin()] these steps are the copy
    into the new last slot, then in the first exchange the copy into the
    temporary and two copy assignments. *)
Definition w_123_faulty : world (T := Z) := set_faults [false; false; false; true] w_123.

(** Where that [insert(begin(), 99)] ends. *)
Definition w_insert_failed : world (T := Z) :=
  Eval vm_compute in world_after (insert 1%positive (data_ v_123) 99 w_123_faulty).

(** * Verification *)

Section Proofs.

Context {T : Type} `{!Element T}.

Local Abbreviation world := (world (T := T)).
Local Abbreviation M := (M (T := T)).
Local Abbreviation store := (gmap positive (list (option T))).

(** ** The program logic *)

Lemma wp_ret {A} (a : A) (w : world) Q E U : Q a w → wp (ret a) w Q E U.
Proof. done. Qed.

Lemma wp_ub {A} (w : world) (Q : A → world → Prop) E (U : Prop) : U → wp ub w Q E U.
Proof. done. Qed.

Lemma wp_bind {A B} (m : M A) (f : A → M B) w Q E U :
  wp m w (λ a w', wp (f a) w' Q E U) E U → wp (bind m f) w Q E U.
Proof. unfold wp, bind. by destruct (m w). Qed.

Lemma wp_bind_inv {A B} (m : M A) (f : A → M B) w Q E U :
  wp (bind m f) w Q E U → wp m w (λ a w', wp (f a) w' Q E U) E U.
Proof. unfold wp, bind. by destruct (m w). Qed.

Lemma wp_mono {A} (m : M A) w (Q Q' : A → world → Prop) (E E' : exn → world → Prop)
    (U U' : Prop) :
  wp m w Q E U →
  (∀ a w', Q a w' → Q' a w') → (∀ e w', E e w' → E' e w') → (U → U') →
  wp m w Q' E' U'.
Proof. unfold wp. destruct (m w); eauto. Qed.

Lemma wp_post {A} (m : M A) w (Q Q' : A → world → Prop) E U :
  wp m w Q E U → (∀ a w', Q a w' → Q' a w') → wp m w Q' E U.
Proof. intros. eapply wp_mono; eauto. Qed.

Lemma wp_on_throw {A} (m : M A) h w Q E U :
  wp m w Q (λ e w', wp h w' (λ _ w'', E e w'') (λ _ _, U) U) U →
  wp (on_throw m h) w Q E U.
Proof.
  unfold wp, on_throw. destruct (m w) as [a w'|e w'|]; try done.
  by destruct (h w').
Qed.

Lemma wp_if {A} (P : Prop) `{!Decision P} (m1 m2 : M A) w Q E U :
  (P → wp m1 w Q E U) → (¬ P → wp m2 w Q E U) →
  wp (if decide P then m1 else m2) w Q E U.
Proof. by destruct (decide P); eauto. Qed.

Lemma wp_may_throw e O H F (Q : unit → world → Prop) E U :
  (∀ F', Q tt (World O H F')) → (∀ F', E e (World O H F')) →
  wp (may_throw e) (World O H F) Q E U.
Proof.
  intros HQ HE. unfold wp, may_throw; simpl.
  destruct F as [|[] F]; [apply HQ|apply HE|apply HQ].
Qed.

Lemma wp_copy_T x O H F (Q : T → world → Prop) E U :
  (∀ F', Q x (World O H F')) → (∀ F', E element_error (World O H F')) →
  wp (copy_T x) (World O H F) Q E U.
Proof.
  intros HQ HE. unfold copy_T. destruct trivially_copy_constructible.
  - apply wp_ret, HQ.
  - apply wp_bind, wp_may_throw; [|done]. intros F'. apply wp_ret, HQ.
Qed.

Lemma wp_get this v O H F (Q : vector → world → Prop) E U :
  O !! this = Some v → Q v (World O H F) → wp (get this) (World O H F) Q E U.
Proof. intros Hv HQ. unfold wp, get; simpl. by rewrite Hv. Qed.

Lemma wp_put this v v0 O H F (Q : unit → world → Prop) E U :
  O !! this = Some v0 → Q tt (World (<[this := v]> O) H F) →
  wp (put this v) (World O H F) Q E U.
Proof. intros Hv HQ. unfold wp, put; simpl. by rewrite Hv. Qed.

Lemma wp_set_data this p v O H F (Q : unit → world → Prop) E U :
  O !! this = Some v →
  Q tt (World (<[this := Vector p (size_ v) (capacity_ v)]> O) H F) →
  wp (set_data this p) (World O H F) Q E U.
Proof. intros Hv HQ. apply wp_bind, (wp_get _ v); [done|]. by eapply wp_put. Qed.

Lemma wp_set_size this n v O H F (Q : unit → world → Prop) E U :
  O !! this = Some v →
  Q tt (World (<[this := Vector (data_ v) n (capacity_ v)]> O) H F) →
  wp (set_size this n) (World O H F) Q E U.
Proof. intros Hv HQ. apply wp_bind, (wp_get _ v); [done|]. by eapply wp_put. Qed.

Lemma wp_set_capacity this n v O H F (Q : unit → world → Prop) E U :
  O !! this = Some v →
  Q tt (World (<[this := Vector (data_ v) (size_ v) n]> O) H F) →
  wp (set_capacity this n) (World O H F) Q E U.
Proof. intros Hv HQ. apply wp_bind, (wp_get _ v); [done|]. by eapply wp_put. Qed.

(** Slot access, for a block whose content is known ... *)
Lemma wp_peek l i buf o O H F (Q : option T → world → Prop) E U :
  H !! l = Some buf → 0 ≤ i → buf !! Z.to_nat i = Some o →
  Q o (World O H F) → wp (peek (Ptr (Some l) i)) (World O H F) Q E U.
Proof.
  intros Hl Hi Ho HQ. unfold wp, peek; simpl. rewrite Hl.
  destruct (decide (0 ≤ i)); [|done]. by rewrite Ho.
Qed.

Lemma wp_poke l i buf o O H F (Q : unit → world → Prop) E U :
  H !! l = Some buf → 0 ≤ i → (Z.to_nat i < length buf)%nat →
  Q tt (World O (<[l := <[Z.to_nat i := o]> buf]> H) F) →
  wp (poke (Ptr (Some l) i) o) (World O H F) Q E U.
Proof.
  intros Hl Hi Hlen HQ. unfold wp, poke; simpl. rewrite Hl.
  by destruct (decide (0 ≤ i ∧ (Z.to_nat i < length buf)%nat)) as [|[]].
Qed.

(** ... and for any pointer, undefined behaviour allowed. *)
Lemma wp_peek_any p O H F (Q : option T → world → Prop) E :
  (∀ l buf o, blk p = Some l → H !! l = Some buf → 0 ≤ off p →
     buf !! Z.to_nat (off p) = Some o → Q o (World O H F)) →
  wp (peek p) (World O H F) Q E True.
Proof.
  intros HQ. unfold wp, peek; simpl.
  destruct (blk p) as [l|] eqn:Hb; [|done].
  destruct (H !! l) as [buf|] eqn:Hl; [|done].
  destruct (decide (0 ≤ off p)); [|done].
  destruct (buf !! Z.to_nat (off p)) eqn:Ho; [|done]. eauto.
Qed.

Lemma wp_poke_any p o O H F (Q : unit → world → Prop) E :
  (∀ l buf, blk p = Some l → H !! l = Some buf → 0 ≤ off p →
     (Z.to_nat (off p) < length buf)%nat →
     Q tt (World O (<[l := <[Z.to_nat (off p) := o]> buf]> H) F)) →
  wp (poke p o) (World O H F) Q E True.
Proof.
  intros HQ. unfold wp, poke; simpl.
  destruct (blk p) as [l|] eqn:Hb; [|done].
  destruct (H !! l) as [buf|] eqn:Hl; [|done].
  destruct (decide _) as [[??]|]; [|done]. eauto.
Qed.

(** ** Blocks *)

Lemma wp_read_at l i buf x O H F (Q : T → world → Prop) E U :
  H !! l = Some buf → 0 ≤ i → buf !! Z.to_nat i = Some (Some x) →
  Q x (World O H F) → wp (read_at (Ptr (Some l) i)) (World O H F) Q E U.
Proof. intros. apply wp_bind. eapply wp_peek; [done..|]. by apply wp_ret. Qed.

Lemma wp_destroy_at l i buf x O H F (Q : unit → world → Prop) E U :
  H !! l = Some buf → 0 ≤ i → buf !! Z.to_nat i = Some (Some x) →
  Q tt (World O (<[l := <[Z.to_nat i := None]> buf]> H) F) →
  wp (destroy_at (Ptr (Some l) i)) (World O H F) Q E U.
Proof.
  intros Hl Hi Hx HQ. apply wp_bind. eapply wp_peek; [done..|].
  eapply wp_poke; [done..| |done]. by eapply lookup_lt_Some.
Qed.

Lemma wp_construct_at l i buf o x O H F (Q : unit → world → Prop) E U :
  H !! l = Some buf → 0 ≤ i → buf !! Z.to_nat i = Some o →
  (∀ F', Q tt (World O (<[l := <[Z.to_nat i := Some x]> buf]> H) F')) →
  (∀ F', E element_error (World O H F')) →
  wp (construct_at (Ptr (Some l) i) x) (World O H F) Q E U.
Proof.
  intros Hl Hi Hx HQ HE. apply wp_bind. eapply wp_peek; [done..|].
  apply wp_bind, wp_copy_T; [|done]. intros F'.
  eapply wp_poke; [done..| |done]. by eapply lookup_lt_Some.
Qed.

Lemma wp_destroy_loop (s : list T) :
  ∀ rest l O H F (Q : unit → world → Prop) E U,
    H !! l = Some ((Some <$> s) ++ rest) →
    Q tt (World O (<[l := replicate (length s) None ++ rest]> H) F) →
    wp (destroy_loop (length s) (Ptr (Some l) 0)) (World O H F) Q E U.
Proof.
  induction s as [|x s IH] using rev_ind; intros rest l O H F Q E U Hl HQ.
  - simpl in *. apply wp_ret. by rewrite insert_id in HQ.
  - rewrite length_app, Nat.add_1_r in *. cbn [destroy_loop].
    rewrite fmap_app, <- app_assoc in Hl. cbn [fmap list_fmap app] in Hl.
    apply wp_bind. unfold ptr_add; cbn [blk off]. rewrite Z.add_0_l.
    eapply (wp_destroy_at _ _ _ x); [done|lia| |].
    { rewrite Nat2Z.id. rewrite <- (length_fmap Some s) at 1. apply list_lookup_middle. done. }
    rewrite Nat2Z.id.
    eapply IH.
    + rewrite lookup_insert_eq. f_equal.
      rewrite <- (length_fmap Some s) at 1.
      rewrite <- (Nat.add_0_r (length (Some <$> s))), insert_app_r. done.
    + rewrite insert_insert_eq. rewrite replicate_S_end, <- app_assoc in HQ. done.
Qed.

Lemma wp_destroy_elements (s : list T) rest l O H F (Q : unit → world → Prop) E U :
  H !! l = Some ((Some <$> s) ++ rest) →
  Q tt (World O (<[l := replicate (length s) None ++ rest]> H) F) →
  wp (destroy_elements (Ptr (Some l) 0) (Z.of_nat (length s))) (World O H F) Q E U.
Proof. intros. unfold destroy_elements. rewrite Nat2Z.id. by eapply wp_destroy_loop. Qed.

Lemma wp_peek_out l i buf O H F (Q : option T → world → Prop) E (U : Prop) :
  H !! l = Some buf → buf !! Z.to_nat i = None → U →
  wp (peek (Ptr (Some l) i)) (World O H F) Q E U.
Proof.
  intros Hl Ho HU. unfold wp, peek; simpl. rewrite Hl.
  destruct (decide (0 ≤ i)); [|done]. by rewrite Ho.
Qed.

Lemma wp_operator_new bytes O H F (Q : ptr → world → Prop) E U :
  (∀ F' l, H !! l = None →
     Q (Ptr (Some l) 0)
       (World O (<[l := replicate (Z.to_nat (bytes / Z.pos sizeof_T)) None]> H) F')) →
  (∀ F', E bad_alloc (World O H F')) →
  wp (operator_new bytes) (World O H F) Q E U.
Proof.
  intros HQ HE. apply wp_bind, wp_may_throw; [|done].
  intros F'. unfold wp; simpl. apply HQ.
  apply not_elem_of_dom, is_fresh.
Qed.

Lemma wp_operator_delete_null O H F (Q : unit → world → Prop) E U :
  Q tt (World O H F) → wp (operator_delete nullptr) (World O H F) Q E U.
Proof. done. Qed.

Lemma wp_operator_delete l buf O H F (Q : unit → world → Prop) E U :
  H !! l = Some buf → Q tt (World O (delete l H) F) →
  wp (operator_delete (Ptr (Some l) 0)) (World O H F) Q E U.
Proof. intros Hl HQ. unfold wp, operator_delete; simpl. by rewrite Hl. Qed.

Lemma fmap_snoc_filled (done : list T) x m :
  <[length done := Some x]> ((Some <$> done) ++ replicate (S m) None)
  = (Some <$> (done ++ [x])) ++ replicate m None.
Proof.
  rewrite <- (length_fmap Some done) at 1.
  rewrite <- (Nat.add_0_r (length (Some <$> done))), insert_app_r.
  rewrite fmap_app, <- app_assoc. done.
Qed.

Lemma wp_copy_loop (todo : list T) :
  ∀ (done : list T) (m : nat) ls ld sbuf O H F,
    ls ≠ ld →
    H !! ls = Some sbuf →
    (∀ j x, todo !! j = Some x → sbuf !! (length done + j)%nat = Some (Some x)) →
    H !! ld = Some ((Some <$> done) ++ replicate m None) →
    wp (copy_loop (length todo) (Ptr (Some ls) 0) (Ptr (Some ld) 0) (Z.of_nat (length done)))
       (World O H F)
       (λ _ w', (length todo ≤ m)%nat ∧ objs w' = O ∧
                heap w' = <[ld := (Some <$> (done ++ todo)) ++ replicate (m - length todo) None]> H)
       (λ e w', e = element_error ∧ objs w' = O ∧
                heap w' = <[ld := replicate (length done + m) None]> H)
       (m < length todo)%nat.
Proof.
  induction todo as [|x todo IH]; intros done m ls ld sbuf O H F Hne Hs Hsrc Hd.
  - apply wp_ret. split; [simpl; lia|]. split; [done|]. simpl.
    rewrite app_nil_r, Nat.sub_0_r. symmetry. by apply insert_id.
  - cbn [length copy_loop]. apply wp_bind, wp_on_throw, wp_bind.
    unfold ptr_add; cbn [blk off]. rewrite !Z.add_0_l.
    eapply (wp_read_at _ _ _ x); [done|lia| |].
    { rewrite Nat2Z.id. specialize (Hsrc 0%nat x eq_refl). by rewrite Nat.add_0_r in Hsrc. }
    destruct m as [|m].
    { apply wp_bind. eapply wp_peek_out; [done| |lia].
      rewrite Nat2Z.id. apply lookup_ge_None_2.
      rewrite length_app, length_fmap. simpl. lia. }
    eapply (wp_construct_at _ _ _ None); [done|lia| | |].
    { rewrite Nat2Z.id, lookup_app_r by (rewrite length_fmap; lia).
      rewrite length_fmap, Nat.sub_diag. done. }
    + intros F'. rewrite Nat2Z.id, fmap_snoc_filled.
      replace (Z.of_nat (length done) + 1) with (Z.of_nat (length (done ++ [x])))
        by (rewrite length_app; simpl; lia).
      eapply wp_mono.
      * eapply (IH (done ++ [x]) m ls ld sbuf); [done| | |].
        -- by rewrite lookup_insert_ne.
        -- intros j y Hj. rewrite length_app. simpl.
           replace (length done + 1 + j)%nat with (length done + S j)%nat by lia.
           by apply Hsrc.
        -- by rewrite lookup_insert_eq.
      * intros _ w' (Hle & Ho & Hh). split; [lia|]. split; [done|].
        rewrite Hh, insert_insert_eq, <- app_assoc. done.
      * intros e w' (He & Ho & Hh). split; [done|]. split; [done|].
        rewrite Hh, insert_insert_eq, length_app. simpl.
        by replace (length done + 1 + m)%nat with (length done + S m)%nat by lia.
      * lia.
    + intros F'. eapply (wp_destroy_elements done); [done|].
      split; [done|]. split; [done|]. cbn [heap]. by rewrite replicate_add.
Qed.

Lemma wp_memcpy_loop (todo : list T) :
  ∀ (done : list T) (m : nat) ls ld sbuf O H F,
    ls ≠ ld →
    H !! ls = Some sbuf →
    (∀ j x, todo !! j = Some x → sbuf !! (length done + j)%nat = Some (Some x)) →
    H !! ld = Some ((Some <$> done) ++ replicate m None) →
    wp (memcpy_loop (length todo) (Ptr (Some ld) 0) (Ptr (Some ls) 0) (Z.of_nat (length done)))
       (World O H F)
       (λ _ w', (length todo ≤ m)%nat ∧ objs w' = O ∧
                heap w' = <[ld := (Some <$> (done ++ todo)) ++ replicate (m - length todo) None]> H)
       (λ _ _, False)
       (m < length todo)%nat.
Proof.
  induction todo as [|x todo IH]; intros done m ls ld sbuf O H F Hne Hs Hsrc Hd.
  - apply wp_ret. split; [simpl; lia|]. split; [done|]. simpl.
    rewrite app_nil_r, Nat.sub_0_r. symmetry. by apply insert_id.
  - cbn [length memcpy_loop]. apply wp_bind.
    unfold ptr_add; cbn [blk off]. rewrite !Z.add_0_l.
    eapply (wp_peek _ _ _ (Some x)); [done|lia| |].
    { rewrite Nat2Z.id. specialize (Hsrc 0%nat x eq_refl). by rewrite Nat.add_0_r in Hsrc. }
    apply wp_bind.
    destruct m as [|m].
    { unfold wp, poke; simpl. rewrite Hd.
      destruct (decide _) as [[_ Hlt]|]; [|lia].
      rewrite Nat2Z.id, length_app, length_fmap in Hlt. simpl in Hlt. lia. }
    eapply wp_poke; [done|lia| |].
    { rewrite Nat2Z.id, length_app, length_fmap. simpl. lia. }
    rewrite Nat2Z.id, fmap_snoc_filled.
    replace (Z.of_nat (length done) + 1) with (Z.of_nat (length (done ++ [x])))
      by (rewrite length_app; simpl; lia).
    eapply wp_mono.
    * eapply (IH (done ++ [x]) m ls ld sbuf); [done| | |].
      -- by rewrite lookup_insert_ne.
      -- intros j y Hj. rewrite length_app. simpl.
         replace (length done + 1 + j)%nat with (length done + S j)%nat by lia.
         by apply Hsrc.
      -- by rewrite lookup_insert_eq.
    * intros _ w' (Hle & Ho & Hh). split; [lia|]. split; [done|].
      rewrite Hh, insert_insert_eq, <- app_assoc. done.
    * done.
    * lia.
Qed.

(** ** Arithmetic of the allocation size *)

Lemma two64_pos : 0 < two64.
Proof. unfold two64. lia. Qed.

Lemma wrap_small z : 0 ≤ z < two64 → wrap z = z.
Proof. intros. unfold wrap. by apply Z.mod_small. Qed.

Lemma wrap_range z : 0 ≤ wrap z < two64.
Proof. unfold wrap. apply Z.mod_pos_bound, two64_pos. Qed.

Lemma wrap_le z : 0 ≤ z → wrap z ≤ z.
Proof. intros. unfold wrap. apply Z.mod_le; [done|apply two64_pos]. Qed.

Lemma alloc_slots_le n : 0 ≤ n → Z.of_nat (alloc_slots n) ≤ n.
Proof.
  intros Hn. unfold alloc_slots.
  pose proof (wrap_range (n * Z.pos sizeof_T)) as [H0 _].
  pose proof (wrap_le (n * Z.pos sizeof_T) ltac:(lia)) as Hle.
  rewrite Z2Nat.id by (apply Z.div_pos; lia).
  apply Z.div_le_upper_bound; lia.
Qed.

Lemma alloc_slots_fit n :
  0 ≤ n → n * Z.pos sizeof_T < two64 → alloc_slots n = Z.to_nat n.
Proof.
  intros Hn Hfit. unfold alloc_slots.
  rewrite wrap_small by lia. by rewrite Z.div_mul by lia.
Qed.

Lemma alloc_slots_0 : alloc_slots 0 = 0%nat.
Proof. unfold alloc_slots. rewrite Z.mul_0_l. reflexivity. Qed.

Lemma alloc_slots_bytes (k : nat) c :
  (k ≤ alloc_slots c)%nat → Z.of_nat k * Z.pos sizeof_T < two64.
Proof.
  unfold alloc_slots. intros Hk.
  pose proof (wrap_range (c * Z.pos sizeof_T)) as [H0 H1].
  apply Nat2Z.inj_le in Hk. rewrite Z2Nat.id in Hk by (apply Z.div_pos; lia).
  pose proof (Z.mul_div_le (wrap (c * Z.pos sizeof_T)) (Z.pos sizeof_T) ltac:(lia)).
  nia.
Qed.

Lemma alloc_slots_exact (k : nat) c :
  (k ≤ alloc_slots c)%nat → alloc_slots (Z.of_nat k) = k.
Proof.
  intros Hk. rewrite alloc_slots_fit; [apply Nat2Z.id|lia|by eapply alloc_slots_bytes].
Qed.

(** ** Facts about the representation *)

Lemma filled_length (s : list T) len : (length s ≤ len)%nat → length (filled s len) = len.
Proof. intros. unfold filled. rewrite length_app, length_fmap, length_replicate. lia. Qed.

Lemma filled_nil len : filled (@nil T) len = replicate len None.
Proof. unfold filled. simpl. by rewrite Nat.sub_0_r. Qed.

Lemma heap_frame_refl d (H : store) : heap_frame d H H.
Proof. by intros l. Qed.

Lemma heap_frame_insert d l b (H : store) :
  blk d = Some l → heap_frame d H (<[l := b]> H).
Proof. intros Hd l' Hne _. rewrite lookup_insert_ne; [done|congruence]. Qed.

Lemma heap_frame_fresh d l b (H H' : store) :
  H !! l = None → heap_frame d H H' → heap_frame d H (<[l := b]> H').
Proof.
  intros Hl Hf l' Hne [b' Hb']. rewrite lookup_insert_ne; [apply Hf; eauto|congruence].
Qed.

Lemma heap_frame_drop d (H : store) : heap_frame d H (drop_block d H).
Proof.
  intros l Hne _. unfold drop_block. destruct (blk d) as [l0|]; [|done].
  rewrite lookup_delete_ne; [done|congruence].
Qed.

(** ** The private helpers *)

Lemma wp_copy_elements (s : list T) rest m ls ld O H F :
  ls ≠ ld →
  H !! ls = Some ((Some <$> s) ++ rest) →
  Z.of_nat (length s) * Z.pos sizeof_T < two64 →
  H !! ld = Some (replicate m None) →
  wp (copy_elements (Ptr (Some ls) 0) (Ptr (Some ld) 0) (Z.of_nat (length s)))
     (World O H F)
     (λ _ w', (length s ≤ m)%nat ∧ objs w' = O ∧ heap w' = <[ld := filled s m]> H)
     (λ e w', e = element_error ∧ objs w' = O ∧ heap w' = H)
     (m < length s)%nat.
Proof.
  intros Hne Hs Hfit Hd. unfold copy_elements.
  assert (Hsrc : ∀ j x, s !! j = Some x →
            ((Some <$> s) ++ rest) !! (length (@nil T) + j)%nat = Some (Some x)).
  { intros j x Hj. simpl. rewrite lookup_app_l.
    - by rewrite list_lookup_fmap, Hj.
    - rewrite length_fmap. by eapply lookup_lt_Some. }
  destruct trivially_copy_constructible.
  - unfold memcpy. rewrite wrap_small by lia. rewrite Z.div_mul by lia.
    rewrite Nat2Z.id. eapply wp_mono.
    + by eapply (wp_memcpy_loop s [] m ls ld).
    + intros _ w' (? & ? & Hh). by rewrite Hh.
    + done.
    + done.
  - rewrite Nat2Z.id. eapply wp_mono.
    + by eapply (wp_copy_loop s [] m ls ld).
    + intros _ w' (? & ? & Hh). by rewrite Hh.
    + intros e w' (? & ? & Hh). rewrite Hh. simpl. by rewrite insert_id.
    + done.
Qed.

Lemma wp_allocate_data n O H F (Q : ptr → world → Prop) E U :
  (∀ F' l, H !! l = None →
     Q (Ptr (Some l) 0) (World O (<[l := replicate (alloc_slots n) None]> H) F')) →
  (∀ F', E bad_alloc (World O H F')) →
  wp (allocate_data n) (World O H F) Q E U.
Proof. intros HQ HE. by apply wp_operator_new. Qed.

Lemma copy_elements_null (s : list T) rest ls O (H : store) F :
  s ≠ [] → H !! ls = Some ((Some <$> s) ++ rest) →
  Z.of_nat (length s) * Z.pos sizeof_T < two64 →
  copy_elements (Ptr (Some ls) 0) nullptr (Z.of_nat (length s)) (World O H F) = UB.
Proof.
  intros Hs Hl Hfit. destruct s as [|x s]; [done|].
  unfold copy_elements. destruct trivially_copy_constructible.
  - unfold memcpy. rewrite wrap_small by lia. rewrite Z.div_mul by lia.
    rewrite Nat2Z.id. cbn [length memcpy_loop].
    unfold bind, peek, poke; simpl. by rewrite Hl.
  - rewrite Nat2Z.id. cbn [length copy_loop].
    unfold bind, on_throw, read_at, construct_at, bind, peek; simpl. by rewrite Hl.
Qed.

Lemma vec_rep_data (H : store) v s :
  vec_rep H v s →
  (data_ v = nullptr ∧ capacity_ v = 0 ∧ s = []) ∨
  (∃ l, data_ v = Ptr (Some l) 0 ∧ capacity_ v ≠ 0 ∧
        (length s ≤ alloc_slots (capacity_ v))%nat ∧
        H !! l = Some (filled s (alloc_slots (capacity_ v)))).
Proof.
  intros (Hsz & Hle & Hcap & Hoff & Hb). destruct (data_ v) as [[l|] o]; simpl in *; subst o.
  - right. exists l. by destruct Hb as (? & ? & ?).
  - left. split; [done|]. split; [done|]. destruct s; [done|]. simpl in Hsz. lia.
Qed.

Lemma wp_new_buffer this v (s : list T) n O (H : store) F :
  O !! this = Some v → vec_rep H v s → 0 ≤ n < two64 →
  wp (new_buffer this n) (World O H F)
     (λ _ w', ∃ d', evolves this v O H w' (Vector d' (size_ v) n) s)
     (λ _ w', objs w' = O ∧ heap w' = H)
     ((n = 0 ∧ s ≠ []) ∨ (n ≠ 0 ∧ (alloc_slots n < length s)%nat)).
Proof.
  intros Hv Hrep Hn. destruct v as [d sz cap].
  pose proof Hrep as (Hsz & Hle & Hcap & Hoff & _).
  pose proof (vec_rep_data _ _ _ Hrep) as Hdata.
  cbn [data_ size_ capacity_] in *. subst sz.
  unfold new_buffer. apply wp_bind.
  (* the state once the elements have moved *)
  set (mid := λ (new_data : ptr) (w' : world),
         objs w' = O ∧
         heap_frame d H (heap w') ∧
         (∀ l0, blk d = Some l0 → is_Some (heap w' !! l0)) ∧
         ((n = 0 ∧ new_data = nullptr ∧ s = []) ∨
          (n ≠ 0 ∧ ∃ l, new_data = Ptr (Some l) 0 ∧ H !! l = None ∧
             (length s ≤ alloc_slots n)%nat ∧
             heap w' !! l = Some (filled s (alloc_slots n))))).
  assert (Hend : ∀ new_data w1, mid new_data w1 →
            wp (let* v0 := get this in
                operator_delete (data_ v0);; set_data this new_data;;
                set_capacity this n) w1
               (λ _ w', ∃ d', evolves this (Vector d (Z.of_nat (length s)) cap) O H w'
                                (Vector d' (Z.of_nat (length s)) n) s)
               (λ _ w', objs w' = O ∧ heap w' = H)
               ((n = 0 ∧ s ≠ []) ∨ (n ≠ 0 ∧ (alloc_slots n < length s)%nat))).
  { intros new_data [O1 H1 F1] (HO & Hfr & Hold & Hnew); simpl in *; subst O1.
    apply wp_bind, (wp_get _ _ _ _ _ _ _ _ Hv). cbn [data_]. apply wp_bind.
    assert (Hdel : ∀ H2 F2, heap_frame d H H2 →
              (n = 0 ∨ ∃ l, new_data = Ptr (Some l) 0 ∧ H !! l = None ∧
                 H2 !! l = Some (filled s (alloc_slots n))) →
              wp (set_data this new_data;; set_capacity this n) (World O H2 F2)
                 (λ _ w', ∃ d', evolves this (Vector d (Z.of_nat (length s)) cap) O H w'
                                  (Vector d' (Z.of_nat (length s)) n) s)
                 (λ _ w', objs w' = O ∧ heap w' = H)
                 ((n = 0 ∧ s ≠ []) ∨ (n ≠ 0 ∧ (alloc_slots n < length s)%nat))).
    { intros H2 F2 Hfr2 Hl2. apply wp_bind. eapply wp_set_data; [done|].
      eapply wp_set_capacity; [by rewrite lookup_insert_eq|].
      exists new_data. rewrite insert_insert_eq. cbn [data_ size_ capacity_].
      split; [done|]. split; [|split; [done|]].
      - unfold vec_rep; cbn [data_ size_ capacity_ heap].
        destruct Hnew as [(-> & -> & ->)|(Hn0 & l & -> & Hl & Hlen & _)].
        + pose proof two64_pos. simpl in *. split_and!; (done || lia).
        + destruct Hl2 as [?|(l' & [= <-] & _ & Hl')]; [done|]. simpl.
          pose proof (alloc_slots_le n ltac:(lia)).
          split_and!; (done || lia).
      - cbn [data_]. destruct Hnew as [(_ & -> & _)|(_ & l & -> & Hl & _)]; [by right; left|].
        right; right. by exists l. }
    destruct Hdata as [(Hd & _)|(l0 & Hd & _ & _ & Hl0)]; subst d.
    - apply wp_operator_delete_null. apply Hdel; [done|].
      destruct Hnew as [(? & _)|(_ & l & ? & ? & _ & ?)]; [by left|right; eauto].
    - destruct (Hold l0 eq_refl) as [b0 Hb0].
      eapply wp_operator_delete; [done|]. apply Hdel.
      + intros l' Hne Hl'. simpl in Hne. rewrite lookup_delete_ne by congruence.
        by apply Hfr.
      + destruct Hnew as [(? & _)|(_ & l & ? & Hl & _ & Hl')]; [by left|right].
        exists l. split; [done|]. split; [done|]. rewrite lookup_delete_ne; [done|].
        intros ->. by rewrite Hl in Hl0. }
  destruct (decide (n ≠ 0)) as [Hn0|Hn0].
  - eapply wp_allocate_data; [|done]. intros F1 l Hl.
    apply wp_bind, (wp_get _ _ _ _ _ _ _ _ Hv). cbn [data_ size_]. apply wp_bind.
    destruct (decide (Z.of_nat (length s) ≠ 0)) as [Hs0|Hs0].
    + destruct Hdata as [(_ & _ & ->)|(l0 & Hd & Hc0 & Hlen0 & Hl0)]; [done|]. subst d.
      assert (l0 ≠ l) by (intros ->; by rewrite Hl in Hl0).
      apply wp_bind, wp_on_throw. eapply wp_mono.
      * eapply (wp_copy_elements s _ (alloc_slots n) l0 l); [done| | |].
        -- rewrite lookup_insert_ne by done. exact Hl0.
        -- by eapply alloc_slots_bytes.
        -- by rewrite lookup_insert_eq.
      * intros _ [O1 H1 F2] (Hlen & HO & HH); simpl in HO, HH; subst O1 H1.
        rewrite insert_insert_eq.
        eapply (wp_destroy_elements s); [by rewrite lookup_insert_ne|].
        apply Hend. split; [done|]. cbn [heap]. split_and!.
        -- intros l' Hne Hl'. simpl in Hne.
           assert (l ≠ l') by (intros ->; rewrite Hl in Hl'; by destruct Hl').
           rewrite !lookup_insert_ne by congruence. done.
        -- intros l' [= <-]. by rewrite lookup_insert_eq.
        -- right. split; [done|]. exists l. rewrite lookup_insert_ne by done.
           by rewrite lookup_insert_eq.
      * intros e [O1 H1 F2] (_ & HO & HH); simpl in HO, HH; subst O1 H1.
        eapply wp_operator_delete; [by rewrite lookup_insert_eq|].
        by rewrite delete_insert_id.
      * intros Hlt. right. split; [done|lia].
    + apply wp_ret. assert (s = []) as -> by (destruct s; [done|simpl in *; lia]).
      apply Hend. split; [done|]. cbn [heap]. split_and!.
      * by apply heap_frame_fresh, heap_frame_refl.
      * intros l0 Hd. destruct Hdata as [(Hd' & _)|(l1 & Hd' & _ & _ & Hl1)]; subst d; [done|].
        injection Hd as <-.
        rewrite lookup_insert_ne; [by eexists|]. intros ->. by rewrite Hl in Hl1.
      * right. split; [done|]. exists l. rewrite lookup_insert_eq, filled_nil.
        split_and!; [done|done|simpl; lia|done].
  - apply dec_stable in Hn0. subst n. apply wp_ret.
    apply wp_bind, (wp_get _ _ _ _ _ _ _ _ Hv). cbn [data_ size_]. apply wp_bind.
    destruct (decide (Z.of_nat (length s) ≠ 0)) as [Hs0|Hs0].
    + destruct Hdata as [(_ & _ & ->)|(l0 & Hd & Hc0 & Hlen0 & Hl0)]; [done|]. subst d.
      assert (s ≠ []) by (intros ->; simpl in *; lia).
      unfold wp at 1, bind at 1, on_throw.
      rewrite (copy_elements_null s (replicate (alloc_slots cap - length s) None) l0);
        [by left|done|exact Hl0|by eapply alloc_slots_bytes].
    + apply wp_ret. assert (s = []) as -> by (destruct s; [done|simpl in *; lia]).
      apply Hend. split; [done|]. cbn [heap]. split_and!.
      * apply heap_frame_refl.
      * intros l0 Hd. destruct Hdata as [(Hd' & _)|(l1 & Hd' & _ & _ & Hl1)]; subst d; [done|].
        injection Hd as <-. by eexists.
      * by left.
Qed.

Lemma filled_snoc (s : list T) x m :
  (length s < m)%nat → <[length s := Some x]> (filled s m) = filled (s ++ [x]) m.
Proof.
  intros Hlt. unfold filled.
  replace (m - length s)%nat with (S (m - length (s ++ [x]))) by (rewrite length_app; simpl; lia).
  apply fmap_snoc_filled.
Qed.

Lemma filled_unsnoc (s : list T) x m :
  (length s < m)%nat → <[length s := None]> (filled (s ++ [x]) m) = filled s m.
Proof.
  intros Hlt. unfold filled. rewrite fmap_app, <- app_assoc. simpl.
  rewrite <- (length_fmap Some s) at 1.
  rewrite <- (Nat.add_0_r (length (Some <$> s))), insert_app_r. simpl.
  rewrite length_app. simpl.
  by replace (m - length s)%nat with (S (m - (length s + 1))) by lia.
Qed.

Lemma filled_lookup_lt (s : list T) m i x :
  s !! i = Some x → filled s m !! i = Some (Some x).
Proof.
  intros Hi. unfold filled. rewrite lookup_app_l.
  - by rewrite list_lookup_fmap, Hi.
  - rewrite length_fmap. by eapply lookup_lt_Some.
Qed.

Lemma filled_lookup_ge (s : list T) m i :
  (length s ≤ i < m)%nat → filled s m !! i = Some None.
Proof.
  intros Hi. unfold filled. rewrite lookup_app_r by (rewrite length_fmap; lia).
  rewrite length_fmap. apply lookup_replicate_2. lia.
Qed.

Lemma filled_lookup_out (s : list T) m i :
  (length s ≤ m ≤ i)%nat → filled s m !! i = None.
Proof. intros Hi. apply lookup_ge_None_2. rewrite filled_length; lia. Qed.

Lemma filled_insert (s : list T) m i x :
  (i < length s)%nat → <[i := Some x]> (filled s m) = filled (<[i := x]> s) m.
Proof.
  intros Hi. unfold filled. rewrite insert_app_l by (by rewrite length_fmap).
  by rewrite list_fmap_insert, length_insert.
Qed.

Lemma evolves_refl this v (s : list T) O (H : store) F :
  O !! this = Some v → vec_rep H v s → evolves this v O H (World O H F) v s.
Proof.
  intros Hv Hrep. split; [by rewrite insert_id|]. split; [done|].
  split; [apply heap_frame_refl|by left].
Qed.

Lemma evolves_block this v O (H : store) w1 v1 (s1 : list T) l b v2 (s2 : list T) F :
  evolves this v O H w1 v1 s1 → blk (data_ v1) = Some l → data_ v2 = data_ v1 →
  vec_rep (<[l := b]> (heap w1)) v2 s2 →
  evolves this v O H (World (<[this := v2]> O) (<[l := b]> (heap w1)) F) v2 s2.
Proof.
  intros (HO & Hrep & Hfr & Hfs) Hl Hd Hrep2. split; [done|]. split; [done|].
  rewrite Hd. split; [|done].
  intros l0 Hne Hl0. cbn [heap]. rewrite lookup_insert_ne; [by apply Hfr|].
  intros ->. destruct Hfs as [Heq|[Heq|(l' & Heq & Hnone)]].
  - congruence.
  - congruence.
  - rewrite Hl in Heq. injection Heq as <-. rewrite Hnone in Hl0. by destruct Hl0.
Qed.

Lemma evolves_members this v O (H : store) w1 v1 (s1 : list T) v2 (s2 : list T) F :
  evolves this v O H w1 v1 s1 → data_ v2 = data_ v1 →
  vec_rep (heap w1) v2 s2 →
  evolves this v O H (World (<[this := v2]> O) (heap w1) F) v2 s2.
Proof.
  intros (HO & Hrep & Hfr & Hfs) Hd Hrep2. split; [done|]. split; [done|].
  by rewrite Hd.
Qed.

Lemma grown_range cap : 0 ≤ grown cap < two64.
Proof.
  unfold grown. destruct (decide (cap = 0)); [|apply wrap_range].
  pose proof two64_pos. unfold two64 in *. lia.
Qed.

(** The two shapes of a well-formed container: no buffer, or a buffer of
    [alloc_slots cap] slots. *)
Lemma vec_rep_inv (H : store) v s :
  vec_rep H v s →
  (v = Vector nullptr 0 0 ∧ s = []) ∨
  (∃ l cap, v = Vector (Ptr (Some l) 0) (Z.of_nat (length s)) cap ∧
      0 < cap < two64 ∧ Z.of_nat (length s) ≤ cap ∧
      (length s ≤ alloc_slots cap)%nat ∧
      H !! l = Some (filled s (alloc_slots cap))).
Proof.
  intros (Hsz & Hle & Hcap & Hoff & Hb).
  destruct v as [[[l|] o] sz cap]; simpl in *; subst o sz.
  - right. exists l, cap. destruct Hb as (? & ? & ?). split_and!; (done || lia).
  - left. subst cap. destruct s; [done|]. simpl in Hle. lia.
Qed.

Lemma vec_rep_null (H : store) : vec_rep H (Vector nullptr 0 0) (@nil T).
Proof. unfold vec_rep; simpl. pose proof two64_pos. by split_and!. Qed.

Lemma vec_rep_block (H : store) l (s : list T) cap :
  0 < cap < two64 → Z.of_nat (length s) ≤ cap → (length s ≤ alloc_slots cap)%nat →
  H !! l = Some (filled s (alloc_slots cap)) →
  vec_rep H (Vector (Ptr (Some l) 0) (Z.of_nat (length s)) cap) s.
Proof. intros. unfold vec_rep; simpl. split_and!; (done || lia). Qed.

Lemma wp_clear this v (s : list T) O (H : store) F :
  O !! this = Some v → vec_rep H v s →
  wp (clear this) (World O H F)
     (λ _ w', evolves this v O H w' (Vector (data_ v) 0 (capacity_ v)) [])
     (λ _ _, False) False.
Proof.
  intros Hv Hrep. unfold clear. apply wp_bind, (wp_get _ _ _ _ _ _ _ _ Hv), wp_bind.
  pose proof (evolves_refl _ _ _ _ _ F Hv Hrep) as Hev.
  destruct (vec_rep_inv _ _ _ Hrep) as [(-> & ->)|(l & cap & -> & Hc & Hle & Hlen & Hl)];
    cbn [data_ size_ capacity_].
  - apply wp_ret. eapply wp_set_size; [done|].
    eapply (evolves_members _ _ _ _ (World O H F)); [done|done|apply vec_rep_null].
  - eapply (wp_destroy_elements s); [done|].
    eapply wp_set_size; [done|].
    eapply (evolves_block _ _ _ _ (World O H F)); [done|done|done|].
    apply (vec_rep_block _ _ []); [done|simpl; lia|simpl; lia|].
    rewrite lookup_insert_eq, filled_nil. f_equal.
    replace (alloc_slots cap) with (length s + (alloc_slots cap - length s))%nat at 2 by lia.
    by rewrite replicate_add.
Qed.

Lemma wp_pop_back this v (s : list T) O (H : store) F :
  O !! this = Some v → vec_rep H v s →
  wp (pop_back this) (World O H F)
     (λ _ w', ∃ s0 x, s = s0 ++ [x] ∧
        evolves this v O H w' (Vector (data_ v) (size_ v - 1) (capacity_ v)) s0)
     (λ _ _, False) (s = []).
Proof.
  intros Hv Hrep. unfold pop_back. apply wp_bind, (wp_get _ _ _ _ _ _ _ _ Hv), wp_bind.
  pose proof (evolves_refl _ _ _ _ _ F Hv Hrep) as Hev.
  eapply wp_set_size; [done|]. apply wp_bind. eapply wp_get; [by rewrite lookup_insert_eq|].
  destruct (vec_rep_inv _ _ _ Hrep) as [(-> & ->)|(l & cap & -> & Hc & Hle & Hlen & Hl)];
    cbn [data_ size_ capacity_]; [done|].
  unfold ptr_add; cbn [blk off]. rewrite Z.add_0_l.
  destruct s as [|x s _] using rev_ind.
  - apply wp_bind. eapply wp_peek_out; [done| |done].
    apply filled_lookup_out. simpl.
    pose proof (alloc_slots_le cap ltac:(lia)).
    assert (wrap (Z.of_nat 0 - 1) = two64 - 1) as -> by reflexivity. lia.
  - rewrite length_app in *. simpl in *.
    rewrite wrap_small by lia.
    replace (Z.of_nat (length s + 1) - 1) with (Z.of_nat (length s)) by lia.
    eapply (wp_destroy_at _ _ _ x); [done|lia| |].
    { rewrite Nat2Z.id. apply filled_lookup_lt. by rewrite lookup_app_r, Nat.sub_diag. }
    rewrite Nat2Z.id, filled_unsnoc by lia. exists s, x. split; [done|].
    eapply (evolves_block _ _ _ _ (World O H F)); [done|done|done|].
    apply vec_rep_block; [done|lia|lia|by rewrite lookup_insert_eq].
Qed.

Lemma wp_reserve this v (s : list T) n O (H : store) F :
  O !! this = Some v → vec_rep H v s → 0 ≤ n < two64 →
  wp (reserve this n) (World O H F)
     (λ _ w', (n > capacity_ v ∧ ∃ d', evolves this v O H w' (Vector d' (size_ v) n) s) ∨
              (n ≤ capacity_ v ∧ w' = World O H F))
     (λ _ w', objs w' = O ∧ heap w' = H)
     (n > capacity_ v ∧ (alloc_slots n < length s)%nat).
Proof.
  intros Hv Hrep Hn. unfold reserve. apply wp_bind, (wp_get _ _ _ _ _ _ _ _ Hv).
  destruct (decide (n > capacity_ v)) as [Hgt|Hle].
  - eapply wp_mono; [by apply (wp_new_buffer this v s)|..].
    + intros ? w' Hev. left. by split.
    + done.
    + intros [(-> & _)|(_ & ?)]; [|done].
      destruct Hrep as (? & ? & _). lia.
  - apply wp_ret. right. split; [lia|done].
Qed.

Lemma wp_shrink_to_fit this v (s : list T) O (H : store) F :
  O !! this = Some v → vec_rep H v s →
  wp (shrink_to_fit this) (World O H F)
     (λ _ w', (size_ v < capacity_ v ∧
               ∃ d', evolves this v O H w' (Vector d' (size_ v) (size_ v)) s) ∨
              (size_ v = capacity_ v ∧ w' = World O H F))
     (λ _ w', objs w' = O ∧ heap w' = H)
     False.
Proof.
  intros Hv Hrep. unfold shrink_to_fit. apply wp_bind, (wp_get _ _ _ _ _ _ _ _ Hv).
  pose proof Hrep as (Hsz & Hle & Hcap & _).
  destruct (decide (size_ v < capacity_ v)) as [Hlt|Hge].
  - eapply wp_mono; [apply (wp_new_buffer this v s); [done|done|lia]|..].
    + intros ? w' Hev. left. by split.
    + done.
    + intros [(Hz & Hs)|(Hnz & Hlt')].
      * destruct s; [done|]. simpl in *. lia.
      * destruct (vec_rep_inv _ _ _ Hrep) as [(-> & ->)|(l & cap & -> & _ & _ & Hlen & _)];
          [done|].
        simpl in Hlt'. rewrite (alloc_slots_exact _ cap) in Hlt' by done. lia.
  - apply wp_ret. right. split; [lia|done].
Qed.

Lemma wp_push_back this v (s : list T) x O (H : store) F :
  O !! this = Some v → vec_rep H v s →
  wp (push_back this x) (World O H F)
     (λ _ w', ∃ v', evolves this v O H w' v' (s ++ [x]) ∧
        capacity_ v' = (if decide (size_ v = capacity_ v) then grown (capacity_ v)
                        else capacity_ v) ∧
        (size_ v ≠ capacity_ v → data_ v' = data_ v))
     (λ e w', (objs w' = O ∧ heap w' = H) ∨
        (e = element_error ∧ size_ v = capacity_ v ∧
         ∃ d', evolves this v O H w' (Vector d' (size_ v) (grown (capacity_ v))) s))
     (¬ has_room v).
Proof.
  intros Hv Hrep. unfold push_back. apply wp_bind, (wp_get _ _ _ _ _ _ _ _ Hv), wp_bind.
  (* constructing the new element in a container that has a slot for it *)
  assert (Hput : ∀ v1 w1 y (E : exn → world → Prop) (U : Prop),
    evolves this v O H w1 v1 s → objs w1 !! this = Some v1 →
    (∀ F', E element_error (World (objs w1) (heap w1) F')) →
    (¬ size_ v1 < Z.of_nat (alloc_slots (capacity_ v1)) → U) →
    wp (construct_at (ptr_add (data_ v1) (size_ v1)) y;;
        let* v2 := get this in set_size this (wrap (size_ v2 + 1))) w1
       (λ _ w', evolves this v O H w' (Vector (data_ v1) (size_ v1 + 1) (capacity_ v1)) (s ++ [y]))
       E U).
  { intros v1 [O1 H1 F1] y E U Hev Hv1 HE HU. cbn [objs heap] in *.
    pose proof Hev as (HO & Hrep1 & _). cbn [objs heap] in *.
    destruct (vec_rep_inv _ _ _ Hrep1) as [(-> & ->)|(l & cap & -> & Hc & Hle & Hlen & Hl)].
    { apply HU. simpl. rewrite alloc_slots_0. lia. }
    cbn [data_ size_ capacity_] in *. unfold ptr_add; cbn [blk off]. rewrite Z.add_0_l.
    apply wp_bind.
    destruct (decide (length s < alloc_slots cap)%nat) as [Hlt|Hge].
    - eapply (wp_construct_at _ _ _ None); [done|lia| | |done].
      { rewrite Nat2Z.id. apply filled_lookup_ge. lia. }
      intros F'. rewrite Nat2Z.id, filled_snoc by done.
      apply wp_bind, (wp_get _ _ _ _ _ _ _ _ Hv1). cbn [data_ size_ capacity_].
      eapply wp_set_size; [done|]. cbn [data_ size_ capacity_].
      pose proof (alloc_slots_le cap ltac:(lia)).
      rewrite wrap_small by lia. subst O1. rewrite insert_insert_eq.
      eapply (evolves_block _ _ _ _ (World _ H1 F1)); [done|done|done|].
      replace (Z.of_nat (length s) + 1) with (Z.of_nat (length (s ++ [y])))
        by (rewrite length_app; simpl; lia).
      apply vec_rep_block; [done|..|by rewrite lookup_insert_eq];
        rewrite length_app; simpl; lia.
    - apply wp_bind. eapply wp_peek_out; [done| |apply HU; lia].
      rewrite Nat2Z.id. apply filled_lookup_out. lia. }
  pose proof (evolves_refl _ _ _ _ _ F Hv Hrep) as Hev.
  destruct (decide (size_ v = capacity_ v)) as [Hfull|Hfree].
  - apply wp_bind, wp_copy_T; [|by left]. intros F1.
    apply wp_bind. unfold calc_new_capacity.
    apply wp_bind, (wp_get _ _ _ _ _ _ _ _ Hv), wp_ret. fold (grown (capacity_ v)).
    apply wp_bind. eapply wp_mono;
      [apply (wp_new_buffer this v s); [done|done|apply grown_range]|..].
    + intros _ [O1 H1 F2] [d' Hev1]. pose proof Hev1 as (HO & _). cbn [objs] in HO.
      apply wp_bind. eapply wp_get; [by rewrite HO, lookup_insert_eq|].
      apply wp_bind_inv.
      eapply wp_post;
        [eapply (Hput _ _ x); [exact Hev1|cbn [objs]; rewrite HO; apply lookup_insert_eq|..]|].
      * intros F'. right. split; [done|]. split; [done|]. exists d'. exact Hev1.
      * cbn [size_ capacity_]. unfold has_room. by rewrite decide_True by done.
      * intros ? w' Hev2. eexists. split; [exact Hev2|]. by split.
    + intros e w' ?. by left.
    + unfold has_room. rewrite decide_True by done.
      destruct Hrep as (Hsz & _).
      intros [(-> & Hs)|(_ & Hlt)]; [|lia].
      rewrite alloc_slots_0. lia.
  - apply wp_bind_inv.
    eapply wp_post; [eapply (Hput v _ x); [exact Hev|done|..]|].
    + intros F'. by left.
    + unfold has_room. by rewrite decide_False by done.
    + intros ? w' Hev2. eexists. split; [exact Hev2|]. by split.
Qed.

(** ** Constructors, destructor, [swap] and assignment *)

Lemma wp_vector_default this O (H : store) F (Q : unit → world → Prop) E U :
  O !! this = None → Q tt (World (<[this := Vector nullptr 0 0]> O) H F) →
  wp (vector_default this) (World O H F) Q E U.
Proof. intros Hn HQ. unfold wp, vector_default; simpl. by rewrite Hn. Qed.

(** The destructor asks less than well-formedness: the handler of the copy
    constructor runs it on an object whose capacity is not yet set. *)
Lemma wp_vector_dtor this v (s : list T) O (H : store) F (Q : unit → world → Prop) E U :
  O !! this = Some v → size_ v = Z.of_nat (length s) →
  (data_ v = nullptr ∧ s = [] ∨
   ∃ l rest, data_ v = Ptr (Some l) 0 ∧ H !! l = Some ((Some <$> s) ++ rest)) →
  Q tt (World (delete this O) (drop_block (data_ v) H) F) →
  wp (vector_dtor this) (World O H F) Q E U.
Proof.
  intros Hv Hsz Hd HQ. unfold vector_dtor, clear.
  apply wp_bind, wp_bind, (wp_get _ _ _ _ _ _ _ _ Hv), wp_bind. rewrite Hsz.
  destruct Hd as [(Hd & ->)|(l & rest & Hd & Hl)]; rewrite Hd in *.
  - simpl. apply wp_ret. eapply wp_set_size; [done|].
    apply wp_bind. eapply wp_get; [by rewrite lookup_insert_eq|]. cbn [data_].
    rewrite Hd. apply wp_bind, wp_operator_delete_null.
    unfold wp; simpl. by rewrite delete_insert_eq.
  - eapply (wp_destroy_elements s); [done|]. eapply wp_set_size; [done|].
    apply wp_bind. eapply wp_get; [by rewrite lookup_insert_eq|]. cbn [data_].
    rewrite Hd. apply wp_bind. eapply wp_operator_delete; [by rewrite lookup_insert_eq|].
    unfold wp; simpl. rewrite !delete_insert_eq. exact HQ.
Qed.

Ltac solve_lookup :=
  first
    [ eassumption
    | rewrite ?lookup_insert, ?lookup_delete; repeat case_decide;
      first [exfalso; congruence | eassumption | reflexivity | congruence] ].

Lemma wp_swap this other va vb O (H : store) F (Q : unit → world → Prop) E U :
  O !! this = Some va → O !! other = Some vb →
  Q tt (World (<[other := va]> (<[this := vb]> O)) H F) →
  wp (swap this other) (World O H F) Q E U.
Proof.
  intros Ha Hb HQ. unfold swap.
  apply wp_bind, (wp_get _ _ _ _ _ _ _ _ Ha), wp_bind, (wp_get _ _ _ _ _ _ _ _ Hb).
  destruct (decide (this = other)) as [->|Hne].
  - assert (va = vb) as -> by congruence. destruct vb as [d n c].
    repeat first
      [ eapply wp_get; [by rewrite ?lookup_insert_eq|]
      | eapply wp_set_data; [by rewrite ?lookup_insert_eq|]
      | eapply wp_set_size; [by rewrite ?lookup_insert_eq|]
      | eapply wp_set_capacity; [by rewrite ?lookup_insert_eq|]
      | apply wp_bind
      | progress cbn [data_ size_ capacity_] ].
    by rewrite !insert_insert_eq in *.
  - destruct va as [da na ca], vb as [db nb cb].
    repeat first
      [ eapply wp_get; [solve_lookup|]
      | eapply wp_set_data; [solve_lookup|]
      | eapply wp_set_size; [solve_lookup|]
      | eapply wp_set_capacity; [solve_lookup|]
      | apply wp_bind
      | progress cbn [data_ size_ capacity_] ].
    match goal with |- Q tt (World ?O1 _ _) =>
      replace O1 with (<[other := Vector da na ca]> (<[this := Vector db nb cb]> O)); [done|]
    end.
    apply map_eq. intros k. rewrite !lookup_insert.
    repeat case_decide; congruence.
Qed.

Lemma wp_vector_copy this other vo (s : list T) O (H : store) F :
  O !! this = None → O !! other = Some vo → vec_rep H vo s →
  wp (vector_copy this other) (World O H F)
     (λ _ w', ∃ d',
        objs w' = <[this := Vector d' (size_ vo) (size_ vo)]> O ∧
        vec_rep (heap w') (Vector d' (size_ vo) (size_ vo)) s ∧
        ((s = [] ∧ d' = nullptr ∧ heap w' = H) ∨
         (∃ l', d' = Ptr (Some l') 0 ∧ H !! l' = None ∧
                heap w' = <[l' := filled s (length s)]> H)))
     (λ _ w', objs w' = O ∧ heap w' = H)
     False.
Proof.
  intros Hn Ho Hrep. unfold vector_copy.
  assert (Hother : ∀ x, <[this := x]> O !! other = Some vo).
  { intros x. rewrite lookup_insert_ne; [done|]. intros ->. by rewrite Hn in Ho. }
  apply wp_bind, wp_vector_default; [done|]. apply wp_on_throw.
  apply wp_bind. eapply wp_get; [apply Hother|].
  destruct (vec_rep_inv _ _ _ Hrep) as [(-> & ->)|(l & cap & -> & Hc & Hle & Hlen & Hl)];
    cbn [data_ size_ capacity_].
  - destruct (decide (0 ≠ 0)) as [?|_]; [done|]. apply wp_ret. exists nullptr.
    split; [done|]. split; [apply vec_rep_null|]. by left.
  - destruct (decide (Z.of_nat (length s) ≠ 0)) as [Hs0|Hs0].
    + apply wp_bind. eapply wp_allocate_data.
      * intros F1 l' Hl'. rewrite (alloc_slots_exact _ cap) by done.
        assert (l ≠ l') by (intros ->; by rewrite Hl' in Hl).
        apply wp_bind. eapply wp_set_data; [by rewrite lookup_insert_eq|].
        cbn [data_ size_ capacity_]. rewrite insert_insert_eq.
        apply wp_bind. eapply wp_get; [by rewrite lookup_insert_eq|].
        cbn [data_ size_ capacity_]. apply wp_bind. eapply wp_mono.
        -- eapply (wp_copy_elements s _ (length s) l l'); [done| | |].
           ++ rewrite lookup_insert_ne by done. exact Hl.
           ++ by eapply alloc_slots_bytes.
           ++ by rewrite lookup_insert_eq.
        -- intros _ [O1 H1 F2] (_ & HO & HH); simpl in HO, HH; subst O1 H1.
           rewrite insert_insert_eq.
           apply wp_bind. eapply wp_set_size; [by rewrite lookup_insert_eq|].
           cbn [data_ size_ capacity_]. rewrite insert_insert_eq.
           apply wp_bind. eapply wp_get; [by rewrite lookup_insert_eq|].
           eapply wp_set_capacity; [by rewrite lookup_insert_eq|].
           cbn [data_ size_ capacity_]. rewrite insert_insert_eq.
           exists (Ptr (Some l') 0). split; [done|]. cbn [heap]. split.
           ++ apply vec_rep_block; [lia|lia| |].
              ** by rewrite (alloc_slots_exact _ cap).
              ** by rewrite lookup_insert_eq, (alloc_slots_exact _ cap).
           ++ right. by exists l'.
        -- intros e [O1 H1 F2] (_ & HO & HH); simpl in HO, HH; subst O1 H1.
           eapply (wp_vector_dtor _ _ []); [by rewrite lookup_insert_eq|done| |].
           { right. exists l', (replicate (length s) None).
             split; [done|]. by rewrite lookup_insert_eq. }
           cbn [data_ drop_block blk]. by rewrite !delete_insert_id.
        -- lia.
      * intros F1. eapply (wp_vector_dtor _ _ []); [by rewrite lookup_insert_eq|done|by left|].
        cbn [data_ drop_block blk nullptr]. by rewrite delete_insert_id.
    + destruct s; [|simpl in *; lia]. simpl in Hle, Hlen, Hl.
      apply wp_ret. exists nullptr. split; [done|]. split; [apply vec_rep_null|]. by left.
Qed.

Lemma wp_temporary O (H : store) F (Q : positive → world → Prop) E U :
  (∀ tmp, O !! tmp = None → Q tmp (World O H F)) →
  wp temporary (World O H F) Q E U.
Proof. intros HQ. unfold wp, temporary; simpl. apply HQ, not_elem_of_dom, is_fresh. Qed.

Lemma vec_rep_frame (H H' : store) v (s : list T) :
  vec_rep H v s →
  (∀ l, blk (data_ v) = Some l → H' !! l = H !! l) →
  vec_rep H' v s.
Proof.
  intros (Hsz & Hle & Hcap & Hoff & Hb) Hsame. unfold vec_rep.
  split_and!; [done..|]. destruct (blk (data_ v)) as [l|]; [|done].
  by rewrite Hsame.
Qed.

Lemma wp_assign this other va vb (sa sb : list T) O (H : store) F :
  this ≠ other → O !! this = Some va → O !! other = Some vb →
  vec_rep H va sa → vec_rep H vb sb →
  wp (assign this other) (World O H F)
     (λ _ w', ∃ d', evolves this va O H w' (Vector d' (size_ vb) (size_ vb)) sb)
     (λ _ w', objs w' = O ∧ heap w' = H)
     False.
Proof.
  intros Hne Ha Hb Hra Hrb. unfold assign. rewrite decide_True by done.
  apply wp_bind, wp_temporary. intros tmp Htmp.
  assert (tmp ≠ this) by (intros ->; by rewrite Htmp in Ha).
  apply wp_bind. eapply wp_mono; [by apply (wp_vector_copy tmp other vb sb)| |done|done].
  intros _ [O1 H1 F1] (d' & HO & Hrt & Hheap). cbn [objs heap] in *. subst O1.
  set (vt := Vector d' (size_ vb) (size_ vb)) in *.
  apply wp_bind. eapply (wp_swap tmp this vt va); [solve_lookup|solve_lookup|].
  (* the old buffer of [this], now owned by the temporary, is still there *)
  assert (Hkeep : ∀ l, blk (data_ va) = Some l → H1 !! l = H !! l).
  { intros l Hl. destruct Hheap as [(_ & _ & ->)|(l' & _ & Hl' & ->)]; [done|].
    rewrite lookup_insert_ne; [done|]. intros ->.
    destruct (vec_rep_inv _ _ _ Hra) as [(-> & _)|(l0 & cap & -> & _ & _ & _ & Hl0)];
      [done|]. simpl in Hl. injection Hl as ->. by rewrite Hl' in Hl0. }
  pose proof Hra as (Hsza & _).
  eapply (wp_vector_dtor tmp va sa); [solve_lookup|done| |].
  { destruct (vec_rep_inv _ _ _ Hra) as [(-> & ->)|(l0 & cap & -> & _ & _ & _ & Hl0)];
      [by left|right].
    eexists l0, _. split; [done|]. rewrite Hkeep by done. exact Hl0. }
  exists d'. fold vt. split; [|split; [|split]].
  - cbn [objs]. apply map_eq. intros k.
    rewrite ?lookup_insert, ?lookup_delete, ?lookup_insert. repeat case_decide; congruence.
  - cbn [heap]. eapply vec_rep_frame; [exact Hrt|]. intros l Hl.
    unfold drop_block. destruct (blk (data_ va)) as [la|] eqn:Hla; [|done].
    rewrite lookup_delete_ne; [done|]. intros Heq.
    unfold vt in Hl. cbn [data_] in Hl.
    destruct Hheap as [(_ & Hd & _)|(l' & Hd & Hl' & _)];
      rewrite Hd in Hl; simpl in Hl; [done|].
    destruct (vec_rep_inv _ _ _ Hra) as [(Hva & _)|(l0 & cap & Hva & _ & _ & _ & Hl0)];
      rewrite Hva in Hla; simpl in Hla; [done|].
    congruence.
  - cbn [heap]. intros l Hl Hsome. unfold drop_block.
    destruct (blk (data_ va)) as [la|] eqn:Hla.
    + rewrite lookup_delete_ne by congruence.
      destruct Hheap as [(_ & _ & ->)|(l' & _ & Hl' & ->)]; [done|].
      rewrite lookup_insert_ne; [done|]. intros ->. rewrite Hl' in Hsome. by destruct Hsome.
    + destruct Hheap as [(_ & _ & ->)|(l' & _ & Hl' & ->)]; [done|].
      rewrite lookup_insert_ne; [done|]. intros ->. rewrite Hl' in Hsome. by destruct Hsome.
  - unfold vt. cbn [data_].
    destruct Hheap as [(_ & Hd & _)|(l' & Hd & Hl' & _)]; rewrite Hd; [by right; left|].
    right; right. by exists l'.
Qed.

(** ** The element shuffles of [insert] and [erase], on sequences *)

Lemma length_swap_list (s : list T) i j : length (swap_list s i j) = length s.
Proof.
  unfold swap_list. destruct (s !! i); [|done]. destruct (s !! j); [|done].
  by rewrite !length_insert.
Qed.

Lemma length_bubble n : ∀ k (s : list T), length (bubble n k s) = length s.
Proof. induction n as [|n IH]; intros k s; simpl; [done|]. by rewrite IH, length_swap_list. Qed.

Lemma length_shift n : ∀ i cnt (s : list T), length (shift n i cnt s) = length s.
Proof. induction n as [|n IH]; intros i cnt s; simpl; [done|]. by rewrite IH, length_swap_list. Qed.

Lemma swap_list_far (a g r : list T) z y :
  swap_list (a ++ z :: g ++ y :: r) (length a) (length a + S (length g))
  = a ++ y :: g ++ z :: r.
Proof.
  unfold swap_list.
  rewrite (list_lookup_middle a (g ++ y :: r) z (length a)) by done.
  replace (a ++ z :: g ++ y :: r) with ((a ++ z :: g) ++ y :: r)
    by (by rewrite <- app_assoc).
  rewrite (list_lookup_middle (a ++ z :: g) r y) by (rewrite length_app; simpl; lia).
  rewrite <- app_assoc. simpl.
  rewrite <- (Nat.add_0_r (length a)) at 2. rewrite insert_app_r. simpl.
  rewrite insert_app_r. simpl. f_equal. f_equal.
  rewrite <- (Nat.add_0_r (length g)). by rewrite insert_app_r.
Qed.

Lemma swap_list_adjacent (a c : list T) y x :
  swap_list (a ++ y :: x :: c) (S (length a)) (length a) = a ++ x :: y :: c.
Proof.
  unfold swap_list.
  replace (a ++ y :: x :: c) with ((a ++ [y]) ++ x :: c) by (by rewrite <- app_assoc).
  rewrite (list_lookup_middle (a ++ [y]) c x) by (rewrite length_app; simpl; lia).
  rewrite <- app_assoc. simpl.
  rewrite (list_lookup_middle a (x :: c) y (length a)) by done.
  replace (S (length a)) with (length a + 1)%nat by lia.
  rewrite insert_app_r. simpl.
  rewrite <- (Nat.add_0_r (length a)) at 1. by rewrite insert_app_r.
Qed.

Lemma bubble_app (b : list T) :
  ∀ a c x, bubble (length b) (length a + length b) (a ++ b ++ x :: c) = a ++ x :: b ++ c.
Proof.
  induction b as [|y b IH] using rev_ind; intros a c x; [done|].
  rewrite length_app. simpl. rewrite Nat.add_1_r. simpl.
  replace (length a + S (length b) - 1)%nat with (length a + length b)%nat by lia.
  rewrite <- !app_assoc. simpl.
  replace (a ++ b ++ y :: x :: c) with ((a ++ b) ++ y :: x :: c) by (by rewrite <- app_assoc).
  replace (length a + S (length b))%nat with (S (length (a ++ b)))
    by (rewrite length_app; lia).
  replace (length a + length b)%nat with (length (a ++ b))
    by (rewrite length_app; lia).
  rewrite swap_list_adjacent, <- app_assoc, length_app. apply IH.
Qed.

(** One element appended and carried down to position [p]. *)
Lemma bubble_insert (s : list T) x (p : nat) :
  (p ≤ length s)%nat →
  bubble (length s - p) (length s) (s ++ [x]) = take p s ++ x :: drop p s.
Proof.
  intros Hp. rewrite <- (take_drop p s) at 1 2 3.
  rewrite length_app, length_take, length_drop, <- app_assoc.
  replace (p `min` length s + (length s - p) - p)%nat with (length s - p)%nat by lia.
  rewrite <- !(length_drop s p).
  replace (p `min` length s)%nat with (length (take p s)) by (rewrite length_take; lia).
  rewrite bubble_app. by rewrite app_nil_r.
Qed.

Lemma shift_app (n : nat) :
  ∀ (a g r : list T), g ≠ [] → (n ≤ length r)%nat →
    ∃ junk, length junk = length g ∧
      shift n (length a) (length g) (a ++ g ++ r) = a ++ take n r ++ junk ++ drop n r.
Proof.
  induction n as [|n IH]; intros a g r Hg Hn.
  - exists g. by rewrite take_0, drop_0.
  - destruct g as [|z g]; [done|]. destruct r as [|y r]; [simpl in Hn; lia|].
    cbn [shift]. simpl length.
    replace (a ++ (z :: g) ++ y :: r) with (a ++ z :: g ++ y :: r) by done.
    rewrite swap_list_far.
    destruct (IH (a ++ [y]) (g ++ [z]) r) as (junk & Hlen & Heq).
    { by destruct g. }
    { simpl in Hn. lia. }
    exists junk. split; [by rewrite Hlen, length_app; simpl; lia|].
    rewrite !length_app in Heq. simpl in Heq.
    replace (length a + 1)%nat with (S (length a)) in Heq by lia.
    replace (length g + 1)%nat with (S (length g)) in Heq by lia.
    repeat (rewrite <- app_assoc in Heq; simpl in Heq).
    rewrite Heq. done.
Qed.

(** The gap [first, last) closed, the removed elements left at the end. *)
Lemma shift_erase (s : list T) (f l : nat) :
  (f < l ≤ length s)%nat →
  ∃ junk, length junk = (l - f)%nat ∧
    shift (length s - l) f (l - f) s = take f s ++ drop l s ++ junk.
Proof.
  intros Hfl.
  destruct (shift_app (length s - l) (take f s) (take (l - f) (drop f s)) (drop l s))
    as (junk & Hlen & Heq).
  { intros Hnil. apply (f_equal length) in Hnil.
    rewrite length_take, length_drop in Hnil. simpl in Hnil. lia. }
  { rewrite length_drop. lia. }
  rewrite !length_take, !length_drop in *.
  replace (f `min` length s)%nat with f in Heq by lia.
  replace ((l - f) `min` (length s - f))%nat with (l - f)%nat in * by lia.
  exists junk. split; [done|].
  replace (take f s ++ take (l - f) (drop f s) ++ drop l s) with s in Heq.
  - rewrite Heq. rewrite (take_ge (drop l s)) by (rewrite length_drop; lia).
    rewrite (drop_ge (drop l s)) by (rewrite length_drop; lia). by rewrite app_nil_r.
  - rewrite <- (take_drop f s) at 1. f_equal.
    rewrite <- (take_drop (l - f) (drop f s)) at 1. f_equal.
    rewrite drop_drop. f_equal. lia.
Qed.

(** ** The loops of [insert] and [erase] *)

Lemma wp_read_at_filled l (s : list T) m i O (H : store) F (Q : T → world → Prop) E (U : Prop) :
  H !! l = Some (filled s m) → (length s ≤ m)%nat →
  (∀ x, 0 ≤ i → s !! Z.to_nat i = Some x → Q x (World O H F)) →
  (¬ (0 ≤ i < Z.of_nat (length s)) → U) →
  wp (read_at (Ptr (Some l) i)) (World O H F) Q E U.
Proof.
  intros Hl Hlen HQ HU. unfold wp, read_at, bind, peek; simpl. rewrite Hl.
  destruct (decide (0 ≤ i)) as [Hi|Hi]; [|apply HU; lia].
  destruct (s !! Z.to_nat i) as [x|] eqn:Hx.
  - rewrite (filled_lookup_lt _ _ _ x) by done. by apply HQ.
  - apply lookup_ge_None_1 in Hx.
    destruct (decide (Z.to_nat i < m)%nat).
    + rewrite filled_lookup_ge by lia. apply HU. lia.
    + rewrite filled_lookup_out by lia. apply HU. lia.
Qed.

Lemma wp_assign_at_filled l (s : list T) m i y x O (H : store) F
    (Q : unit → world → Prop) (E : exn → world → Prop) U :
  H !! l = Some (filled s m) → 0 ≤ i → s !! Z.to_nat i = Some y →
  (∀ F', Q tt (World O (<[l := filled (<[Z.to_nat i := x]> s) m]> H) F')) →
  (∀ F', E element_error (World O H F')) →
  wp (assign_at (Ptr (Some l) i) x) (World O H F) Q E U.
Proof.
  intros Hl Hi Hy HQ HE. unfold assign_at. apply wp_bind.
  eapply wp_peek; [done|done|by apply filled_lookup_lt|].
  apply wp_bind, wp_may_throw; [|done]. intros F'.
  pose proof (lookup_lt_Some _ _ _ Hy) as Hlt.
  eapply wp_poke; [done|done| |].
  - unfold filled. rewrite length_app, length_fmap. lia.
  - rewrite filled_insert by done. apply HQ.
Qed.

Lemma wp_swap_at l (s : list T) m i j O (H : store) F :
  H !! l = Some (filled s m) → (length s ≤ m)%nat →
  wp (swap_at (Ptr (Some l) i) (Ptr (Some l) j)) (World O H F)
     (λ _ w', (0 ≤ i < Z.of_nat (length s) ∧ 0 ≤ j < Z.of_nat (length s)) ∧
        objs w' = O ∧
        heap w' = <[l := filled (swap_list s (Z.to_nat i) (Z.to_nat j)) m]> H)
     (λ _ w', objs w' = O ∧
        ∃ s', length s' = length s ∧ heap w' = <[l := filled s' m]> H)
     (¬ (0 ≤ i < Z.of_nat (length s) ∧ 0 ≤ j < Z.of_nat (length s))).
Proof.
  intros Hl Hlen. unfold swap_at.
  assert (Hsame : ∀ F', (objs (World O H F') = O ∧
            ∃ s', length s' = length s ∧ heap (World O H F') = <[l := filled s' m]> H)).
  { intros F'. split; [done|]. exists s. split; [done|]. simpl. by rewrite insert_id. }
  apply wp_bind. eapply wp_read_at_filled; [done|done| |intros ? []; lia].
  intros x Hi Hx. apply wp_bind, wp_copy_T; [|done]. intros F1.
  apply wp_bind. eapply wp_read_at_filled; [done|done| |intros ? []; lia].
  intros y Hj Hy. apply wp_bind.
  pose proof (lookup_lt_Some _ _ _ Hx). pose proof (lookup_lt_Some _ _ _ Hy).
  eapply (wp_assign_at_filled _ _ _ _ x y); [done|done|done| |done].
  intros F2.
  assert (is_Some (<[Z.to_nat i := y]> s !! Z.to_nat j)) as [z Hz].
  { apply lookup_lt_is_Some. by rewrite length_insert. }
  eapply (wp_assign_at_filled _ _ _ _ z x); [by rewrite lookup_insert_eq|done|done|..].
  - intros F3. split; [lia|]. split; [done|]. cbn [heap].
    rewrite insert_insert_eq. unfold swap_list. by rewrite Hx, Hy.
  - intros F3. split; [done|]. exists (<[Z.to_nat i := y]> s).
    split; [by rewrite length_insert|done].
Qed.

Lemma swap_at_null i q (w : world) : swap_at (Ptr None i) q w = UB.
Proof. done. Qed.

Lemma wp_insert_loop fuel :
  ∀ l (s : list T) m k cur O (H : store) F,
    H !! l = Some (filled s m) → (length s ≤ m)%nat →
    wp (insert_loop fuel (Ptr (Some l) k) cur) (World O H F)
       (λ _ w', objs w' = O ∧
          ∃ p, cur = Ptr (Some l) p ∧ p ≤ k ∧ (p = k ∨ 0 ≤ p) ∧
            heap w' = <[l := filled (bubble (Z.to_nat (k - p)) (Z.to_nat k) s) m]> H)
       (λ _ w', objs w' = O ∧
          ∃ s', length s' = length s ∧ heap w' = <[l := filled s' m]> H)
       (∀ p, cur = Ptr (Some l) p →
          ¬ (0 ≤ p ≤ k ∧ k < Z.of_nat (length s) ∧ k - p ≤ Z.of_nat fuel)).
Proof.
  induction fuel as [|fuel IH]; intros l s m k cur O H F Hl Hlen.
  - cbn [insert_loop]. destruct (decide (Ptr (Some l) k = cur)) as [<-|Hne].
    + apply wp_ret. split; [done|]. exists k. split; [done|]. split; [lia|].
      split; [by left|]. rewrite Z.sub_diag. simpl. by rewrite insert_id.
    + apply wp_ub. intros p -> (? & ? & ?). apply Hne. f_equal. lia.
  - cbn [insert_loop]. destruct (decide (Ptr (Some l) k = cur)) as [<-|Hne].
    + apply wp_ret. split; [done|]. exists k. split; [done|]. split; [lia|].
      split; [by left|]. rewrite Z.sub_diag. simpl. by rewrite insert_id.
    + apply wp_bind. unfold ptr_add; cbn [blk off]. eapply wp_mono.
      * by apply (wp_swap_at l s m k (k + -1)).
      * intros _ [O1 H1 F1] (Hidx & HO & HH); simpl in HO, HH; subst O1 H1.
        eapply wp_mono.
        -- eapply (IH l (swap_list s (Z.to_nat k) (Z.to_nat (k + -1))) m (k + -1) cur).
           ++ by rewrite lookup_insert_eq.
           ++ by rewrite length_swap_list.
        -- intros _ w' (HO & p & Hcur & Hp & Hp0 & HH). split; [done|].
           exists p. split; [done|]. split; [lia|]. split; [right; lia|].
           rewrite HH, insert_insert_eq.
           replace (Z.to_nat (k - p)) with (S (Z.to_nat (k + -1 - p))) by lia.
           cbn [bubble].
           by replace (Z.to_nat k - 1)%nat with (Z.to_nat (k + -1)) by lia.
        -- intros _ w' (HO & s' & Hlen' & HH). split; [done|].
           exists s'. rewrite length_swap_list in Hlen'. split; [done|].
           by rewrite HH, insert_insert_eq.
        -- intros HU p Hcur (? & ? & ?). apply (HU p Hcur).
           rewrite length_swap_list.
           assert (p ≠ k) by (intros ->; by apply Hne).
           lia.
      * done.
      * intros HU p Hcur (? & ? & ?). apply HU.
        assert (p ≠ k) by (intros ->; by apply Hne).
        lia.
Qed.

Lemma wp_end this v O (H : store) F (Q : ptr → world → Prop) E U :
  O !! this = Some v → Q (ptr_add (data_ v) (size_ v)) (World O H F) →
  wp (end_ this) (World O H F) Q E U.
Proof. intros Hv HQ. apply wp_bind, (wp_get _ _ _ _ _ _ _ _ Hv). by apply wp_ret. Qed.

Lemma wp_begin this v O (H : store) F (Q : ptr → world → Prop) E U :
  O !! this = Some v → Q (data_ v) (World O H F) →
  wp (begin_ this) (World O H F) Q E U.
Proof. intros Hv HQ. apply wp_bind, (wp_get _ _ _ _ _ _ _ _ Hv). by apply wp_ret. Qed.

Lemma wp_erase_loop fuel :
  ∀ this v l (s : list T) m k cnt O (H : store) F,
    O !! this = Some v → data_ v = Ptr (Some l) 0 → size_ v = Z.of_nat (length s) →
    H !! l = Some (filled s m) → (length s ≤ m)%nat → 0 < cnt →
    wp (erase_loop fuel this (Ptr (Some l) k) cnt) (World O H F)
       (λ _ w', objs w' = O ∧ k ≤ Z.of_nat (length s) - cnt ∧
          (k = Z.of_nat (length s) - cnt ∨ 0 ≤ k) ∧
          heap w' = <[l := filled (shift (Z.to_nat (Z.of_nat (length s) - cnt - k))
                                         (Z.to_nat k) (Z.to_nat cnt) s) m]> H)
       (λ _ w', objs w' = O ∧
          ∃ s', length s' = length s ∧ heap w' = <[l := filled s' m]> H)
       (¬ (0 ≤ k ≤ Z.of_nat (length s) - cnt ∧
           Z.of_nat (length s) - cnt - k ≤ Z.of_nat fuel)).
Proof.
  induction fuel as [|fuel IH]; intros this v l s m k cnt O H F Hv Hd Hsz Hl Hlen Hcnt;
    cbn [erase_loop]; apply wp_bind; eapply wp_end; [done| |done|];
    rewrite Hd, Hsz; unfold ptr_add; cbn [blk off]; rewrite Z.add_0_l;
    (destruct (decide (Ptr (Some l) k = Ptr (Some l) (Z.of_nat (length s) + - cnt)))
       as [[= Hk]|Hne];
     [apply wp_ret; split; [done|]; split; [lia|]; split; [left; lia|];
      replace (Z.of_nat (length s) - cnt - k) with 0 by lia; simpl; by rewrite insert_id|]).
  - apply wp_ub. intros (? & ?). apply Hne. f_equal. lia.
  - apply wp_bind. eapply wp_mono.
    + by apply (wp_swap_at l s m k (k + cnt)).
    + intros _ [O1 H1 F1] (Hidx & HO & HH); simpl in HO, HH; subst O1 H1.
      eapply wp_mono.
      * eapply (IH this v l (swap_list s (Z.to_nat k) (Z.to_nat (k + cnt))) m (k + 1) cnt);
          [done|done|by rewrite length_swap_list|by rewrite lookup_insert_eq
          |by rewrite length_swap_list|done].
      * intros _ w' (HO & Hk & Hk0 & HH). rewrite length_swap_list in *.
        split; [done|]. split; [lia|]. split; [right; lia|].
        rewrite HH, insert_insert_eq.
        replace (Z.to_nat (Z.of_nat (length s) - cnt - k))
          with (S (Z.to_nat (Z.of_nat (length s) - cnt - (k + 1)))) by lia.
        cbn [shift].
        replace (Z.to_nat (k + cnt)) with (Z.to_nat k + Z.to_nat cnt)%nat by lia.
        by replace (Z.to_nat (k + 1)) with (S (Z.to_nat k)) by lia.
      * intros _ w' (HO & s' & Hlen' & HH). split; [done|].
        exists s'. rewrite length_swap_list in Hlen'. split; [done|].
        by rewrite HH, insert_insert_eq.
      * intros HU (? & ?). apply HU. rewrite length_swap_list.
        assert (k ≠ Z.of_nat (length s) - cnt) by (intros ->; apply Hne; f_equal; lia).
        lia.
    + done.
    + intros HU (? & ?). apply HU.
      assert (k ≠ Z.of_nat (length s) - cnt) by (intros ->; apply Hne; f_equal; lia).
      lia.
Qed.

Lemma evolves_trans this v O (H : store) w1 v1 (s1 : list T) w2 v2 (s2 : list T) :
  evolves this v O H w1 v1 s1 →
  evolves this v1 (objs w1) (heap w1) w2 v2 s2 →
  evolves this v O H w2 v2 s2.
Proof.
  intros (HO1 & Hr1 & Hf1 & Hs1) (HO2 & Hr2 & Hf2 & Hs2).
  split; [by rewrite HO2, HO1, insert_insert_eq|]. split; [done|]. split.
  - intros l Hne Hl. rewrite <- (Hf1 l) by done. apply Hf2; [|by rewrite Hf1].
    destruct Hs1 as [Heq|[Heq|(l' & Heq & Hn)]]; rewrite Heq; [done|done|].
    intros [= ->]. rewrite Hn in Hl. by destruct Hl.
  - unfold fresh_or_same in *. destruct Hs2 as [Heq|[Heq|(l' & Heq & Hn)]].
    + by rewrite Heq.
    + by right; left.
    + destruct (decide (blk (data_ v) = Some l')) as [Hd|Hd]; [left; congruence|].
      right; right. exists l'. split; [done|].
      destruct (H !! l') as [b|] eqn:Hb; [|done].
      rewrite Hf1 in Hn; [congruence|done|by rewrite Hb].
Qed.

Lemma wp_pop_loop (n : nat) :
  ∀ this v (s : list T) O (H : store) F,
    O !! this = Some v → vec_rep H v s →
    wp (pop_loop n this) (World O H F)
       (λ _ w', ∃ s0 junk, s = s0 ++ junk ∧ length junk = n ∧
          evolves this v O H w'
            (Vector (data_ v) (size_ v - Z.of_nat n) (capacity_ v)) s0)
       (λ _ _, False)
       (length s < n)%nat.
Proof.
  induction n as [|n IH]; intros this v s O H F Hv Hrep.
  - apply wp_ret. exists s, []. rewrite app_nil_r. split; [done|]. split; [done|].
    rewrite Z.sub_0_r. destruct v. by apply evolves_refl.
  - cbn [pop_loop]. apply wp_bind. eapply wp_mono; [by apply (wp_pop_back this v s)|..].
    + intros _ [O1 H1 F1] (s0 & x & -> & Hev).
      pose proof Hev as (HO & Hr1 & _). cbn [objs heap] in HO, Hr1.
      eapply wp_mono; [eapply (IH this _ s0); [by rewrite HO, lookup_insert_eq|exact Hr1]|..].
      * intros _ w' (s1 & junk & -> & Hj & Hev2). exists s1, (junk ++ [x]).
        split; [by rewrite app_assoc|]. split; [rewrite length_app; simpl; lia|].
        cbn [data_ size_ capacity_] in Hev2.
        replace (size_ v - Z.of_nat (S n)) with (size_ v - 1 - Z.of_nat n) by lia.
        eapply evolves_trans; [exact Hev|exact Hev2].
      * done.
      * rewrite length_app. simpl. lia.
    + done.
    + intros ->. simpl. lia.
Qed.

(** ** [insert] and [erase] *)

Lemma ptr_add_eta (d p : ptr) :
  blk p = blk d → p = ptr_add d (off p - off d).
Proof. destruct p, d; unfold ptr_add; simpl. intros ->. f_equal. lia. Qed.

Lemma evolves_faults this v O (H : store) O' H' F' F'' v' (s' : list T) :
  evolves this v O H (World O' H' F') v' s' → evolves this v O H (World O' H' F'') v' s'.
Proof. done. Qed.

Lemma wp_insert this v (s : list T) pos x O (H : store) F :
  O !! this = Some v → vec_rep H v s →
  wp (insert this pos x) (World O H F)
     (λ r w', ∃ v' (p : nat),
        pos = ptr_add (data_ v) (Z.of_nat p) ∧ (p ≤ length s)%nat ∧
        r = ptr_add (data_ v') (Z.of_nat p) ∧
        evolves this v O H w' v' (take p s ++ x :: drop p s) ∧
        capacity_ v' = (if decide (size_ v = capacity_ v) then grown (capacity_ v)
                        else capacity_ v))
     (λ _ w', ∃ v' s', evolves this v O H w' v' s' ∧
        (length s ≤ length s' ≤ S (length s))%nat)
     (¬ (has_room v ∧ ∃ p, pos = ptr_add (data_ v) p ∧ 0 ≤ p ≤ Z.of_nat (length s))).
Proof.
  intros Hv Hrep. unfold insert. pose proof Hrep as (_ & _ & _ & Hoff & _).
  apply wp_bind. eapply wp_begin; [done|]. apply wp_bind. unfold ptr_diff.
  destruct (decide (blk pos = blk (data_ v))) as [Hblk|Hblk]; cycle 1.
  { apply wp_ub. intros (_ & p & -> & _). by apply Hblk. }
  apply wp_ret. rewrite Hoff, Z.sub_0_r.
  apply wp_bind. eapply wp_mono; [by apply (wp_push_back this v s x)|..].
  - intros _ [O1 H1 F1] (v1 & Hev1 & Hcap1 & _).
    pose proof Hev1 as (HO1 & Hr1 & _). cbn [objs heap] in HO1, Hr1.
    assert (Hv1 : O1 !! this = Some v1) by (by rewrite HO1, lookup_insert_eq).
    apply wp_bind. eapply wp_begin; [done|]. apply wp_bind. eapply wp_end; [done|].
    destruct (vec_rep_inv _ _ _ Hr1) as [(_ & Hnil)|(l1 & cap1 & -> & Hc1 & Hle1 & Hlen1 & Hl1)].
    { by destruct s. }
    cbn [data_ size_ capacity_] in *. unfold ptr_add; cbn [blk off].
    rewrite !Z.add_0_l. rewrite length_app in *. cbn [length] in *.
    replace (Z.of_nat (length s + 1) + -1) with (Z.of_nat (length s)) by lia.
    rewrite Nat2Z.id. apply wp_bind. eapply wp_mono.
    + eapply (wp_insert_loop (length s) l1 (s ++ [x]) _ (Z.of_nat (length s))); [done|].
      rewrite length_app. simpl. lia.
    + intros _ [O2 H2 F2] (HO2 & p & [= Hp] & Hple & Hp0 & HH2).
      cbn [objs heap] in HO2, HH2. subst O2 H2.
      apply wp_ret. exists (Vector (Ptr (Some l1) 0) (Z.of_nat (length s + 1)) cap1), (Z.to_nat p).
      assert (0 ≤ p) by lia. rewrite Z2Nat.id by done.
      split.
      { rewrite <- Hp. rewrite (ptr_add_eta (data_ v) pos) at 1 by done.
        unfold ptr_add. rewrite Hoff. f_equal. lia. }
      split; [lia|]. split; [unfold ptr_add; simpl; by rewrite Hp|]. split; [|done].
      rewrite Nat2Z.id.
      replace (Z.to_nat (Z.of_nat (length s) - p)) with (length s - Z.to_nat p)%nat by lia.
      rewrite bubble_insert by lia. rewrite HO1.
      eapply (evolves_block _ _ _ _ (World O1 H1 F1)); [exact Hev1|done|done|].
      cbn [heap].
      replace (Z.of_nat (length s + 1))
        with (Z.of_nat (length (take (Z.to_nat p) s ++ x :: drop (Z.to_nat p) s))).
      2:{ rewrite length_app, length_take. simpl. rewrite length_drop. lia. }
      apply vec_rep_block; [done|..|by rewrite lookup_insert_eq];
        rewrite length_app, length_take; simpl; rewrite length_drop; lia.
    + intros _ [O2 H2 F2] (HO2 & s' & Hlen' & HH2). cbn [objs heap] in HO2, HH2. subst O2 H2.
      exists (Vector (Ptr (Some l1) 0) (Z.of_nat (length s + 1)) cap1), s'.
      rewrite length_app in Hlen'. simpl in Hlen'. split; [|lia]. rewrite HO1.
      eapply (evolves_block _ _ _ _ (World O1 H1 F1)); [exact Hev1|done|done|].
      cbn [heap]. replace (Z.of_nat (length s + 1)) with (Z.of_nat (length s')) by lia.
      apply vec_rep_block; [done|lia|lia|by rewrite lookup_insert_eq].
    + intros HU (_ & p & -> & Hp). apply (HU p).
      * unfold ptr_add; simpl. f_equal. lia.
      * rewrite length_app. simpl. lia.
  - intros e [O1 H1 F1] [(HO & HH)|(_ & _ & d' & Hev)].
    + cbn [objs heap] in HO, HH. subst O1 H1. exists v, s. split; [by apply evolves_refl|lia].
    + eexists _, s. split; [exact Hev|lia].
  - intros HU (Hroom & _). by apply HU.
Qed.

Lemma wp_block_slots p O (H : store) F (Q : nat → world → Prop) E U :
  (∀ n, (∀ l buf, blk p = Some l → H !! l = Some buf → n = length buf) →
        Q n (World O H F)) →
  wp (block_slots p) (World O H F) Q E U.
Proof.
  intros HQ. unfold wp, block_slots; simpl. apply HQ.
  intros l buf -> ->. done.
Qed.

Lemma wp_erase this v (s : list T) first last O (H : store) F :
  O !! this = Some v → vec_rep H v s →
  wp (erase this first last) (World O H F)
     (λ r w', ∃ f l, first = ptr_add (data_ v) f ∧ last = ptr_add (data_ v) l ∧
        ((l - f ≤ 0 ∧ w' = World O H F ∧ r = ptr_add (data_ v) l) ∨
         (0 ≤ f < l ∧ l ≤ Z.of_nat (length s) ∧ r = ptr_add (data_ v) f ∧
          evolves this v O H w' (Vector (data_ v) (size_ v - (l - f)) (capacity_ v))
            (take (Z.to_nat f) s ++ drop (Z.to_nat l) s))))
     (λ _ w', ∃ s', length s' = length s ∧ evolves this v O H w' v s')
     (¬ ∃ f l, first = ptr_add (data_ v) f ∧ last = ptr_add (data_ v) l ∧
          (l - f ≤ 0 ∨ 0 ≤ f ∧ l ≤ Z.of_nat (length s))).
Proof.
  intros Hv Hrep. unfold erase. pose proof Hrep as (_ & _ & _ & Hoff & _).
  apply wp_bind. eapply wp_begin; [done|]. apply wp_bind. unfold ptr_diff.
  destruct (decide (blk first = blk (data_ v))) as [Hbf|Hbf]; cycle 1.
  { apply wp_ub. intros (f & l & -> & _). by apply Hbf. }
  apply wp_ret. apply wp_bind. eapply wp_begin; [done|]. apply wp_bind.
  destruct (decide (blk last = blk (data_ v))) as [Hbl|Hbl]; cycle 1.
  { apply wp_ub. intros (f & l & _ & -> & _). by apply Hbl. }
  apply wp_ret. rewrite Hoff, !Z.sub_0_r.
  assert (Hfirst : first = ptr_add (data_ v) (off first)).
  { rewrite (ptr_add_eta (data_ v) first) at 1 by done. by rewrite Hoff, Z.sub_0_r. }
  assert (Hlast : last = ptr_add (data_ v) (off last)).
  { rewrite (ptr_add_eta (data_ v) last) at 1 by done. by rewrite Hoff, Z.sub_0_r. }
  assert (Hinv : ∀ f l, first = ptr_add (data_ v) f → last = ptr_add (data_ v) l →
            f = off first ∧ l = off last).
  { intros f l -> ->. simpl. lia. }
  set (f := off first) in *. set (l := off last) in *.
  destruct (decide (l - f ≤ 0)) as [Hcnt|Hcnt].
  { apply wp_bind. eapply wp_begin; [done|]. apply wp_ret.
    exists f, l. split; [done|]. split; [done|]. by left. }
  apply wp_bind. eapply wp_begin; [done|]. apply wp_bind, wp_block_slots. intros n Hn.
  apply wp_bind.
  destruct (vec_rep_inv _ _ _ Hrep) as [(-> & ->)|(l0 & cap & -> & Hc & Hle & Hlen & Hl0)];
    cbn [data_ size_ capacity_] in *.
  - (* no buffer: the loop or the first [pop_back] leaves the program *)
    assert (HU : ¬ ∃ f0 l1, first = ptr_add nullptr f0 ∧ last = ptr_add nullptr l1 ∧
                   (l1 - f0 ≤ 0 ∨ 0 ≤ f0 ∧ l1 ≤ Z.of_nat (length (@nil T)))).
    { intros (f0 & l1 & Hf0 & Hl1 & Hrange). destruct (Hinv _ _ Hf0 Hl1) as [-> ->].
      simpl in Hrange. lia. }
    cbn [erase_loop]. apply wp_bind. eapply wp_end; [done|]. cbn [data_ size_].
    unfold ptr_add; cbn [blk off nullptr].
    destruct (decide _) as [_|_].
    + apply wp_ret. eapply wp_bind, wp_mono; [by eapply (wp_pop_loop _ this _ [])| |done|].
      * intros _ w' (s0 & junk & Hs & Hj & _). destruct s0, junk; try done. simpl in Hj. lia.
      * done.
    + unfold wp at 1, bind at 1. by rewrite swap_at_null.
  - unfold ptr_add; cbn [blk off]. rewrite Z.add_0_l.
    assert (HU : ∀ fuel : nat, (length s ≤ fuel)%nat →
              ¬ (0 ≤ f ≤ Z.of_nat (length s) - (l - f) ∧
                 Z.of_nat (length s) - (l - f) - f ≤ Z.of_nat fuel) →
              ¬ ∃ f0 l1, first = ptr_add (Ptr (Some l0) 0) f0 ∧
                   last = ptr_add (Ptr (Some l0) 0) l1 ∧
                   (l1 - f0 ≤ 0 ∨ 0 ≤ f0 ∧ l1 ≤ Z.of_nat (length s))).
    { intros fuel Hfuel Hno (f0 & l1 & Hf0 & Hl1 & Hrange).
      destruct (Hinv _ _ Hf0 Hl1) as [-> ->]. apply Hno. lia. }
    rewrite (Hn l0 _ eq_refl Hl0), filled_length by done.
    eapply wp_mono.
    + eapply (wp_erase_loop _ this _ l0 s (alloc_slots cap) f (l - f)); [done..|lia].
    + intros _ [O1 H1 F1] (HO1 & Hk & Hk0 & HH1). cbn [objs heap] in HO1, HH1. subst O1 H1.
      set (s1 := shift _ _ _ s). assert (Hlen1 : length s1 = length s) by apply length_shift.
      assert (Hev1 : evolves this (Vector (Ptr (Some l0) 0) (Z.of_nat (length s)) cap) O H
                (World O (<[l0 := filled s1 (alloc_slots cap)]> H) F1)
                (Vector (Ptr (Some l0) 0) (Z.of_nat (length s)) cap) s1).
      { rewrite <- (insert_id O this _ Hv) at 2.
        eapply (evolves_block _ _ _ _ (World O H F)); [by apply evolves_refl|done|done|].
        cbn [heap]. rewrite <- Hlen1.
        apply vec_rep_block; [done|lia|lia|by rewrite lookup_insert_eq]. }
      pose proof Hev1 as (_ & Hr1 & _). cbn [heap] in Hr1.
      apply wp_bind. eapply wp_mono;
        [eapply (wp_pop_loop _ this _ s1); [exact Hv|exact Hr1]|..].
      * intros _ [O2 H2 F2] (s0 & junk & Hs1 & Hj & Hev2).
        cbn [data_ size_ capacity_] in Hev2.
        assert (Hcnt' : (Z.to_nat (l - f) ≤ length s)%nat).
        { rewrite <- Hlen1, Hs1, length_app. lia. }
        destruct (shift_erase s (Z.to_nat f) (Z.to_nat l) ltac:(lia)) as (junk' & Hj' & Hsh).
        assert (s0 = take (Z.to_nat f) s ++ drop (Z.to_nat l) s) as Hs0.
        { unfold s1 in Hs1.
          replace (Z.to_nat (Z.of_nat (length s) - (l - f) - f))
            with (length s - Z.to_nat l)%nat in Hs1 by lia.
          replace (Z.to_nat (l - f)) with (Z.to_nat l - Z.to_nat f)%nat in Hs1 by lia.
          rewrite Hsh, app_assoc in Hs1.
          apply app_inj_2 in Hs1; [by destruct Hs1|]. lia. }
        pose proof (evolves_trans _ _ _ _ _ _ _ _ _ _ Hev1 Hev2) as Hev.
        pose proof Hev as (HO2 & _). cbn [objs] in HO2.
        apply wp_bind. eapply wp_begin; [by rewrite HO2, lookup_insert_eq|].
        apply wp_ret. exists f, l. split; [done|]. split; [done|]. right.
        split; [lia|]. split; [lia|]. split; [done|].
        rewrite <- Hs0. replace (Z.of_nat (length s) - (l - f))
          with (Z.of_nat (length s) - Z.of_nat (Z.to_nat (l - f))) by lia.
        exact Hev.
      * done.
      * intros Hlt. apply (HU (S (alloc_slots cap))); [lia|]. lia.
    + intros _ [O1 H1 F1] (HO1 & s' & Hlen' & HH1). cbn [objs heap] in HO1, HH1. subst O1 H1.
      exists s'. split; [done|].
      rewrite <- (insert_id O this _ Hv) at 2.
      eapply (evolves_block _ _ _ _ (World O H F)); [by apply evolves_refl|done|done|].
      cbn [heap]. rewrite <- Hlen'.
      apply vec_rep_block; [done|lia|lia|by rewrite lookup_insert_eq].
    + apply HU. lia.
Qed.

(** ** Well-formed worlds *)

Lemma all_some_fmap (s : list T) : all_some (Some <$> s) = Some s.
Proof. induction s as [|x s IH]; [done|]. rewrite fmap_cons. cbn [all_some]. by rewrite IH. Qed.

Lemma Forall_is_Some_fmap (l : list (option T)) :
  Forall is_Some l → ∃ s, l = Some <$> s.
Proof.
  induction 1 as [|o l [x ->] _ [s ->]]; [by exists []|]. by exists (x :: s).
Qed.

Lemma Forall_None_replicate (l : list (option T)) :
  Forall (λ o, o = None) l → l = replicate (length l) None.
Proof. induction 1 as [|o l -> _ IH]; simpl; [done|]. by rewrite <- IH. Qed.

Lemma inited_filled n (buf : list (option T)) :
  inited n buf → ∃ s, length s = n ∧ buf = filled s (length buf).
Proof.
  intros (Hn & Hs & Hr).
  destruct (Forall_is_Some_fmap _ Hs) as [s Hs'].
  apply Forall_None_replicate in Hr. rewrite length_drop in Hr.
  assert (length s = n) as Hlen.
  { apply (f_equal length) in Hs'. rewrite length_take, length_fmap in Hs'. lia. }
  exists s. split; [done|]. unfold filled.
  rewrite <- (take_drop n buf) at 1. by rewrite Hs', Hr, Hlen.
Qed.

Lemma filled_inited (s : list T) m : (length s ≤ m)%nat → inited (length s) (filled s m).
Proof.
  intros Hm. unfold inited, filled. split; [|split].
  - rewrite length_app, length_fmap, length_replicate. lia.
  - rewrite take_app_length' by (by rewrite length_fmap).
    apply Forall_fmap, Forall_true. by eexists.
  - rewrite drop_app_length' by (by rewrite length_fmap).
    by apply Forall_replicate.
Qed.

Lemma vec_ok_rep (w : world) v : vec_ok w v → ∃ s, vec_rep (heap w) v s.
Proof.
  intros (H0 & Hle & Hcap & Hoff & Hb). unfold vec_rep.
  destruct (blk (data_ v)) as [l|] eqn:Hl.
  - destruct Hb as (Hc & Hb). destruct (heap w !! l) as [buf|]; [|done].
    destruct Hb as (Hlen & Hin). pose proof Hin as (Hn & _).
    destruct (inited_filled _ _ Hin) as (s & Hs & Hbuf).
    exists s. rewrite Hs, Z2Nat.id by done. rewrite <- Hlen.
    split_and!; try done. by rewrite <- Hbuf.
  - exists []. simpl. split_and!; try done; lia.
Qed.

Lemma vec_rep_ok (w : world) v s : vec_rep (heap w) v s → vec_ok w v.
Proof.
  intros (Hsz & Hle & Hcap & Hoff & Hb). unfold vec_ok.
  split_and!; [lia|done|done|done|].
  destruct (blk (data_ v)) as [l|]; [|done].
  destruct Hb as (Hc & Hlen & ->). split; [done|].
  rewrite filled_length by done. split; [done|].
  rewrite Hsz, Nat2Z.id. by apply filled_inited.
Qed.

Lemma elems_rep (w : world) this v s :
  objs w !! this = Some v → vec_rep (heap w) v s → elems w this = Some s.
Proof.
  intros Hv Hrep. unfold elems. rewrite Hv.
  destruct (vec_rep_inv _ _ _ Hrep) as [(-> & ->)|(l & cap & -> & Hc & Hle & Hlen & Hl)];
    simpl; [done|].
  rewrite Hl, Nat2Z.id, filled_length by done.
  rewrite decide_True by lia.
  unfold filled. rewrite take_app_length' by (by rewrite length_fmap).
  apply all_some_fmap.
Qed.

Lemma elems_inv (w : world) this s :
  world_ok w → elems w this = Some s →
  ∃ v, objs w !! this = Some v ∧ vec_rep (heap w) v s.
Proof.
  intros [Hok _] He. unfold elems in He.
  destruct (objs w !! this) as [v|] eqn:Hv; [|done].
  destruct (vec_ok_rep w v (Hok _ _ Hv)) as [s' Hrep].
  pose proof (elems_rep w this v s' Hv Hrep) as He'.
  unfold elems in He'. rewrite Hv in He'. rewrite He in He'.
  injection He' as ->. eauto.
Qed.

Lemma rep_I2 (H : store) v s : vec_rep H v s → I2 v.
Proof.
  intros Hrep.
  destruct (vec_rep_inv _ _ _ Hrep) as [(-> & ->)|(l & cap & -> & Hc & Hle & _)];
    unfold I2; simpl; [done|]. split; [done|lia].
Qed.

(** The objects of a well-formed world satisfy invariant I2. *)
Lemma world_ok_I2 (w : world) : world_ok w → map_Forall (λ _ v, I2 v) (objs w).
Proof.
  intros [Hok _] o v Hv. destruct (vec_ok_rep w v (Hok _ _ Hv)) as [s Hrep].
  by eapply rep_I2.
Qed.

(** Installing members [v'] for [this], all other objects and their blocks
    untouched, keeps the world well formed. *)
Lemma world_ok_update (w w' : world) this v' s' :
  world_ok w →
  objs w' = <[this := v']> (objs w) →
  vec_rep (heap w') v' s' →
  (∀ o vo l, o ≠ this → objs w !! o = Some vo → blk (data_ vo) = Some l →
     heap w' !! l = heap w !! l ∧ blk (data_ v') ≠ Some l) →
  world_ok w' ∧ ∀ o, o ≠ this → view w' o = view w o.
Proof.
  intros [Hok Hsep] HO Hrep Hothers. split; [split|].
  - rewrite HO. intros o vo Hvo. apply lookup_insert_Some in Hvo as [[<- <-]|[Hne Hvo]].
    + by eapply vec_rep_ok.
    + destruct (vec_ok_rep w vo (Hok _ _ Hvo)) as [so Hro].
      eapply vec_rep_ok, vec_rep_frame; [exact Hro|].
      intros l Hl. by apply (Hothers o vo l).
  - rewrite HO. intros o1 v1 Hv1 o2 v2 Hv2. unfold separate.
    destruct (decide (o1 = o2)) as [|Hne]; [by left|right].
    destruct (blk (data_ v1)) as [l1|] eqn:Hl1; [right|by left].
    apply lookup_insert_Some in Hv1 as [[<- <-]|[Hne1 Hv1]];
      apply lookup_insert_Some in Hv2 as [[<- <-]|[Hne2 Hv2]]; try done.
    + intros Heq. symmetry in Heq.
      destruct (Hothers o2 v2 l1 (not_eq_sym Hne2) Hv2 Heq) as [_ Hx].
      by apply Hx.
    + intros Heq. destruct (Hothers o1 v1 l1 (not_eq_sym Hne1) Hv1 Hl1) as [_ Hx].
      by apply Hx.
    + destruct (Hsep o1 v1 Hv1 o2 v2 Hv2) as [?|[Hx|Hx]]; [done|congruence|].
      by rewrite <- Hl1.
  - intros o Hne. unfold view. rewrite HO, lookup_insert_ne by done.
    destruct (objs w !! o) as [vo|] eqn:Hvo; [|done]. f_equal. f_equal.
    destruct (blk (data_ vo)) as [l|] eqn:Hl; [|done].
    by apply (Hothers o vo l).
Qed.

Lemma evolves_world_ok (w w' : world) this v v' s' :
  world_ok w → objs w !! this = Some v →
  evolves this v (objs w) (heap w) w' v' s' →
  world_ok w' ∧ ∀ o, o ≠ this → view w' o = view w o.
Proof.
  intros Hok Hv (HO & Hrep & Hfr & Hfs). eapply world_ok_update; [done..|].
  intros o vo l Hne Hvo Hl. destruct Hok as [Hok Hsep].
  assert (Hdiff : blk (data_ v) ≠ Some l).
  { destruct (Hsep o vo Hvo this v Hv) as [?|[Hx|Hx]]; congruence. }
  assert (Hin : is_Some (heap w !! l)).
  { pose proof (Hok _ _ Hvo) as (_ & _ & _ & _ & Hb). rewrite Hl in Hb.
    destruct Hb as [_ Hb]. by destruct (heap w !! l). }
  split; [by apply Hfr|].
  destruct Hfs as [Heq|[Heq|(l' & Heq & Hn)]]; rewrite Heq; [done|done|].
  intros [= ->]. rewrite Hn in Hin. by destruct Hin.
Qed.

Lemma world_ok_same (w w' : world) :
  world_ok w → objs w' = objs w → heap w' = heap w →
  world_ok w' ∧ ∀ o, view w' o = view w o.
Proof.
  intros Hok HO HH. unfold world_ok, view, vec_ok in *. rewrite HO, HH. done.
Qed.

Lemma elems_view (w w' : world) o : view w' o = view w o → elems w' o = elems w o.
Proof.
  unfold view, elems. destruct (objs w' !! o) as [v'|], (objs w !! o) as [v|]; try done.
  intros [= -> Hb]. destruct (blk (data_ v)); [|done]. by rewrite Hb.
Qed.

Lemma members_view (w w' : world) o : view w' o = view w o → objs w' !! o = objs w !! o.
Proof.
  unfold view. destruct (objs w' !! o) as [v'|], (objs w !! o) as [v|]; try done.
  by intros [= -> _].
Qed.

(** ** Every call keeps the world well formed and touches only its objects *)

Lemma wp_store_at this v (s : list T) i x O (H : store) F :
  O !! this = Some v → vec_rep H v s →
  wp (store_at this i x) (World O H F)
     (λ _ w', 0 ≤ i < Z.of_nat (length s) ∧
        evolves this v O H w' v (<[Z.to_nat i := x]> s))
     (λ _ w', objs w' = O ∧ heap w' = H)
     (¬ 0 ≤ i < Z.of_nat (length s)).
Proof.
  intros Hv Hrep. unfold store_at, index.
  apply wp_bind, wp_bind, (wp_get _ _ _ _ _ _ _ _ Hv), wp_ret.
  pose proof (evolves_refl _ _ _ _ _ F Hv Hrep) as Hev.
  destruct (vec_rep_inv _ _ _ Hrep) as [(-> & ->)|(l & cap & -> & Hc & Hle & Hlen & Hl)];
    cbn [data_]; unfold ptr_add; cbn [blk off nullptr].
  { unfold wp; simpl. lia. }
  rewrite Z.add_0_l.
  destruct (decide (0 ≤ i < Z.of_nat (length s))) as [Hi|Hi].
  - destruct (lookup_lt_is_Some_2 s (Z.to_nat i) ltac:(lia)) as [y Hy].
    eapply (wp_assign_at_filled _ _ _ _ y x); [done|lia|done|..].
    + intros F'. split; [done|].
      rewrite <- (insert_id O this _ Hv) at 2.
      eapply (evolves_block _ _ _ _ (World O H F)); [done|done|done|].
      cbn [heap]. rewrite <- (length_insert s (Z.to_nat i) x).
      apply vec_rep_block; rewrite ?length_insert; [done|lia|lia|by rewrite lookup_insert_eq].
    + done.
  - unfold wp, assign_at, bind, peek; simpl. rewrite Hl.
    destruct (decide (0 ≤ i)); [|done].
    destruct (decide (Z.to_nat i < alloc_slots cap)%nat).
    + by rewrite filled_lookup_ge by lia.
    + by rewrite filled_lookup_out by lia.
Qed.

Lemma wp_ends {A} (m : M A) (w w' : world) (Q : A → world → Prop) E :
  wp m w Q E True → ends_in (m w) w' → (∃ a, Q a w') ∨ (∃ e, E e w').
Proof.
  unfold wp, ends_in. destruct (m w) as [a w1|e w1|]; [| |done].
  - intros HQ <-. left. eauto.
  - intros HE <-. right. eauto.
Qed.

Lemma ends_in_forget {A} (m : M A) (w w' : world) :
  ends_in ((let* _ := m in ret tt) w) w' → ends_in (m w) w'.
Proof. unfold bind. by destruct (m w). Qed.

Lemma wp_weaken_ub {A} (m : M A) (w : world) (Q : A → world → Prop) E U :
  wp m w Q E U → wp m w Q E True.
Proof. intros. eapply wp_mono; eauto. Qed.

Lemma kept_evolves this v O (H : store) F w' v' (s' : list T) :
  world_ok (World O H F) → O !! this = Some v →
  evolves this v O H w' v' s' → kept this (World O H F) w'.
Proof. intros. by eapply evolves_world_ok. Qed.

Lemma kept_same this O (H : store) F (w' : world) :
  world_ok (World O H F) → objs w' = O ∧ heap w' = H → kept this (World O H F) w'.
Proof.
  intros Hok [HO HH]. destruct (world_ok_same (World O H F) w' Hok HO HH) as [? Hv].
  split; [done|]. intros o _. apply Hv.
Qed.

(** The member functions that work on one object. *)
Lemma unary_safe (c : call) (w w' : world) :
  match c with
  | PushBack _ _ | PopBack _ | Reserve _ _ | ShrinkToFit _ | Clear _
  | Insert _ _ _ | Erase _ _ _ | Erase1 _ _ | Store _ _ _ => True
  | _ => False
  end →
  world_ok w → callable w c → ends_in (run c w) w' → kept (target c) w w'.
Proof.
  intros Hc Hok Hcall Hend. destruct w as [O H F].
  assert (∃ v s, O !! target c = Some v ∧ vec_rep H v s) as (v & s & Hv & Hrep).
  { assert (is_Some (O !! target c)) as [v Hv] by (destruct c; simpl in *; tauto).
    destruct Hok as [Hok _]. destruct (vec_ok_rep _ v (Hok _ _ Hv)) as [s Hrep]. eauto. }
  destruct c; try done; cbn [run target] in *.
  - destruct (wp_ends _ _ _ _ _ (wp_weaken_ub _ _ _ _ _ (wp_push_back _ _ _ x _ _ F Hv Hrep)) Hend)
      as [(_ & v' & Hev & _)|(e & [Hs|(_ & _ & d' & Hev)])];
      [by eapply kept_evolves|by apply kept_same|by eapply kept_evolves].
  - destruct (wp_ends _ _ _ _ _ (wp_weaken_ub _ _ _ _ _ (wp_pop_back _ _ _ _ _ F Hv Hrep)) Hend)
      as [(_ & s0 & x & _ & Hev)|(e & [])]. by eapply kept_evolves.
  - destruct Hcall as [_ Hn].
    destruct (wp_ends _ _ _ _ _ (wp_weaken_ub _ _ _ _ _ (wp_reserve _ _ _ n _ _ F Hv Hrep Hn)) Hend)
      as [(_ & [(_ & d' & Hev)|(_ & ->)])|(e & Hs)];
      [by eapply kept_evolves|by apply kept_same|by apply kept_same].
  - destruct (wp_ends _ _ _ _ _ (wp_weaken_ub _ _ _ _ _ (wp_shrink_to_fit _ _ _ _ _ F Hv Hrep)) Hend)
      as [(_ & [(_ & d' & Hev)|(_ & ->)])|(e & Hs)];
      [by eapply kept_evolves|by apply kept_same|by apply kept_same].
  - destruct (wp_ends _ _ _ _ _ (wp_weaken_ub _ _ _ _ _ (wp_clear _ _ _ _ _ F Hv Hrep)) Hend)
      as [(_ & Hev)|(e & [])]. by eapply kept_evolves.
  - apply ends_in_forget in Hend.
    destruct (wp_ends _ _ _ _ _ (wp_weaken_ub _ _ _ _ _ (wp_insert _ _ _ _ _ _ _ F Hv Hrep)) Hend)
      as [(_ & v' & p & _ & _ & _ & Hev & _)|(e & v' & s' & Hev & _)];
      by eapply kept_evolves.
  - apply ends_in_forget in Hend.
    destruct (wp_ends _ _ _ _ _ (wp_weaken_ub _ _ _ _ _ (wp_erase _ _ _ _ _ _ _ F Hv Hrep)) Hend)
      as [(_ & f & l & _ & _ & [(_ & -> & _)|(_ & _ & _ & Hev)])|(e & s' & _ & Hev)];
      [by apply kept_same|by eapply kept_evolves|by eapply kept_evolves].
  - apply ends_in_forget in Hend. unfold erase1 in Hend.
    destruct (wp_ends _ _ _ _ _ (wp_weaken_ub _ _ _ _ _ (wp_erase _ _ _ _ _ _ _ F Hv Hrep)) Hend)
      as [(_ & f & l & _ & _ & [(_ & -> & _)|(_ & _ & _ & Hev)])|(e & s' & _ & Hev)];
      [by apply kept_same|by eapply kept_evolves|by eapply kept_evolves].
  - destruct (wp_ends _ _ _ _ _ (wp_weaken_ub _ _ _ _ _ (wp_store_at _ _ _ i x _ _ F Hv Hrep)) Hend)
      as [(_ & _ & Hev)|(e & Hs)]; [by eapply kept_evolves|by apply kept_same].
Qed.

Lemma vec_ok_heap (w w' : world) v :
  vec_ok w v → (∀ l, blk (data_ v) = Some l → heap w' !! l = heap w !! l) → vec_ok w' v.
Proof.
  intros Hok Hsame. destruct (vec_ok_rep _ _ Hok) as [s Hrep].
  eapply vec_rep_ok, vec_rep_frame; [exact Hrep|done].
Qed.

Lemma vec_ok_block (w : world) v l :
  vec_ok w v → blk (data_ v) = Some l → is_Some (heap w !! l).
Proof.
  intros (_ & _ & _ & _ & Hb) Hl. rewrite Hl in Hb. destruct Hb as [_ Hb].
  by destruct (heap w !! l).
Qed.

Lemma default_safe this (w w' : world) :
  world_ok w → objs w !! this = None → ends_in (vector_default this w) w' →
  kept this w w'.
Proof.
  intros Hok Hn Hend. unfold vector_default in Hend. rewrite Hn in Hend.
  simpl in Hend. subst w'.
  eapply (world_ok_update _ _ _ _ []); [done|done|apply vec_rep_null|].
  intros o vo l _ _ _. done.
Qed.

Lemma copy_safe this other (w w' : world) :
  world_ok w → objs w !! this = None → is_Some (objs w !! other) →
  ends_in (vector_copy this other w) w' → kept this w w'.
Proof.
  intros Hok Hn [vo Hvo] Hend. destruct w as [O H F]. cbn [objs] in *.
  pose proof Hok as [Hvok _].
  destruct (vec_ok_rep _ vo (Hvok _ _ Hvo)) as [s Hrep].
  destruct (wp_ends _ _ _ _ _ (wp_weaken_ub _ _ _ _ _ (wp_vector_copy _ _ _ _ _ _ F Hn Hvo Hrep)) Hend)
    as [(_ & d' & HO & Hr & Hheap)|(e & Hs)]; [|by apply kept_same].
  eapply world_ok_update; [done|exact HO|exact Hr|].
  intros o v l Hne Hv Hl. cbn [objs heap data_] in *.
  pose proof (vec_ok_block _ _ _ (Hvok _ _ Hv) Hl) as Hin. cbn [heap] in Hin.
  destruct Hheap as [(_ & -> & ->)|(l' & -> & Hl' & ->)]; [done|].
  assert (l' ≠ l) by (intros ->; rewrite Hl' in Hin; by destruct Hin).
  rewrite lookup_insert_ne by done. split; [done|]. simpl. congruence.
Qed.

Lemma destroy_safe this (w w' : world) :
  world_ok w → is_Some (objs w !! this) → ends_in (vector_dtor this w) w' →
  kept this w w'.
Proof.
  intros Hok [v Hv] Hend. destruct w as [O H F]. cbn [objs] in *.
  pose proof Hok as [Hvok Hsep].
  destruct (vec_ok_rep _ v (Hvok _ _ Hv)) as [s Hrep]. cbn [heap] in Hrep.
  assert (Hwp : wp (vector_dtor this) (World O H F)
            (λ _ w1, w1 = World (delete this O) (drop_block (data_ v) H) F)
            (λ _ _, False) True).
  { eapply (wp_vector_dtor _ _ s); [done|by destruct Hrep| |done].
    destruct (vec_rep_inv _ _ _ Hrep) as [(-> & ->)|(l & cap & -> & _ & _ & _ & Hl)];
      [by left|right]. by eexists l, _. }
  destruct (wp_ends _ _ _ _ _ Hwp Hend) as [(_ & ->)|(_ & [])].
  assert (Hblocks : ∀ o vo l, o ≠ this → O !! o = Some vo → blk (data_ vo) = Some l →
            drop_block (data_ v) H !! l = H !! l).
  { intros o vo l Hne Hvo Hl. unfold drop_block.
    destruct (blk (data_ v)) as [l0|] eqn:Hl0; [|done].
    rewrite lookup_delete_ne; [done|].
    destruct (Hsep this v Hv o vo Hvo) as [?|[?|?]]; congruence. }
  split; [split|].
  - intros o vo Hvo. cbn [objs] in Hvo. apply lookup_delete_Some in Hvo as [Hne Hvo].
    eapply vec_ok_heap; [by apply (Hvok o vo)|]. intros l Hl. cbn [heap]. by eapply Hblocks.
  - intros o1 v1 Hv1 o2 v2 Hv2. cbn [objs] in *.
    apply lookup_delete_Some in Hv1 as [_ Hv1]. apply lookup_delete_Some in Hv2 as [_ Hv2].
    by apply (Hsep o1 v1 Hv1 o2 v2 Hv2).
  - intros o Hne. unfold view. cbn [objs heap]. rewrite lookup_delete_ne by done.
    destruct (O !! o) as [vo|] eqn:Hvo; [|done]. f_equal. f_equal.
    destruct (blk (data_ vo)) as [l|] eqn:Hl; [|done]. by eapply Hblocks.
Qed.

Lemma assign_safe this other (w w' : world) :
  world_ok w → is_Some (objs w !! this) → is_Some (objs w !! other) →
  ends_in (assign this other w) w' → kept this w w'.
Proof.
  intros Hok [va Ha] [vb Hb] Hend. destruct w as [O H F]. cbn [objs] in *.
  destruct (decide (this = other)) as [->|Hne].
  { unfold assign in Hend. rewrite decide_False in Hend by (intros ?; done).
    simpl in Hend. subst w'. by apply kept_same. }
  pose proof Hok as [Hvok _].
  destruct (vec_ok_rep _ va (Hvok _ _ Ha)) as [sa Hra].
  destruct (vec_ok_rep _ vb (Hvok _ _ Hb)) as [sb Hrb].
  destruct (wp_ends _ _ _ _ _ (wp_weaken_ub _ _ _ _ _
              (wp_assign _ _ _ _ _ _ _ _ F Hne Ha Hb Hra Hrb)) Hend)
    as [(_ & d' & Hev)|(e & Hs)]; [by eapply kept_evolves|by apply kept_same].
Qed.

Lemma swap_safe this other (w w' : world) :
  world_ok w → is_Some (objs w !! this) → is_Some (objs w !! other) →
  ends_in (swap this other w) w' →
  world_ok w' ∧ ∀ o, o ≠ this → o ≠ other → view w' o = view w o.
Proof.
  intros Hok [va Ha] [vb Hb] Hend. destruct w as [O H F]. cbn [objs] in *.
  assert (Hwp : wp (swap this other) (World O H F)
            (λ _ w1, w1 = World (<[other := va]> (<[this := vb]> O)) H F)
            (λ _ _, False) True) by (by eapply wp_swap).
  destruct (wp_ends _ _ _ _ _ Hwp Hend) as [(_ & ->)|(_ & [])].
  destruct Hok as [Hvok Hsep].
  set (π := λ o : positive,
         if decide (o = this) then other else if decide (o = other) then this else o).
  assert (Horig : ∀ o, <[other := va]> (<[this := vb]> O) !! o = O !! π o).
  { intros o. unfold π. rewrite !lookup_insert. repeat case_decide; congruence. }
  assert (Hinj : ∀ o1 o2, π o1 = π o2 → o1 = o2).
  { intros o1 o2. unfold π. repeat case_decide; congruence. }
  split; [split|].
  - intros o v Hv. cbn [objs] in Hv. rewrite Horig in Hv.
    eapply vec_ok_heap; [by apply (Hvok (π o) v)|done].
  - intros o1 v1 Hv1 o2 v2 Hv2. cbn [objs] in *. rewrite Horig in Hv1, Hv2.
    destruct (Hsep (π o1) v1 Hv1 (π o2) v2 Hv2) as [Heq|Hx]; [|by right].
    left. by apply Hinj.
  - intros o Hn1 Hn2. unfold view. cbn [objs heap].
    by rewrite !lookup_insert_ne by done.
Qed.

(** Any call, ended normally or by an exception, leaves a well-formed
    world in which the objects it does not touch look as before. *)
Lemma run_safe (c : call) (w w' : world) :
  world_ok w → callable w c → ends_in (run c w) w' →
  world_ok w' ∧ ∀ o, ¬ touches c o → view w' o = view w o.
Proof.
  intros Hok Hcall Hend.
  assert (Hkept : kept (target c) w w' →
            world_ok w' ∧ ∀ o, ¬ touches c o → view w' o = view w o).
  { intros [? Hv]. split; [done|]. intros o Ho. apply Hv. intros Heq. apply Ho. by left. }
  destruct c; cbn [run callable] in *;
    try (apply Hkept; eapply unary_safe; [| |done|done]; done).
  - apply Hkept. by apply default_safe.
  - apply Hkept. destruct Hcall. eapply copy_safe; eauto.
  - apply Hkept. by apply destroy_safe.
  - apply Hkept. destruct Hcall. eapply assign_safe; eauto.
  - destruct Hcall as [Hc1 Hc2]. destruct (swap_safe _ _ _ _ Hok Hc1 Hc2 Hend) as [? Hv].
    split; [done|]. intros o Ho. apply Hv; intros Heq; apply Ho; [by left|by right].
Qed.

Lemma reachable_world_ok (w : world) : reachable w → world_ok w.
Proof.
  induction 1 as [F|w F _ IH|w c w' _ IH Hcall Hend].
  - split; intros o v Hv; cbn [objs] in Hv; by rewrite lookup_empty in Hv.
  - by destruct (world_ok_same w (set_faults F w) IH).
  - by destruct (run_safe c w w' IH Hcall Hend).
Qed.

(** ** Without a fault in the schedule nothing raises *)

Lemma nothrow_ret {A} (a : A) : nothrow (ret (T := T) a).
Proof. by intros w Hq. Qed.

Lemma nothrow_ub {A} : nothrow (ub (T := T) (A := A)).
Proof. by intros w Hq. Qed.

Lemma nothrow_bind {A B} (m : M A) (f : A → M B) :
  nothrow m → (∀ a, nothrow (f a)) → nothrow (bind m f).
Proof.
  intros Hm Hf w Hq. specialize (Hm w Hq). unfold bind.
  destruct (m w) as [a w1| |]; [|done..]. by apply Hf.
Qed.

Lemma nothrow_on_throw {A} (m : M A) h : nothrow m → nothrow (on_throw m h).
Proof.
  intros Hm w Hq. specialize (Hm w Hq). unfold on_throw. by destruct (m w).
Qed.

Lemma nothrow_may_throw e : nothrow (may_throw (T := T) e).
Proof. intros w Hq. unfold may_throw. by rewrite Hq. Qed.

(** Steps that neither raise nor look at the schedule. *)
Lemma nothrow_plain {A} (m : M A) :
  (∀ w, match m w with
        | Ok _ w' => faults w' = faults w
        | Throw _ _ => False
        | UB => True
        end) →
  nothrow m.
Proof.
  intros Hm w Hq. specialize (Hm w). destruct (m w); [|done..].
  unfold quiet in *. congruence.
Qed.

Lemma nothrow_get this : nothrow (get (T := T) this).
Proof. apply nothrow_plain. intros w. unfold get. by destruct (objs w !! this). Qed.

Lemma nothrow_put this v : nothrow (put (T := T) this v).
Proof. apply nothrow_plain. intros w. unfold put. by destruct (objs w !! this). Qed.

Lemma nothrow_peek p : nothrow (peek (T := T) p).
Proof.
  apply nothrow_plain. intros w. unfold peek.
  destruct (blk p) as [l|]; [|done]. destruct (heap w !! l) as [buf|]; [|done].
  destruct (decide (0 ≤ off p)); [|done]. by destruct (buf !! Z.to_nat (off p)).
Qed.

Lemma nothrow_poke p o : nothrow (poke (T := T) p o).
Proof.
  apply nothrow_plain. intros w. unfold poke.
  destruct (blk p) as [l|]; [|done]. destruct (heap w !! l) as [buf|]; [|done].
  by destruct (decide _).
Qed.

Lemma nothrow_operator_delete p : nothrow (operator_delete (T := T) p).
Proof.
  apply nothrow_plain. intros w. unfold operator_delete.
  destruct (blk p) as [l|]; [|by destruct (decide _)].
  destruct (heap w !! l) as [buf|]; [|done]. by destruct (decide _).
Qed.

Lemma nothrow_operator_new bytes : nothrow (operator_new (T := T) bytes).
Proof.
  apply nothrow_bind; [apply nothrow_may_throw|]. intros _. by apply nothrow_plain.
Qed.

Lemma nothrow_vector_default this : nothrow (vector_default (T := T) this).
Proof.
  apply nothrow_plain. intros w. unfold vector_default. by destruct (objs w !! this).
Qed.

Lemma nothrow_temporary : nothrow (temporary (T := T)).
Proof. by apply nothrow_plain. Qed.

Lemma nothrow_block_slots p : nothrow (block_slots (T := T) p).
Proof. by apply nothrow_plain. Qed.

Create HintDb nothrow.
#[local] Hint Resolve nothrow_ret nothrow_ub nothrow_may_throw nothrow_get nothrow_put
  nothrow_peek nothrow_poke nothrow_operator_delete nothrow_operator_new
  nothrow_vector_default nothrow_temporary nothrow_block_slots : nothrow.

Ltac nothrow_go :=
  repeat (intros;
    first
      [ solve [auto with nothrow]
      | apply nothrow_bind
      | apply nothrow_on_throw
      | match goal with
        | |- nothrow (if decide ?P then _ else _) => destruct (decide P)
        | |- nothrow (if ?b then _ else _) => destruct b
        | |- nothrow (match ?o with _ => _ end) => destruct o
        end ]).

Lemma nothrow_set_data this p : nothrow (set_data (T := T) this p).
Proof. unfold set_data. nothrow_go. Qed.
Lemma nothrow_set_size this n : nothrow (set_size (T := T) this n).
Proof. unfold set_size. nothrow_go. Qed.
Lemma nothrow_set_capacity this n : nothrow (set_capacity (T := T) this n).
Proof. unfold set_capacity. nothrow_go. Qed.
Lemma nothrow_copy_T (x : T) : nothrow (copy_T x).
Proof. unfold copy_T. nothrow_go. Qed.
#[local] Hint Resolve nothrow_set_data nothrow_set_size nothrow_set_capacity
  nothrow_copy_T : nothrow.

Lemma nothrow_read_at p : nothrow (read_at (T := T) p).
Proof. unfold read_at. nothrow_go. Qed.
Lemma nothrow_construct_at p (x : T) : nothrow (construct_at p x).
Proof. unfold construct_at. nothrow_go. Qed.
Lemma nothrow_destroy_at p : nothrow (destroy_at (T := T) p).
Proof. unfold destroy_at. nothrow_go. Qed.
Lemma nothrow_assign_at p (x : T) : nothrow (assign_at p x).
Proof. unfold assign_at. nothrow_go. Qed.
#[local] Hint Resolve nothrow_read_at nothrow_construct_at nothrow_destroy_at
  nothrow_assign_at : nothrow.

Lemma nothrow_swap_at p q : nothrow (swap_at (T := T) p q).
Proof. unfold swap_at. nothrow_go. Qed.
Lemma nothrow_ptr_diff p q : nothrow (ptr_diff (T := T) p q).
Proof. unfold ptr_diff. nothrow_go. Qed.
Lemma nothrow_allocate_data n : nothrow (allocate_data (T := T) n).
Proof. unfold allocate_data. nothrow_go. Qed.
Lemma nothrow_destroy_loop n data : nothrow (destroy_loop (T := T) n data).
Proof. induction n; cbn [destroy_loop]; nothrow_go. Qed.
#[local] Hint Resolve nothrow_swap_at nothrow_ptr_diff nothrow_allocate_data
  nothrow_destroy_loop : nothrow.

Lemma nothrow_destroy_elements data size : nothrow (destroy_elements (T := T) data size).
Proof. unfold destroy_elements. nothrow_go. Qed.
Lemma nothrow_memcpy_loop n : ∀ dst src i, nothrow (memcpy_loop (T := T) n dst src i).
Proof. induction n; intros; cbn [memcpy_loop]; nothrow_go. Qed.
Lemma nothrow_copy_loop n : ∀ src dst i, nothrow (copy_loop (T := T) n src dst i).
Proof. induction n; intros; cbn [copy_loop]; nothrow_go. Qed.
#[local] Hint Resolve nothrow_destroy_elements nothrow_memcpy_loop nothrow_copy_loop
  : nothrow.

Lemma nothrow_copy_elements src dst size : nothrow (copy_elements (T := T) src dst size).
Proof. unfold copy_elements, memcpy. nothrow_go. Qed.
Lemma nothrow_calc_new_capacity this : nothrow (calc_new_capacity (T := T) this).
Proof. unfold calc_new_capacity. nothrow_go. Qed.
#[local] Hint Resolve nothrow_copy_elements nothrow_calc_new_capacity : nothrow.

Lemma nothrow_new_buffer this n : nothrow (new_buffer (T := T) this n).
Proof. unfold new_buffer. nothrow_go. Qed.
Lemma nothrow_clear this : nothrow (clear (T := T) this).
Proof. unfold clear. nothrow_go. Qed.
#[local] Hint Resolve nothrow_new_buffer nothrow_clear : nothrow.

Lemma nothrow_vector_dtor this : nothrow (vector_dtor (T := T) this).
Proof.
  unfold vector_dtor. repeat (apply nothrow_bind; [auto with nothrow|intros ?]).
  by apply nothrow_plain.
Qed.
Lemma nothrow_vector_copy this other : nothrow (vector_copy (T := T) this other).
Proof. unfold vector_copy. nothrow_go. Qed.
Lemma nothrow_swap this other : nothrow (swap (T := T) this other).
Proof. unfold swap. nothrow_go. Qed.
#[local] Hint Resolve nothrow_vector_dtor nothrow_vector_copy nothrow_swap : nothrow.

Lemma nothrow_assign this other : nothrow (assign (T := T) this other).
Proof. unfold assign. nothrow_go. Qed.
Lemma nothrow_push_back this (x : T) : nothrow (push_back this x).
Proof. unfold push_back. nothrow_go. Qed.
Lemma nothrow_pop_back this : nothrow (pop_back (T := T) this).
Proof. unfold pop_back. nothrow_go. Qed.
Lemma nothrow_reserve this n : nothrow (reserve (T := T) this n).
Proof. unfold reserve. nothrow_go. Qed.
Lemma nothrow_shrink_to_fit this : nothrow (shrink_to_fit (T := T) this).
Proof. unfold shrink_to_fit. nothrow_go. Qed.
Lemma nothrow_begin this : nothrow (begin_ (T := T) this).
Proof. unfold begin_. nothrow_go. Qed.
Lemma nothrow_end this : nothrow (end_ (T := T) this).
Proof. unfold end_. nothrow_go. Qed.
#[local] Hint Resolve nothrow_assign nothrow_push_back nothrow_pop_back nothrow_reserve
  nothrow_shrink_to_fit nothrow_begin nothrow_end : nothrow.

Lemma nothrow_insert_loop fuel : ∀ i cur, nothrow (insert_loop (T := T) fuel i cur).
Proof. induction fuel; intros; cbn [insert_loop]; nothrow_go. Qed.
Lemma nothrow_erase_loop fuel : ∀ this i cnt, nothrow (erase_loop (T := T) fuel this i cnt).
Proof. induction fuel; intros; cbn [erase_loop]; nothrow_go. Qed.
Lemma nothrow_pop_loop n this : nothrow (pop_loop (T := T) n this).
Proof. induction n; cbn [pop_loop]; nothrow_go. Qed.
#[local] Hint Resolve nothrow_insert_loop nothrow_erase_loop nothrow_pop_loop : nothrow.

Lemma nothrow_insert this pos (x : T) : nothrow (insert this pos x).
Proof. unfold insert. nothrow_go. Qed.
Lemma nothrow_erase this first last : nothrow (erase (T := T) this first last).
Proof. unfold erase. nothrow_go. Qed.
#[local] Hint Resolve nothrow_insert nothrow_erase : nothrow.

Lemma nothrow_erase1 this pos : nothrow (erase1 (T := T) this pos).
Proof. unfold erase1. nothrow_go. Qed.

(** A computation that cannot leave the program and runs under a quiet
    schedule returns. *)
Lemma wp_total {A} (m : M A) (w : world) (Q : A → world → Prop) E (U : Prop) :
  wp m w Q E U → ¬ U → nothrow m → quiet w →
  ∃ a w', m w = Ok a w' ∧ Q a w' ∧ quiet w'.
Proof.
  intros Hwp HU Hm Hq. specialize (Hm w Hq). unfold wp in Hwp.
  destruct (m w) as [a w'| |]; [eauto|done..].
Qed.

Lemma wp_ok {A} (m : M A) (w : world) (Q : A → world → Prop) E (U : Prop) a w' :
  wp m w Q E U → m w = Ok a w' → Q a w'.
Proof. unfold wp. intros Hwp Heq. by rewrite Heq in Hwp. Qed.

Lemma wp_throw {A} (m : M A) (w : world) (Q : A → world → Prop) E (U : Prop) e w' :
  wp m w Q E U → m w = Throw e w' → E e w'.
Proof. unfold wp. intros Hwp Heq. by rewrite Heq in Hwp. Qed.

Lemma bind_ok {A B} (m : M A) (f : A → M B) (w : world) b w' :
  bind m f w = Ok b w' → ∃ a w1, m w = Ok a w1 ∧ f a w1 = Ok b w'.
Proof. unfold bind. destruct (m w) as [a w1| |]; [eauto|done..]. Qed.

(** ** Properties of the public interface *)

Lemma evolves_observe this v O (H : store) (w' : world) v' (s' : list T) :
  evolves this v O H w' v' s' →
  objs w' !! this = Some v' ∧ elems w' this = Some s'.
Proof.
  intros (HO & Hrep & _).
  assert (objs w' !! this = Some v') by (by rewrite HO, lookup_insert_eq).
  split; [done|]. by eapply elems_rep.
Qed.

Lemma observe_members (w : world) this v :
  objs w !! this = Some v →
  size_of w this = Some (size_ v) ∧ capacity_of w this = Some (capacity_ v) ∧
  data_of w this = Some (data_ v).
Proof. intros Hv. unfold size_of, capacity_of, data_of. by rewrite Hv. Qed.

Lemma known_rep (w : world) this v s :
  world_ok w → objs w !! this = Some v → elems w this = Some s →
  vec_rep (heap w) v s.
Proof.
  intros Hok Hv He. destruct (elems_inv _ _ _ Hok He) as (v' & Hv' & Hrep). congruence.
Qed.

(** C10: the copy constructor gives the new container capacity equal to
    the size of the source, whatever the capacity of the source; the copy
    of an empty container has capacity 0, a null buffer, and the free store
    is as before.  With a quiet schedule the constructor returns. *)
Theorem copy_capacity (w : world) this other vo (s : list T) :
  world_ok w → objs w !! this = None → objs w !! other = Some vo →
  elems w other = Some s →
  (∀ w', vector_copy this other w = Ok tt w' →
     capacity_of w' this = Some (size_ vo) ∧ size_of w' this = Some (size_ vo) ∧
     elems w' this = Some s ∧
     (size_ vo = 0 → capacity_of w' this = Some 0 ∧ data_of w' this = Some nullptr ∧
                     heap w' = heap w)) ∧
  (quiet w → ∃ w', vector_copy this other w = Ok tt w').
Proof.
  intros Hok Hn Hvo He. pose proof (known_rep _ _ _ _ Hok Hvo He) as Hrep.
  destruct w as [O H F]. cbn [objs heap] in *.
  pose proof (wp_vector_copy this other vo s O H F Hn Hvo Hrep) as Hwp.
  split.
  - intros w' Hrun. apply (wp_ok _ _ _ _ _ _ _ Hwp) in Hrun.
    destruct Hrun as (d' & HO & Hr & Hheap).
    assert (Hv' : objs w' !! this = Some (Vector d' (size_ vo) (size_ vo)))
      by (by rewrite HO, lookup_insert_eq).
    destruct (observe_members _ _ _ Hv') as (Hs & Hc & Hd).
    split; [done|]. split; [done|]. split; [by eapply elems_rep|].
    intros Hz. rewrite Hz in *. split; [done|].
    destruct Hheap as [(_ & -> & ->)|(l' & -> & _)]; [done|].
    destruct Hr as (_ & _ & _ & _ & Hb). simpl in Hb. by destruct Hb.
  - intros Hq.
    destruct (wp_total _ _ _ _ _ Hwp) as ([] & w' & Hrun & _); [|auto with nothrow|done|eauto].
    tauto.
Qed.

Lemma ptr_add_inj d a b : ptr_add d a = ptr_add d b → a = b.
Proof. unfold ptr_add. intros [= Heq]. lia. Qed.

Lemma ptr_add_add d a b : ptr_add (ptr_add d a) b = ptr_add d (a + b).
Proof. unfold ptr_add. simpl. f_equal. lia. Qed.

(** What a returning [insert] has done. *)
Lemma insert_returns (w : world) this v (s : list T) (p : nat) x r w' :
  world_ok w → objs w !! this = Some v → elems w this = Some s → (p ≤ length s)%nat →
  insert this (ptr_add (data_ v) (Z.of_nat p)) x w = Ok r w' →
  elems w' this = Some (take p s ++ x :: drop p s) ∧
  (∃ d', data_of w' this = Some d' ∧ r = ptr_add d' (Z.of_nat p)) ∧
  size_of w' this = Some (size_ v + 1) ∧
  capacity_of w' this =
    Some (if decide (size_ v = capacity_ v) then grown (capacity_ v) else capacity_ v) ∧
  world_ok w'.
Proof.
  intros Hok Hv He Hp Hrun. pose proof (known_rep _ _ _ _ Hok Hv He) as Hrep.
  destruct w as [O H F]. cbn [objs heap] in *.
  pose proof (wp_insert this v s (ptr_add (data_ v) (Z.of_nat p)) x O H F Hv Hrep) as Hwp.
  apply (wp_ok _ _ _ _ _ _ _ Hwp) in Hrun.
  destruct Hrun as (v' & p' & Hpos & Hp' & -> & Hev & Hcap).
  apply ptr_add_inj, Nat2Z.inj in Hpos. subst p'.
  destruct (evolves_observe _ _ _ _ _ _ _ Hev) as [Hv' He'].
  destruct (observe_members _ _ _ Hv') as (Hs & Hc & Hd).
  split; [done|]. split; [eauto|]. split; [|split].
  - rewrite Hs. f_equal. destruct Hev as (_ & (Hsz' & _) & _). destruct Hrep as (Hsz & _).
    rewrite Hsz', Hsz, length_app, length_take. simpl. rewrite length_drop. lia.
  - by rewrite Hc, Hcap.
  - by destruct (evolves_world_ok (World O H F) w' this v v' _ Hok Hv Hev).
Qed.

Lemma insert_total (w : world) this v (s : list T) (p : nat) x :
  world_ok w → objs w !! this = Some v → elems w this = Some s → (p ≤ length s)%nat →
  quiet w → has_room v →
  ∃ r w', insert this (ptr_add (data_ v) (Z.of_nat p)) x w = Ok r w' ∧ quiet w'.
Proof.
  intros Hok Hv He Hp Hq Hroom. pose proof (known_rep _ _ _ _ Hok Hv He) as Hrep.
  destruct w as [O H F]. cbn [objs heap] in *.
  pose proof (wp_insert this v s (ptr_add (data_ v) (Z.of_nat p)) x O H F Hv Hrep) as Hwp.
  destruct (wp_total _ _ _ _ _ Hwp) as (r & w' & Hrun & _ & Hq'); [|auto with nothrow|done|eauto].
  intros HU. apply HU. split; [done|]. exists (Z.of_nat p). split; [done|lia].
Qed.

(** What a returning [erase] of a non-empty range has done. *)
Lemma erase_returns (w : world) this v (s : list T) (f l : nat) r w' :
  world_ok w → objs w !! this = Some v → elems w this = Some s →
  (f < l ≤ length s)%nat →
  erase this (ptr_add (data_ v) (Z.of_nat f)) (ptr_add (data_ v) (Z.of_nat l)) w = Ok r w' →
  elems w' this = Some (take f s ++ drop l s) ∧
  size_of w' this = Some (size_ v - (Z.of_nat l - Z.of_nat f)) ∧
  capacity_of w' this = Some (capacity_ v) ∧
  data_of w' this = Some (data_ v) ∧
  r = ptr_add (data_ v) (Z.of_nat f) ∧
  world_ok w'.
Proof.
  intros Hok Hv He Hfl Hrun. pose proof (known_rep _ _ _ _ Hok Hv He) as Hrep.
  destruct w as [O H F]. cbn [objs heap] in *.
  pose proof (wp_erase this v s (ptr_add (data_ v) (Z.of_nat f))
                (ptr_add (data_ v) (Z.of_nat l)) O H F Hv Hrep) as Hwp.
  apply (wp_ok _ _ _ _ _ _ _ Hwp) in Hrun.
  destruct Hrun as (f' & l' & Hf & Hl & [(Hcnt & _)|(_ & _ & -> & Hev)]);
    apply ptr_add_inj in Hf; apply ptr_add_inj in Hl; subst f' l'; [lia|].
  rewrite !Nat2Z.id in Hev.
  destruct (evolves_observe _ _ _ _ _ _ _ Hev) as [Hv' He'].
  destruct (observe_members _ _ _ Hv') as (Hs & Hc & Hd).
  split_and!; try done.
  by destruct (evolves_world_ok (World O H F) w' this v _ _ Hok Hv Hev).
Qed.

Lemma erase_total (w : world) this v (s : list T) (f l : nat) :
  world_ok w → objs w !! this = Some v → elems w this = Some s →
  (f < l ≤ length s)%nat → quiet w →
  ∃ r w', erase this (ptr_add (data_ v) (Z.of_nat f)) (ptr_add (data_ v) (Z.of_nat l)) w
          = Ok r w'.
Proof.
  intros Hok Hv He Hfl Hq. pose proof (known_rep _ _ _ _ Hok Hv He) as Hrep.
  destruct w as [O H F]. cbn [objs heap] in *.
  pose proof (wp_erase this v s (ptr_add (data_ v) (Z.of_nat f))
                (ptr_add (data_ v) (Z.of_nat l)) O H F Hv Hrep) as Hwp.
  destruct (wp_total _ _ _ _ _ Hwp) as (r & w' & Hrun & _); [|auto with nothrow|done|eauto].
  intros HU. apply HU. exists (Z.of_nat f), (Z.of_nat l).
  split; [done|]. split; [done|]. right. lia.
Qed.

Lemma wp_exact {A} (m : M A) (w w0 : world) a0 :
  wp m w (λ a w', a = a0 ∧ w' = w0) (λ _ _, False) False → m w = Ok a0 w0.
Proof. unfold wp. destruct (m w); [|done..]. by intros [-> ->]. Qed.

Lemma erase_empty_range (w : world) this v f l :
  objs w !! this = Some v → l - f ≤ 0 →
  erase this (ptr_add (data_ v) f) (ptr_add (data_ v) l) w = Ok (ptr_add (data_ v) l) w.
Proof.
  intros Hv Hcnt. destruct w as [O H F]. cbn [objs] in Hv.
  apply wp_exact. unfold erase, ptr_diff.
  apply wp_bind. eapply wp_begin; [done|]. apply wp_bind.
  cbn [ptr_add blk off]. rewrite decide_True by done. apply wp_ret.
  apply wp_bind. eapply wp_begin; [done|]. apply wp_bind.
  rewrite decide_True by done. apply wp_ret.
  rewrite decide_True by lia.
  apply wp_bind. eapply wp_begin; [done|]. apply wp_ret.
  split; [|done]. unfold ptr_add. f_equal. lia.
Qed.

(** C4: a returning [insert] at position [p] leaves the sequence
    [s[0..p) ++ [x] ++ s[p..)], returns the iterator to position [p] of
    the buffer the container has afterwards, and has grown the container
    the way [push_back] does: one more element, and the capacity
    [push_back] would have left.  With a quiet schedule and a slot for the
    new element it returns. *)
Theorem insert_spec (w : world) this v (s : list T) (p : nat) x :
  world_ok w → objs w !! this = Some v → elems w this = Some s → (p ≤ length s)%nat →
  (∀ r w', insert this (ptr_add (data_ v) (Z.of_nat p)) x w = Ok r w' →
     elems w' this = Some (take p s ++ x :: drop p s) ∧
     (∃ d', data_of w' this = Some d' ∧ r = ptr_add d' (Z.of_nat p)) ∧
     size_of w' this = Some (size_ v + 1) ∧
     capacity_of w' this =
       Some (if decide (size_ v = capacity_ v) then grown (capacity_ v) else capacity_ v) ∧
     (∀ w1, push_back this x w = Ok tt w1 →
        size_of w' this = size_of w1 this ∧ capacity_of w' this = capacity_of w1 this)) ∧
  (quiet w → has_room v →
     ∃ r w', insert this (ptr_add (data_ v) (Z.of_nat p)) x w = Ok r w').
Proof.
  intros Hok Hv He Hp. split.
  - intros r w' Hrun.
    destruct (insert_returns _ _ _ _ _ _ _ _ Hok Hv He Hp Hrun) as (He' & Hr & Hs & Hc & _).
    split_and!; try done.
    intros w1 Hpush. pose proof (known_rep _ _ _ _ Hok Hv He) as Hrep.
    destruct w as [O H F]. cbn [objs heap] in *.
    apply (wp_ok _ _ _ _ _ _ _ (wp_push_back this v s x O H F Hv Hrep)) in Hpush.
    destruct Hpush as (v1 & Hev & Hcap & _).
    destruct (evolves_observe _ _ _ _ _ _ _ Hev) as [Hv1 _].
    destruct (observe_members _ _ _ Hv1) as (Hs1 & Hc1 & _).
    rewrite Hs, Hc, Hs1, Hc1, Hcap. split; [|done]. f_equal.
    destruct Hev as (_ & (Hsz1 & _) & _). destruct Hrep as (Hsz & _).
    rewrite Hsz1, Hsz, length_app. simpl. lia.
  - intros Hq Hroom.
    destruct (insert_total _ _ _ _ p x Hok Hv He Hp Hq Hroom) as (r & w' & Hrun & _).
    eauto.
Qed.

(** C5: [erase(first, last)] with [last - first <= 0] returns the position
    [last] and changes nothing at all.  For [0 <= first < last <= size] a
    returning [erase] leaves the sequence [s[0..first) ++ s[last..)], the
    size smaller by [last - first], buffer and capacity as they were, the
    trailing slots without objects (the world is well formed), and returns
    the iterator to position [first]; with a quiet schedule it returns. *)
Theorem erase_spec (w : world) this v (s : list T) :
  world_ok w → objs w !! this = Some v → elems w this = Some s →
  (∀ f l, l - f ≤ 0 →
     erase this (ptr_add (data_ v) f) (ptr_add (data_ v) l) w
     = Ok (ptr_add (data_ v) l) w) ∧
  (∀ (f l : nat) r w', (f < l ≤ length s)%nat →
     erase this (ptr_add (data_ v) (Z.of_nat f)) (ptr_add (data_ v) (Z.of_nat l)) w
     = Ok r w' →
     elems w' this = Some (take f s ++ drop l s) ∧
     size_of w' this = Some (size_ v - (Z.of_nat l - Z.of_nat f)) ∧
     capacity_of w' this = Some (capacity_ v) ∧
     data_of w' this = Some (data_ v) ∧
     r = ptr_add (data_ v) (Z.of_nat f) ∧
     world_ok w') ∧
  (∀ (f l : nat), (f < l ≤ length s)%nat → quiet w →
     ∃ r w', erase this (ptr_add (data_ v) (Z.of_nat f)) (ptr_add (data_ v) (Z.of_nat l)) w
             = Ok r w').
Proof.
  intros Hok Hv He. split; [|split].
  - intros f l Hcnt. by apply erase_empty_range.
  - intros f l r w' Hfl Hrun. by eapply erase_returns.
  - intros f l Hfl Hq. by eapply erase_total.
Qed.

(** C6: [insert] at position [p] followed by [erase] of the single element
    at the returned position gives back the original sequence; with a quiet
    schedule and a slot for the new element both calls return. *)
Theorem insert_erase_identity (w : world) this v (s : list T) (p : nat) x :
  world_ok w → objs w !! this = Some v → elems w this = Some s → (p ≤ length s)%nat →
  (∀ r w1 r' w2,
     insert this (ptr_add (data_ v) (Z.of_nat p)) x w = Ok r w1 →
     erase1 this r w1 = Ok r' w2 →
     elems w2 this = Some s ∧ r' = r) ∧
  (quiet w → has_room v →
     ∃ r w1 r' w2,
       insert this (ptr_add (data_ v) (Z.of_nat p)) x w = Ok r w1 ∧
       erase1 this r w1 = Ok r' w2).
Proof.
  intros Hok Hv He Hp.
  assert (Hback : take p (take p s ++ x :: drop p s) ++
                  drop (S p) (take p s ++ x :: drop p s) = s).
  { rewrite take_app_length' by (rewrite length_take; lia).
    replace (S p) with (length (take p s) + 1)%nat by (rewrite length_take; lia).
    rewrite drop_app_add'; [|done]. simpl. rewrite drop_0. apply take_drop. }
  assert (Hlen : (p < S p ≤ length (take p s ++ x :: drop p s))%nat).
  { rewrite length_app, length_take. simpl. rewrite length_drop. lia. }
  split.
  - intros r w1 r' w2 Hins Hera.
    destruct (insert_returns _ _ _ _ _ _ _ _ Hok Hv He Hp Hins)
      as (He1 & (d1 & Hd1 & ->) & _ & _ & Hok1).
    unfold data_of in Hd1. destruct (objs w1 !! this) as [v1|] eqn:Hv1; [|done].
    injection Hd1 as <-. unfold erase1 in Hera. rewrite ptr_add_add in Hera.
    replace (Z.of_nat p + 1) with (Z.of_nat (S p)) in Hera by lia.
    destruct (erase_returns _ _ _ _ _ _ _ _ Hok1 Hv1 He1 Hlen Hera) as (He2 & _ & _ & _ & -> & _).
    by rewrite He2, Hback.
  - intros Hq Hroom.
    destruct (insert_total _ _ _ _ p x Hok Hv He Hp Hq Hroom) as (r & w1 & Hins & Hq1).
    destruct (insert_returns _ _ _ _ _ _ _ _ Hok Hv He Hp Hins)
      as (He1 & (d1 & Hd1 & ->) & _ & _ & Hok1).
    unfold data_of in Hd1. destruct (objs w1 !! this) as [v1|] eqn:Hv1; [|done].
    injection Hd1 as <-.
    destruct (erase_total _ _ _ _ _ _ Hok1 Hv1 He1 Hlen Hq1) as (r' & w2 & Hera).
    exists (ptr_add (data_ v1) (Z.of_nat p)), w1, r', w2. split; [done|].
    unfold erase1. rewrite ptr_add_add.
    by replace (Z.of_nat p + 1) with (Z.of_nat (S p)) by lia.
Qed.

Lemma doubling_0 : doubling 0 = 0.
Proof. done. Qed.

Lemma doubling_1 : doubling 1 = 1.
Proof. done. Qed.

Lemma doubling_ge (k : nat) : Z.of_nat k ≤ doubling k.
Proof.
  unfold doubling. destruct (decide (k = 0%nat)) as [->|Hk]; [done|].
  destruct (decide (k = 1%nat)) as [->|Hk1]; [done|].
  apply Z.log2_up_spec. lia.
Qed.

Lemma doubling_full (k : nat) :
  (0 < k)%nat → doubling k = Z.of_nat k → doubling (S k) = 2 * Z.of_nat k.
Proof.
  unfold doubling. intros Hk Heq.
  rewrite decide_False in Heq by lia. rewrite decide_False by lia.
  pose proof (Z.log2_up_nonneg (Z.of_nat k)) as Hb.
  rewrite (Z.log2_up_unique (Z.of_nat (S k)) (Z.log2_up (Z.of_nat k) + 1)).
  - rewrite Z.pow_add_r by lia. lia.
  - lia.
  - replace (Z.pred (Z.log2_up (Z.of_nat k) + 1)) with (Z.log2_up (Z.of_nat k)) by lia.
    rewrite Z.pow_add_r by lia. lia.
Qed.

Lemma doubling_free (k : nat) :
  Z.of_nat k < doubling k → doubling (S k) = doubling k.
Proof.
  unfold doubling. intros Hlt.
  destruct (decide (k = 0%nat)) as [->|Hk]; [lia|]. rewrite decide_False by lia.
  destruct (decide (k = 1%nat)) as [->|Hk1]; [by vm_compute in Hlt|].
  pose proof (Z.log2_up_spec (Z.of_nat k) ltac:(lia)) as [Hlo Hhi].
  f_equal. apply Z.log2_up_unique; [|lia].
  apply Z.log2_up_pos. lia.
Qed.

Lemma doubling_mono (a b : nat) : (a ≤ b)%nat → doubling a ≤ doubling b.
Proof.
  unfold doubling. intros Hab.
  destruct (decide (a = 0%nat)) as [->|Ha].
  - destruct (decide (b = 0%nat)); [done|]. apply Z.pow_nonneg. lia.
  - rewrite decide_False by lia. apply Z.pow_le_mono_r; [lia|].
    apply Z.log2_up_le_mono. lia.
Qed.

(** [doubling n] is a power of two, at least [n], and below every other
    such power. *)
Lemma doubling_least (n : nat) :
  (0 < n)%nat →
  ∃ e, 0 ≤ e ∧ doubling n = 2 ^ e ∧ Z.of_nat n ≤ 2 ^ e ∧
       ∀ j, 0 ≤ j → Z.of_nat n ≤ 2 ^ j → 2 ^ e ≤ 2 ^ j.
Proof.
  intros Hn. exists (Z.log2_up (Z.of_nat n)).
  pose proof (doubling_ge n) as Hge. unfold doubling in *.
  rewrite decide_False in * by lia.
  split; [apply Z.log2_up_nonneg|]. split; [done|]. split; [done|].
  intros j Hj Hle. apply Z.pow_le_mono_r; [lia|].
  destruct (decide (n = 1%nat)) as [->|Hn1].
  { by replace (Z.log2_up (Z.of_nat 1)) with 0 by done. }
  apply Z.log2_up_le_pow2; lia.
Qed.

(** The capacity changes at a call only when the buffer was full. *)
Lemma doubling_step (k : nat) : doubling (S k) ≠ doubling k → doubling k = Z.of_nat k.
Proof.
  intros Hne. pose proof (doubling_ge k).
  destruct (decide (Z.of_nat k < doubling k)) as [Hlt|]; [|lia].
  by apply doubling_free in Hlt.
Qed.

(** The capacity after one more [push_back], when the capacity follows the
    doubling schedule. *)
Lemma grown_doubling (k : nat) c' :
  c' = (if decide (Z.of_nat k = doubling k) then grown (doubling k) else doubling k) →
  Z.of_nat (S k) ≤ c' → doubling k < two64 →
  c' = doubling (S k).
Proof.
  intros -> Hle Hcap. pose proof (doubling_ge k) as Hge.
  destruct (decide (Z.of_nat k = doubling k)) as [Heq|Hne].
  - unfold grown in *. destruct (decide (doubling k = 0)) as [Hz|Hnz].
    + assert (k = 0%nat) as -> by lia. done.
    + rewrite (doubling_full k) by lia. rewrite <- Heq in *.
      unfold wrap in *. pose proof two64_pos.
      destruct (decide (Z.of_nat k * 2 < two64)) as [Hs|Hb].
      * rewrite Z.mod_small in * by lia. lia.
      * exfalso.
        assert ((Z.of_nat k * 2) `mod` two64 = Z.of_nat k * 2 - two64) as Hm.
        { symmetry. apply (Z.mod_unique _ _ 1); lia. }
        lia.
  - symmetry. apply doubling_free. lia.
Qed.

Lemma wp_size this v O (H : store) F (Q : Z → world → Prop) E U :
  O !! this = Some v → Q (size_ v) (World O H F) →
  wp (size this) (World O H F) Q E U.
Proof. intros Hv HQ. apply wp_bind, (wp_get _ _ _ _ _ _ _ _ Hv). by apply wp_ret. Qed.

Lemma wp_capacity this v O (H : store) F (Q : Z → world → Prop) E U :
  O !! this = Some v → Q (capacity_ v) (World O H F) →
  wp (capacity this) (World O H F) Q E U.
Proof. intros Hv HQ. apply wp_bind, (wp_get _ _ _ _ _ _ _ _ Hv). by apply wp_ret. Qed.

Lemma nothrow_size this : nothrow (size (T := T) this).
Proof. unfold size. nothrow_go. Qed.
Lemma nothrow_capacity this : nothrow (capacity (T := T) this).
Proof. unfold capacity. nothrow_go. Qed.
#[local] Hint Resolve nothrow_size nothrow_capacity : nothrow.

Lemma nothrow_push_trace this (xs : list T) : nothrow (push_trace this xs).
Proof. induction xs; cbn [push_trace]; nothrow_go. Qed.

(** A run of [push_back]s from a container whose capacity is on the
    doubling schedule. *)
Lemma wp_push_trace this (xs : list T) :
  ∀ (s0 : list T) v O (H : store) F,
    O !! this = Some v → vec_rep H v s0 → capacity_ v = doubling (length s0) →
    wp (push_trace this xs) (World O H F)
       (λ tr w', tr = (λ k, (Z.of_nat k, doubling k)) <$> seq (S (length s0)) (length xs) ∧
          ∃ v', evolves this v O H w' v' (s0 ++ xs) ∧
                capacity_ v' = doubling (length (s0 ++ xs)))
       (λ _ _, True)
       (¬ doubling (length (s0 ++ xs)) * Z.pos sizeof_T < two64).
Proof.
  induction xs as [|x xs IH]; intros s0 v O H F Hv Hrep Hcap.
  - apply wp_ret. split; [done|]. exists v. rewrite app_nil_r.
    split; [by apply evolves_refl|done].
  - cbn [push_trace]. apply wp_bind. eapply wp_mono; [by apply (wp_push_back this v s0 x)|..].
    + intros _ [O1 H1 F1] (v1 & Hev1 & Hc1 & _).
      pose proof Hev1 as (HO1 & Hr1 & _). cbn [objs heap] in HO1, Hr1.
      assert (Hv1 : O1 !! this = Some v1) by (by rewrite HO1, lookup_insert_eq).
      assert (Hcap1 : capacity_ v1 = doubling (length (s0 ++ [x]))).
      { rewrite length_app. simpl. rewrite Nat.add_1_r.
        destruct Hrep as (Hsz & _ & Hlt & _). destruct Hr1 as (Hsz1 & Hle1 & _).
        rewrite length_app in Hsz1. simpl in Hsz1.
        apply grown_doubling; [by rewrite <- Hsz, <- Hcap|lia|by rewrite <- Hcap]. }
      apply wp_bind. eapply wp_size; [done|]. apply wp_bind. eapply wp_capacity; [done|].
      apply wp_bind. eapply wp_mono; [by apply (IH (s0 ++ [x]) v1)|..].
      * intros tr w' (-> & v' & Hev' & Hc'). apply wp_ret.
        rewrite <- app_assoc in Hev', Hc'. simpl in Hev', Hc'. split.
        -- cbn [length seq fmap list_fmap]. f_equal; [|by rewrite length_app, Nat.add_1_r].
           destruct Hr1 as (-> & _). rewrite Hcap1, length_app. simpl.
           by rewrite Nat.add_1_r.
        -- exists v'. split; [|done]. by eapply evolves_trans.
      * done.
      * by rewrite <- app_assoc.
    + done.
    + intros Hroom Hfit. apply Hroom. unfold has_room.
      destruct Hrep as (Hsz & Hle & Hlt & _). pose proof (doubling_ge (length s0)) as Hge.
      assert (Hmono : doubling (S (length s0)) ≤ doubling (length (s0 ++ x :: xs))).
      { apply doubling_mono. rewrite length_app. simpl. lia. }
      assert (Hnext : doubling (S (length s0)) * Z.pos sizeof_T < two64) by nia.
      pose proof (doubling_ge (S (length s0))) as Hge1.
      destruct (decide (size_ v = capacity_ v)) as [Hfull|Hfree].
      * rewrite Hcap, Hsz in *. unfold grown.
        destruct (decide (doubling (length s0) = 0)) as [Hz|Hnz].
        -- rewrite alloc_slots_fit by nia. lia.
        -- rewrite (doubling_full (length s0)) in * by lia. rewrite <- Hfull in *.
           rewrite wrap_small by nia.
           rewrite alloc_slots_fit by nia. lia.
      * rewrite Hcap, Hsz in *. rewrite alloc_slots_fit; [lia|lia|].
        pose proof (doubling_mono (length s0) (S (length s0)) ltac:(lia)). nia.
Qed.

(** C3: after [n] returning [push_back]s on a default-constructed
    container the size is [n], the elements are the pushed ones, and the
    capacities observed after the calls are the least powers of two that
    hold the sizes, 1, 2, 4, 4, 8, ...; a capacity differs from the one
    before only when the buffer was full.  With a quiet schedule and a last
    allocation size that fits [size_t] every call returns. *)
Theorem push_back_schedule (w : world) this (xs : list T) :
  objs w !! this = None →
  (∀ tr w', (vector_default this;; push_trace this xs) w = Ok tr w' →
     tr = (λ k, (Z.of_nat k, doubling k)) <$> seq 1 (length xs) ∧
     elems w' this = Some xs ∧
     size_of w' this = Some (Z.of_nat (length xs)) ∧
     capacity_of w' this = Some (doubling (length xs))) ∧
  doubling 0 = 0 ∧
  (∀ n, (0 < n)%nat →
     ∃ e, 0 ≤ e ∧ doubling n = 2 ^ e ∧ Z.of_nat n ≤ 2 ^ e ∧
          ∀ j, 0 ≤ j → Z.of_nat n ≤ 2 ^ j → 2 ^ e ≤ 2 ^ j) ∧
  (∀ k, doubling (S k) ≠ doubling k → doubling k = Z.of_nat k) ∧
  (quiet w → doubling (length xs) * Z.pos sizeof_T < two64 →
     ∃ tr w', (vector_default this;; push_trace this xs) w = Ok tr w').
Proof.
  intros Hn. destruct w as [O H F]. cbn [objs] in Hn.
  assert (Hwp : wp (vector_default this;; push_trace this xs) (World O H F)
            (λ tr w', tr = (λ k, (Z.of_nat k, doubling k)) <$> seq 1 (length xs) ∧
               ∃ v', objs w' !! this = Some v' ∧ vec_rep (heap w') v' xs ∧
                     capacity_ v' = doubling (length xs))
            (λ _ _, True)
            (¬ doubling (length xs) * Z.pos sizeof_T < two64)).
  { apply wp_bind, wp_vector_default; [done|].
    eapply wp_mono;
      [eapply (wp_push_trace this xs []); [apply lookup_insert_eq|apply vec_rep_null|done]|..].
    - intros tr w' (-> & v' & Hev & Hc). split; [done|]. exists v'.
      destruct (evolves_observe _ _ _ _ _ _ _ Hev) as [Hv' _].
      by destruct Hev as (_ & Hr & _).
    - done.
    - done. }
  split; [|split; [done|split; [apply doubling_least|split; [apply doubling_step|]]]].
  - intros tr w' Hrun. apply (wp_ok _ _ _ _ _ _ _ Hwp) in Hrun.
    destruct Hrun as (-> & v' & Hv' & Hr & Hc).
    destruct (observe_members _ _ _ Hv') as (Hs & Hcp & _).
    split; [done|]. split; [by eapply elems_rep|]. split.
    + rewrite Hs. by destruct Hr as (-> & _).
    + by rewrite Hcp, Hc.
  - intros Hq Hfit.
    destruct (wp_total _ _ _ _ _ Hwp) as (tr & w' & Hrun & _); [tauto| |done|eauto].
    apply nothrow_bind; [auto with nothrow|]. intros _. apply nothrow_push_trace.
Qed.

Lemma untouched_run_view o (w w' : world) :
  world_ok w → untouched_run o w w' → world_ok w' ∧ view w' o = view w o.
Proof.
  intros Hok Hrun. induction Hrun as [w|w F w' _ IH|w c w1 w' Hcall Hno Hend _ IH].
  - done.
  - destruct (world_ok_same w (set_faults F w) Hok eq_refl eq_refl) as [Hok1 Hv1].
    destruct (IH Hok1) as [? Hv]. split; [done|]. by rewrite Hv.
  - destruct (run_safe c w w1 Hok Hcall Hend) as [Hok1 Hv1].
    destruct (IH Hok1) as [? Hv]. split; [done|]. rewrite Hv. by apply Hv1.
Qed.

Lemma ok_ends_in {A} (m : M A) (w w' : world) a : m w = Ok a w' → ends_in (m w) w'.
Proof. intros ->. done. Qed.

(** Right after a copy both containers hold the sequence of the source. *)
Lemma copied_elems c src (w w1 : world) (s : list T) :
  world_ok w → elems w src = Some s → copied c src w w1 →
  c ≠ src ∧ world_ok w1 ∧ elems w1 c = Some s ∧ elems w1 src = Some s ∧
  objs w1 !! src = objs w !! src.
Proof.
  intros Hok He Hcp. destruct (elems_inv _ _ _ Hok He) as (vs & Hvs & Hrs).
  assert (Hfin : c ≠ src → kept c w w1 → elems w1 c = Some s →
            c ≠ src ∧ world_ok w1 ∧ elems w1 c = Some s ∧ elems w1 src = Some s ∧
            objs w1 !! src = objs w !! src).
  { intros Hne [Hok1 Hv] Hc. specialize (Hv src (not_eq_sym Hne)).
    split_and!; [done..| |by apply members_view].
    by rewrite (elems_view _ _ _ Hv). }
  destruct Hcp as [(Hn & Hrun)|(Hne & [vc Hvc] & Hrun)].
  - assert (c ≠ src) as Hne by (intros ->; by rewrite Hn in Hvs).
    apply Hfin; [done|..].
    + apply (copy_safe c src); [done|done|by eexists|by eapply ok_ends_in].
    + destruct w as [O H F]. cbn [objs heap] in *.
      apply (wp_ok _ _ _ _ _ _ _ (wp_vector_copy c src vs s O H F Hn Hvs Hrs)) in Hrun.
      destruct Hrun as (d' & HO & Hr & _).
      eapply elems_rep; [|exact Hr]. by rewrite HO, lookup_insert_eq.
  - apply Hfin; [done|..].
    + apply (assign_safe c src); [done|by eexists|by eexists|by eapply ok_ends_in].
    + destruct Hok as [Hvok Hsep]. destruct (vec_ok_rep _ vc (Hvok _ _ Hvc)) as [sc Hrc].
      destruct w as [O H F]. cbn [objs heap] in *.
      apply (wp_ok _ _ _ _ _ _ _ (wp_assign c src vc vs sc s O H F Hne Hvc Hvs Hrc Hrs)) in Hrun.
      destruct Hrun as (d' & Hev). by destruct (evolves_observe _ _ _ _ _ _ _ Hev).
Qed.

(** C7: after copy construction or copy assignment the copy holds the
    sequence of the source (the empty one included), and the two containers
    are independent: whatever calls follow that do not touch the source
    (all calls on the copy but a [swap] with the source are such) leave the
    members and the elements of the source as they were, and the same with
    the roles exchanged. *)
Theorem copies_are_independent c src (w w1 : world) (s : list T) :
  world_ok w → elems w src = Some s → copied c src w w1 →
  elems w1 c = Some s ∧ elems w1 src = Some s ∧
  (∀ w2, untouched_run src w1 w2 →
     elems w2 src = Some s ∧ objs w2 !! src = objs w1 !! src) ∧
  (∀ w2, untouched_run c w1 w2 →
     elems w2 c = Some s ∧ objs w2 !! c = objs w1 !! c).
Proof.
  intros Hok He Hcp.
  destruct (copied_elems _ _ _ _ _ Hok He Hcp) as (Hne & Hok1 & Hc & Hs & _).
  split; [done|]. split; [done|]. split; intros w2 Hrun;
    destruct (untouched_run_view _ _ _ Hok1 Hrun) as [_ Hv];
    (split; [by rewrite (elems_view _ _ _ Hv)|by apply members_view]).
Qed.

(** C2: every call of the public interface made in a well-formed world,
    whether it returns or raises, leaves a well-formed world, and in a
    well-formed world every container has [size <= capacity] and a null
    buffer when its capacity is 0. *)
Theorem invariant_I2_kept (c : call) (w w' : world) :
  world_ok w → callable w c → ends_in (run c w) w' →
  world_ok w' ∧
  ∀ o v, objs w' !! o = Some v →
    size_ v ≤ capacity_ v ∧ (capacity_ v = 0 → data_ v = nullptr).
Proof.
  intros Hok Hcall Hend. destruct (run_safe c w w' Hok Hcall Hend) as [Hok' _].
  split; [done|]. intros o v Hv. by apply (world_ok_I2 w' Hok' o v).
Qed.

(** Every reachable world satisfies invariant I2. *)
Lemma reachable_I2 (w : world) : reachable w → map_Forall (λ _ v, I2 v) (objs w).
Proof. intros Hr. by apply world_ok_I2, reachable_world_ok. Qed.

(** X1: What a [push_back] that raises leaves behind: the elements and the size
    are as before, and either nothing has changed or the buffer has already
    been exchanged for the grown one. *)
Lemma push_back_raises (w : world) this v (s : list T) x e w' :
  world_ok w → objs w !! this = Some v → elems w this = Some s →
  push_back this x w = Throw e w' →
  elems w' this = Some s ∧ size_of w' this = Some (size_ v) ∧
  (capacity_of w' this = Some (capacity_ v) ∨
   (e = element_error ∧ size_ v = capacity_ v ∧
    capacity_of w' this = Some (grown (capacity_ v)))).
Proof.
  intros Hok Hv He Hrun. pose proof (known_rep _ _ _ _ Hok Hv He) as Hrep.
  destruct w as [O H F]. cbn [objs heap] in *.
  apply (wp_throw _ _ _ _ _ _ _ (wp_push_back this v s x O H F Hv Hrep)) in Hrun.
  destruct Hrun as [(HO & HH)|(-> & Hfull & d' & Hev)].
  - destruct w' as [O' H' F']. cbn [objs heap] in *. subst O' H'.
    destruct (observe_members (World O H F') _ _ Hv) as (Hs & Hc & _).
    split; [by eapply (elems_rep (World O H F'))|]. split; [done|by left].
  - destruct (evolves_observe _ _ _ _ _ _ _ Hev) as [Hv' He'].
    destruct (observe_members _ _ _ Hv') as (Hs & Hc & _).
    split; [done|]. split; [done|]. right. by split.
Qed.


(** ** The exceptions a computation can raise *)

Lemma raises_only_ret {A} P (a : A) : raises_only P (ret (T := T) a).
Proof. by intros w. Qed.

Lemma raises_only_ub {A} P : raises_only P (ub (T := T) (A := A)).
Proof. by intros w. Qed.

Lemma raises_only_bind {A B} P (m : M A) (f : A → M B) :
  raises_only P m → (∀ a, raises_only P (f a)) → raises_only P (bind m f).
Proof.
  intros Hm Hf w. specialize (Hm w). unfold bind.
  destruct (m w) as [a w1| |]; [|done..]. apply Hf.
Qed.

Lemma raises_only_on_throw {A} P (m : M A) h : raises_only P m → raises_only P (on_throw m h).
Proof.
  intros Hm w. specialize (Hm w). unfold on_throw.
  destruct (m w) as [|e w1|]; [done| |done]. by destruct (h w1).
Qed.

Lemma raises_only_may_throw (P : exn → Prop) e : P e → raises_only P (may_throw (T := T) e).
Proof. intros HP w. unfold may_throw. by destruct (faults w) as [|[] ?]. Qed.

Lemma raises_only_mono {A} (P P' : exn → Prop) (m : M A) :
  raises_only P m → (∀ e, P e → P' e) → raises_only P' m.
Proof. intros Hm HP w. specialize (Hm w). destruct (m w); auto. Qed.

Lemma raises_only_get P this : raises_only P (get (T := T) this).
Proof. intros w. unfold get. by destruct (objs w !! this). Qed.

Lemma raises_only_put P this v : raises_only P (put (T := T) this v).
Proof. intros w. unfold put. by destruct (objs w !! this). Qed.

Lemma raises_only_peek P p : raises_only P (peek (T := T) p).
Proof.
  intros w. unfold peek.
  destruct (blk p) as [l|]; [|done]. destruct (heap w !! l) as [buf|]; [|done].
  destruct (decide (0 ≤ off p)); [|done]. by destruct (buf !! Z.to_nat (off p)).
Qed.

Lemma raises_only_poke P p o : raises_only P (poke (T := T) p o).
Proof.
  intros w. unfold poke.
  destruct (blk p) as [l|]; [|done]. destruct (heap w !! l) as [buf|]; [|done].
  by destruct (decide _).
Qed.

Lemma raises_only_operator_delete P p : raises_only P (operator_delete (T := T) p).
Proof.
  intros w. unfold operator_delete.
  destruct (blk p) as [l|]; [|by destruct (decide _)].
  destruct (heap w !! l) as [buf|]; [|done]. by destruct (decide _).
Qed.

Lemma raises_only_operator_new (P : exn → Prop) bytes :
  P bad_alloc → raises_only P (operator_new (T := T) bytes).
Proof.
  intros HP. apply raises_only_bind; [by apply raises_only_may_throw|]. by intros _ w.
Qed.

Lemma raises_only_vector_default P this : raises_only P (vector_default (T := T) this).
Proof. intros w. unfold vector_default. by destruct (objs w !! this). Qed.

Lemma raises_only_temporary P : raises_only P (temporary (T := T)).
Proof. by intros w. Qed.

Lemma raises_only_block_slots P p : raises_only P (block_slots (T := T) p).
Proof. by intros w. Qed.

Create HintDb raises.
#[local] Hint Resolve raises_only_ret raises_only_ub raises_only_may_throw raises_only_get
  raises_only_put raises_only_peek raises_only_poke raises_only_operator_delete
  raises_only_operator_new raises_only_vector_default raises_only_temporary
  raises_only_block_slots : raises.

Ltac raises_go :=
  repeat (intros;
    first
      [ solve [auto with raises]
      | apply raises_only_bind
      | apply raises_only_on_throw
      | match goal with
        | |- raises_only _ (if decide ?P then _ else _) => destruct (decide P)
        | |- raises_only _ (match ?o with _ => _ end) => destruct o
        end ]).

Lemma raises_only_set_data P this p : raises_only P (set_data (T := T) this p).
Proof. unfold set_data. raises_go. Qed.
Lemma raises_only_set_size P this n : raises_only P (set_size (T := T) this n).
Proof. unfold set_size. raises_go. Qed.
Lemma raises_only_set_capacity P this n : raises_only P (set_capacity (T := T) this n).
Proof. unfold set_capacity. raises_go. Qed.
Lemma raises_only_read_at P p : raises_only P (read_at (T := T) p).
Proof. unfold read_at. raises_go. Qed.
Lemma raises_only_destroy_at P p : raises_only P (destroy_at (T := T) p).
Proof. unfold destroy_at. raises_go. Qed.
Lemma raises_only_ptr_diff P p q : raises_only P (ptr_diff (T := T) p q).
Proof. unfold ptr_diff. raises_go. Qed.
#[local] Hint Resolve raises_only_set_data raises_only_set_size raises_only_set_capacity
  raises_only_read_at raises_only_destroy_at raises_only_ptr_diff : raises.

Lemma raises_only_destroy_loop P n data : raises_only P (destroy_loop (T := T) n data).
Proof. induction n; cbn [destroy_loop]; raises_go. Qed.
#[local] Hint Resolve raises_only_destroy_loop : raises.

Lemma raises_only_destroy_elements P data size :
  raises_only P (destroy_elements (T := T) data size).
Proof. unfold destroy_elements. raises_go. Qed.
#[local] Hint Resolve raises_only_destroy_elements : raises.

Lemma raises_only_clear P this : raises_only P (clear (T := T) this).
Proof. unfold clear. raises_go. Qed.
#[local] Hint Resolve raises_only_clear : raises.

Lemma raises_only_vector_dtor P this : raises_only P (vector_dtor (T := T) this).
Proof.
  unfold vector_dtor. repeat (apply raises_only_bind; [auto with raises|intros ?]).
  by intros w.
Qed.
Lemma raises_only_swap P this other : raises_only P (swap (T := T) this other).
Proof. unfold swap. raises_go. Qed.
Lemma raises_only_pop_back P this : raises_only P (pop_back (T := T) this).
Proof. unfold pop_back. raises_go. Qed.
Lemma raises_only_begin P this : raises_only P (begin_ (T := T) this).
Proof. unfold begin_. raises_go. Qed.
Lemma raises_only_end P this : raises_only P (end_ (T := T) this).
Proof. unfold end_. raises_go. Qed.
Lemma raises_only_memcpy_loop P n : ∀ dst src i, raises_only P (memcpy_loop (T := T) n dst src i).
Proof. induction n; intros; cbn [memcpy_loop]; raises_go. Qed.
#[local] Hint Resolve raises_only_vector_dtor raises_only_swap raises_only_pop_back
  raises_only_begin raises_only_end raises_only_memcpy_loop : raises.

(** X2: The members declared [noexcept], and the destructor, never raise,
    whatever the schedule and whatever the world. *)
Theorem noexcept_members_never_raise this other i :
  raises_only (λ _, False) (vector_default (T := T) this) ∧
  raises_only (λ _, False) (vector_dtor (T := T) this) ∧
  raises_only (λ _, False) (clear (T := T) this) ∧
  raises_only (λ _, False) (pop_back (T := T) this) ∧
  raises_only (λ _, False) (swap (T := T) this other) ∧
  raises_only (λ _, False) (index (T := T) this i) ∧
  raises_only (λ _, False) (data (T := T) this) ∧
  raises_only (λ _, False) (size (T := T) this) ∧
  raises_only (λ _, False) (capacity (T := T) this) ∧
  raises_only (λ _, False) (empty (T := T) this) ∧
  raises_only (λ _, False) (front (T := T) this) ∧
  raises_only (λ _, False) (back (T := T) this) ∧
  raises_only (λ _, False) (begin_ (T := T) this) ∧
  raises_only (λ _, False) (end_ (T := T) this).
Proof.
  split_and!; auto with raises;
    unfold index, data, size, capacity, empty, front, back; raises_go.
Qed.


(** For a trivially copy constructible element type no element copy
    raises. *)
Lemma raises_only_copy_T_trivial P (x : T) :
  trivially_copy_constructible = true → raises_only P (copy_T x).
Proof. intros Ht. unfold copy_T. rewrite Ht. raises_go. Qed.

Lemma raises_only_construct_at_trivial P p (x : T) :
  trivially_copy_constructible = true → raises_only P (construct_at p x).
Proof.
  intros Ht. unfold construct_at.
  apply raises_only_bind; [auto with raises|intros ?].
  apply raises_only_bind; [by apply raises_only_copy_T_trivial|]. raises_go.
Qed.

Lemma raises_only_copy_elements_trivial P src dst n :
  trivially_copy_constructible = true → raises_only P (copy_elements (T := T) src dst n).
Proof. intros Ht. unfold copy_elements, memcpy. rewrite Ht. raises_go. Qed.

Lemma raises_only_allocate_data (P : exn → Prop) n :
  P bad_alloc → raises_only P (allocate_data (T := T) n).
Proof. intros. unfold allocate_data. raises_go. Qed.

Lemma raises_only_calc_new_capacity P this : raises_only P (calc_new_capacity (T := T) this).
Proof. unfold calc_new_capacity. raises_go. Qed.
#[local] Hint Resolve raises_only_allocate_data raises_only_calc_new_capacity : raises.

Lemma raises_only_new_buffer_trivial (P : exn → Prop) this n :
  trivially_copy_constructible = true → P bad_alloc →
  raises_only P (new_buffer (T := T) this n).
Proof.
  intros Ht HP. pose proof (raises_only_copy_elements_trivial P) as Hc.
  unfold new_buffer. raises_go.
Qed.

(** X3: For a trivially copy constructible element type the members that
    allocate raise nothing but [bad_alloc]. *)
Theorem trivial_elements_raise_only_bad_alloc this other (x : T) n :
  trivially_copy_constructible = true →
  raises_only (λ e, e = bad_alloc) (push_back this x) ∧
  raises_only (λ e, e = bad_alloc) (reserve (T := T) this n) ∧
  raises_only (λ e, e = bad_alloc) (shrink_to_fit (T := T) this) ∧
  raises_only (λ e, e = bad_alloc) (vector_copy (T := T) this other) ∧
  raises_only (λ e, e = bad_alloc) (assign (T := T) this other).
Proof.
  intros Ht.
  pose proof (raises_only_new_buffer_trivial (λ e, e = bad_alloc)) as Hn.
  pose proof (raises_only_copy_elements_trivial (λ e, e = bad_alloc)) as Hc.
  pose proof (raises_only_construct_at_trivial (λ e, e = bad_alloc)) as Hk.
  pose proof (raises_only_copy_T_trivial (λ e, e = bad_alloc)) as Hx.
  assert (Hcopy : ∀ a b, raises_only (λ e, e = bad_alloc) (vector_copy (T := T) a b))
    by (intros; unfold vector_copy; raises_go).
  split_and!; [unfold push_back|unfold reserve|unfold shrink_to_fit|done|unfold assign];
    raises_go.
Qed.


(** ** The strong guarantee *)

Lemma bind_throw_l {A B} (m : M A) (f : A → M B) (w : world) e w' :
  m w = Throw e w' → bind m f w = Throw e w'.
Proof. unfold bind. by intros ->. Qed.

Lemma bind_ok_l {A B} (m : M A) (f : A → M B) (w : world) a w1 :
  m w = Ok a w1 → bind m f w = f a w1.
Proof. unfold bind. by intros ->. Qed.

Lemma on_throw_throw {A} (m : M A) h (w : world) e w1 w2 :
  m w = Throw e w1 → h w1 = Ok tt w2 → on_throw m h w = Throw e w2.
Proof. unfold on_throw. by intros -> ->. Qed.

(** [operator new] fails first thing: [new_buffer] has done nothing yet. *)
Lemma new_buffer_bad_alloc this n O (H : store) F :
  n ≠ 0 → new_buffer this n (World O H (true :: F)) = Throw bad_alloc (World O H F).
Proof.
  intros Hn. unfold new_buffer. apply bind_throw_l.
  by rewrite decide_True by done.
Qed.

(** X4: [reserve] keeps the strong guarantee its comment states: when it raises,
    objects and free store are as before; and when [operator new] fails it
    does raise [bad_alloc]. *)
Theorem reserve_strong (w : world) this v (s : list T) n :
  world_ok w → objs w !! this = Some v → elems w this = Some s → 0 ≤ n < two64 →
  (∀ e w', reserve this n w = Throw e w' → objs w' = objs w ∧ heap w' = heap w) ∧
  (n > capacity_ v → ∀ F,
     reserve this n (set_faults (true :: F) w) = Throw bad_alloc (set_faults F w)).
Proof.
  intros Hok Hv He Hn. pose proof (known_rep _ _ _ _ Hok Hv He) as Hrep.
  destruct w as [O H F0]. cbn [objs heap] in *. split.
  - intros e w' Hrun.
    by apply (wp_throw _ _ _ _ _ _ _ (wp_reserve this v s n O H F0 Hv Hrep Hn)) in Hrun.
  - intros Hgt F. unfold reserve, set_faults; cbn [objs heap faults].
    rewrite (bind_ok_l _ _ _ v (World O H (true :: F))) by (unfold get; cbn; by rewrite Hv).
    rewrite decide_True by done. apply new_buffer_bad_alloc.
    destruct Hrep as (? & ? & _). lia.
Qed.

(** X5: [shrink_to_fit] keeps the strong guarantee its comment states; with
    elements to move it raises [bad_alloc] when [operator new] fails; on an
    empty container with a buffer it cannot raise: it allocates nothing,
    releases the buffer and leaves the container as default-constructed. *)
Theorem shrink_to_fit_strong (w : world) this v (s : list T) :
  world_ok w → objs w !! this = Some v → elems w this = Some s →
  (∀ e w', shrink_to_fit this w = Throw e w' → objs w' = objs w ∧ heap w' = heap w) ∧
  (0 < size_ v < capacity_ v → ∀ F,
     shrink_to_fit this (set_faults (true :: F) w) = Throw bad_alloc (set_faults F w)) ∧
  (size_ v = 0 → 0 < capacity_ v →
     shrink_to_fit this w
     = Ok tt (World (<[this := Vector nullptr 0 0]> (objs w))
                    (drop_block (data_ v) (heap w)) (faults w))).
Proof.
  intros Hok Hv He. pose proof (known_rep _ _ _ _ Hok Hv He) as Hrep.
  destruct w as [O H F0]. cbn [objs heap faults] in *. split; [|split].
  - intros e w' Hrun.
    by apply (wp_throw _ _ _ _ _ _ _ (wp_shrink_to_fit this v s O H F0 Hv Hrep)) in Hrun.
  - intros Hlt F. unfold shrink_to_fit, set_faults; cbn [objs heap faults].
    rewrite (bind_ok_l _ _ _ v (World O H (true :: F))) by (unfold get; cbn; by rewrite Hv).
    rewrite decide_True by lia. apply new_buffer_bad_alloc. lia.
  - intros Hs Hc.
    destruct (vec_rep_inv _ _ _ Hrep) as [(-> & ->)|(l & cap & -> & Hcap & Hle & Hsl & Hl)];
      [simpl in Hc; lia|].
    cbn [size_ capacity_ data_] in *.
    assert (s = []) as -> by (destruct s; [done|simpl in Hs; lia]).
    apply wp_exact. unfold shrink_to_fit.
    apply wp_bind, (wp_get _ _ _ _ _ _ _ _ Hv). cbn [size_ capacity_].
    rewrite decide_True by done. unfold new_buffer.
    apply wp_bind. rewrite decide_False by (intros ?; done). apply wp_ret.
    apply wp_bind, (wp_get _ _ _ _ _ _ _ _ Hv). cbn [size_ data_].
    apply wp_bind. rewrite decide_False by (intros ?; done). apply wp_ret.
    apply wp_bind, (wp_get _ _ _ _ _ _ _ _ Hv). cbn [data_].
    apply wp_bind, (wp_operator_delete _ _ _ _ _ _ _ _ Hl).
    apply wp_bind. eapply wp_set_data; [done|]. 
    eapply wp_set_capacity; [apply lookup_insert_eq|].
    cbn [data_ size_ capacity_]. split; [done|].
    by rewrite insert_insert_eq.
Qed.


(** X6: The copy constructor keeps the strong guarantee its comment states: when
    it raises no object has come to life and the free store is as before
    (the buffer it had obtained is released); and when [operator new] fails
    it does raise [bad_alloc]. *)
Theorem copy_constructor_strong (w : world) this other vo (s : list T) :
  world_ok w → objs w !! this = None → objs w !! other = Some vo →
  elems w other = Some s →
  (∀ e w', vector_copy this other w = Throw e w' → objs w' = objs w ∧ heap w' = heap w) ∧
  (size_ vo ≠ 0 → ∀ F,
     vector_copy this other (set_faults (true :: F) w) = Throw bad_alloc (set_faults F w)).
Proof.
  intros Hok Hn Hvo He. pose proof (known_rep _ _ _ _ Hok Hvo He) as Hrep.
  destruct w as [O H F0]. cbn [objs heap] in *. split.
  - intros e w' Hrun.
    by apply (wp_throw _ _ _ _ _ _ _ (wp_vector_copy this other vo s O H F0 Hn Hvo Hrep)) in Hrun.
  - intros Hne F. unfold vector_copy, set_faults; cbn [objs heap faults].
    assert (Hoth : this ≠ other) by congruence.
    rewrite (bind_ok_l _ _ _ tt (World (<[this := Vector nullptr 0 0]> O) H (true :: F)))
      by (unfold vector_default; cbn; by rewrite Hn).
    apply (on_throw_throw _ _ _ _ (World (<[this := Vector nullptr 0 0]> O) H F)).
    + rewrite (bind_ok_l _ _ _ vo (World (<[this := Vector nullptr 0 0]> O) H (true :: F)))
        by (unfold get; cbn; by rewrite lookup_insert_ne, Hvo).
      rewrite decide_True by done. by apply bind_throw_l.
    + apply wp_exact. eapply (wp_vector_dtor this _ []); [apply lookup_insert_eq|done|by left|].
      split; [done|]. cbn [data_]. by rewrite delete_insert_id.
Qed.

(** X7: The destructor ends the object and releases its buffer, touching no
    other block and no other object; it needs no fallible step. *)
Theorem destructor_releases (w : world) this v (s : list T) :
  world_ok w → objs w !! this = Some v → elems w this = Some s →
  vector_dtor this w
  = Ok tt (World (delete this (objs w)) (drop_block (data_ v) (heap w)) (faults w)) ∧
  world_ok (World (delete this (objs w)) (drop_block (data_ v) (heap w)) (faults w)) ∧
  ∀ o, o ≠ this →
    view (World (delete this (objs w)) (drop_block (data_ v) (heap w)) (faults w)) o
    = view w o.
Proof.
  intros Hok Hv He. pose proof (known_rep _ _ _ _ Hok Hv He) as Hrep.
  assert (Hrun : vector_dtor this w
    = Ok tt (World (delete this (objs w)) (drop_block (data_ v) (heap w)) (faults w))).
  { destruct w as [O H F0]. cbn [objs heap faults] in *.
    apply wp_exact. eapply (wp_vector_dtor this v s); [done|by destruct Hrep| |done].
    destruct (vec_rep_data _ _ _ Hrep) as [(Hd & _ & ->)|(l & Hd & _ & _ & Hl)]; [by left|].
    right. exists l, (replicate (alloc_slots (capacity_ v) - length s) None). by split. }
  split; [done|]. apply (destroy_safe this w); [done|by eexists|by rewrite Hrun].
Qed.

(** X8: Copy construction followed by destruction of the copy gives back the
    objects and the free store there were: nothing leaks. *)
Theorem copy_then_destroy (w : world) this other vo (s : list T) w1 :
  world_ok w → objs w !! this = None → objs w !! other = Some vo →
  elems w other = Some s →
  vector_copy this other w = Ok tt w1 →
  ∃ w2, vector_dtor this w1 = Ok tt w2 ∧ objs w2 = objs w ∧ heap w2 = heap w.
Proof.
  intros Hok Hn Hvo He Hrun. pose proof (known_rep _ _ _ _ Hok Hvo He) as Hrep.
  destruct w as [O H F0]. cbn [objs heap] in *.
  apply (wp_ok _ _ _ _ _ _ _ (wp_vector_copy this other vo s O H F0 Hn Hvo Hrep)) in Hrun.
  destruct Hrun as (d' & HO & Hr & Hheap). destruct w1 as [O1 H1 F1]. cbn [objs heap] in *.
  subst O1. eexists. split.
  - apply wp_exact.
    eapply (wp_vector_dtor this _ s); [apply lookup_insert_eq|by destruct Hr| |done].
    destruct Hheap as [(-> & -> & _)|(l' & -> & Hfr & ->)]; [by left|].
    right. exists l', []. split; [done|]. rewrite lookup_insert_eq.
    unfold filled. by rewrite Nat.sub_diag.
  - cbn [objs heap data_]. rewrite delete_insert_id by done. split; [done|].
    destruct Hheap as [(_ & -> & ->)|(l' & -> & Hfr & ->)]; [done|].
    unfold drop_block; cbn [blk]. by rewrite delete_insert_id.
Qed.

(** X9: Copy assignment keeps the strong guarantee its comment states: when it
    raises, objects and free store are as before.  Assignment to itself
    does nothing.  When it returns, the target holds the sequence of the
    source with capacity equal to the size of the source, and the source is
    as it was; with a quiet schedule it returns. *)
Theorem assign_strong (w : world) this other va vb (sa sb : list T) :
  world_ok w → objs w !! this = Some va → objs w !! other = Some vb →
  elems w this = Some sa → elems w other = Some sb →
  (∀ e w', assign this other w = Throw e w' → objs w' = objs w ∧ heap w' = heap w) ∧
  (this = other → assign this other w = Ok tt w) ∧
  (this ≠ other → ∀ w', assign this other w = Ok tt w' →
     elems w' this = Some sb ∧ size_of w' this = Some (size_ vb) ∧
     capacity_of w' this = Some (size_ vb) ∧ view w' other = view w other) ∧
  (quiet w → ∃ w', assign this other w = Ok tt w').
Proof.
  intros Hok Ha Hb Hea Heb.
  pose proof (known_rep _ _ _ _ Hok Ha Hea) as Hra.
  pose proof (known_rep _ _ _ _ Hok Hb Heb) as Hrb.
  assert (Hself : this = other → assign this other w = Ok tt w).
  { intros ->. unfold assign. by rewrite decide_False by (intros ?; done). }
  destruct (decide (this = other)) as [Heq|Hne].
  { rewrite (Hself Heq). split_and!; [done..|]. intros _. by exists w. }
  destruct w as [O H F0]. cbn [objs heap] in *.
  pose proof (wp_assign this other va vb sa sb O H F0 Hne Ha Hb Hra Hrb) as Hwp.
  split_and!; [|done| |].
  - intros e w' Hrun. by apply (wp_throw _ _ _ _ _ _ _ Hwp) in Hrun.
  - intros _ w' Hrun. apply (wp_ok _ _ _ _ _ _ _ Hwp) in Hrun. destruct Hrun as (d' & Hev).
    destruct (evolves_observe _ _ _ _ _ _ _ Hev) as [Hv' He'].
    destruct (observe_members _ _ _ Hv') as (Hs & Hc & _).
    split_and!; [done..|].
    destruct (evolves_world_ok (World O H F0) w' this va _ _ Hok Ha Hev) as [_ Hview].
    apply Hview. congruence.
  - intros Hq.
    destruct (wp_total _ _ _ _ _ Hwp) as ([] & w' & Hrun & _); [tauto|auto with nothrow|done|eauto].
Qed.


(** ** [push_back], [pop_back], [clear], [swap] *)

(** X10: A returning [push_back] appends its argument; the capacity is the one
    before, or the grown one when the buffer was full; with room left the
    buffer stays where it is; no other object changes.  With a quiet
    schedule and a slot for the new element it returns. *)
Theorem push_back_appends (w : world) this v (s : list T) x :
  world_ok w → objs w !! this = Some v → elems w this = Some s →
  (∀ w', push_back this x w = Ok tt w' →
     elems w' this = Some (s ++ [x]) ∧ size_of w' this = Some (size_ v + 1) ∧
     capacity_of w' this =
       Some (if decide (size_ v = capacity_ v) then grown (capacity_ v) else capacity_ v) ∧
     (size_ v < capacity_ v → data_of w' this = Some (data_ v)) ∧
     world_ok w' ∧ ∀ o, o ≠ this → view w' o = view w o) ∧
  (quiet w → has_room v → ∃ w', push_back this x w = Ok tt w').
Proof.
  intros Hok Hv He. pose proof (known_rep _ _ _ _ Hok Hv He) as Hrep.
  destruct w as [O H F0]. cbn [objs heap] in *.
  pose proof (wp_push_back this v s x O H F0 Hv Hrep) as Hwp. split.
  - intros w' Hrun. apply (wp_ok _ _ _ _ _ _ _ Hwp) in Hrun.
    destruct Hrun as (v' & Hev & Hcap & Hdata).
    destruct (evolves_observe _ _ _ _ _ _ _ Hev) as [Hv' He'].
    destruct (observe_members _ _ _ Hv') as (Hs & Hc & Hd).
    destruct Hev as (HO & Hr' & Hfr). pose proof Hr' as (Hsz' & _).
    destruct Hrep as (Hsz & _). rewrite length_app in Hsz'. cbn [length] in Hsz'.
    split_and!; [done|rewrite Hs; f_equal; lia|by rewrite Hc, Hcap|
                 intros Hlt; rewrite Hd, Hdata by lia; done|..];
      by apply (evolves_world_ok (World O H F0) w' this v v' (s ++ [x])).
  - intros Hq Hroom.
    destruct (wp_total _ _ _ _ _ Hwp) as ([] & w' & Hrun & _); [tauto|auto with nothrow|done|eauto].
Qed.

(** X11: When [push_back] raises [bad_alloc], or raises with room left, or
    raises for a trivially copy constructible element type, objects and
    free store are as before.  On a full container whose capacity can grow
    it does raise [bad_alloc] when [operator new] fails. *)
Theorem push_back_strong_cases (w : world) this v (s : list T) x :
  world_ok w → objs w !! this = Some v → elems w this = Some s →
  (∀ e w', push_back this x w = Throw e w' →
     e = bad_alloc ∨ size_ v ≠ capacity_ v ∨ trivially_copy_constructible = true →
     objs w' = objs w ∧ heap w' = heap w) ∧
  (size_ v = capacity_ v → grown (capacity_ v) ≠ 0 → ∀ F,
     ∃ F0, push_back this x (set_faults (F0 ++ F) w) = Throw bad_alloc (set_faults F w)).
Proof.
  intros Hok Hv He. pose proof (known_rep _ _ _ _ Hok Hv He) as Hrep.
  destruct w as [O H F0]. cbn [objs heap] in *. split.
  - intros e w' Hrun Hcase.
    assert (Hbad : trivially_copy_constructible = true → e = bad_alloc).
    { intros Ht.
      pose proof (raises_only_new_buffer_trivial (λ e, e = bad_alloc)) as Hn.
      pose proof (raises_only_construct_at_trivial (λ e, e = bad_alloc)) as Hk.
      pose proof (raises_only_copy_T_trivial (λ e, e = bad_alloc)) as Hx.
      assert (Hp : raises_only (λ e, e = bad_alloc) (push_back this x))
        by (unfold push_back; raises_go).
      specialize (Hp (World O H F0)). by rewrite Hrun in Hp. }
    apply (wp_throw _ _ _ _ _ _ _ (wp_push_back this v s x O H F0 Hv Hrep)) in Hrun.
    destruct Hrun as [?|(-> & Hfull & _)]; [done|].
    destruct Hcase as [?|[?|Ht]]; [done|done|]. by specialize (Hbad Ht).
  - intros Hfull Hg F.
    exists (if trivially_copy_constructible then [true] else [false; true]).
    unfold set_faults; cbn [objs heap faults]. unfold push_back.
    rewrite (bind_ok_l _ _ _ v (World O H ((if trivially_copy_constructible
               then [true] else [false; true]) ++ F)))
      by (unfold get; cbn; by rewrite Hv).
    apply bind_throw_l. rewrite decide_True by done.
    rewrite (bind_ok_l _ _ _ x (World O H (true :: F)))
      by (unfold copy_T; by destruct trivially_copy_constructible).
    rewrite (bind_ok_l _ _ _ (grown (capacity_ v)) (World O H (true :: F)))
      by (unfold calc_new_capacity, bind, get; cbn; by rewrite Hv).
    apply bind_throw_l. by apply new_buffer_bad_alloc.
Qed.

(** X12: [pop_back] on an empty container is undefined behaviour; on a
    non-empty one it returns, whatever the schedule, having removed the
    last element and nothing else: buffer and capacity stay. *)
Theorem pop_back_spec (w : world) this v (s : list T) :
  world_ok w → objs w !! this = Some v → elems w this = Some s →
  (s = [] → pop_back this w = UB) ∧
  (∀ s0 x, s = s0 ++ [x] →
     ∃ w', pop_back this w = Ok tt w' ∧
       elems w' this = Some s0 ∧ size_of w' this = Some (size_ v - 1) ∧
       capacity_of w' this = Some (capacity_ v) ∧ data_of w' this = Some (data_ v) ∧
       world_ok w' ∧ ∀ o, o ≠ this → view w' o = view w o).
Proof.
  intros Hok Hv He. pose proof (known_rep _ _ _ _ Hok Hv He) as Hrep.
  destruct w as [O H F0]. cbn [objs heap] in *.
  pose proof (wp_pop_back this v s O H F0 Hv Hrep) as Hwp. unfold wp in Hwp. split.
  - intros ->. destruct (pop_back this (World O H F0)) as [[] w'| |]; [|done..].
    destruct Hwp as (s0 & x & Hs & _). by destruct s0.
  - intros s0 x ->. destruct (pop_back this (World O H F0)) as [[] w'| |]; [|done|by destruct s0].
    destruct Hwp as (s1 & y & Hs & Hev). apply app_inj_tail in Hs as [-> ->].
    exists w'. split; [done|].
    destruct (evolves_observe _ _ _ _ _ _ _ Hev) as [Hv' He'].
    destruct (observe_members _ _ _ Hv') as (Hs & Hc & Hd).
    destruct (evolves_world_ok (World O H F0) w' this v _ _ Hok Hv Hev) as [Hok' Hview].
    by split_and!.
Qed.

(** X13: [push_back] followed by [pop_back] gives back the sequence and the
    size; when there was room the members are the ones before, the buffer
    included. *)
Theorem push_back_pop_back (w : world) this v (s : list T) x w1 :
  world_ok w → objs w !! this = Some v → elems w this = Some s →
  push_back this x w = Ok tt w1 →
  ∃ w2, pop_back this w1 = Ok tt w2 ∧
    elems w2 this = Some s ∧ size_of w2 this = Some (size_ v) ∧
    (size_ v < capacity_ v → objs w2 = objs w).
Proof.
  intros Hok Hv He Hrun. pose proof (known_rep _ _ _ _ Hok Hv He) as Hrep.
  destruct w as [O H F0]. cbn [objs heap] in *.
  apply (wp_ok _ _ _ _ _ _ _ (wp_push_back this v s x O H F0 Hv Hrep)) in Hrun.
  destruct Hrun as (v1 & Hev & Hcap & Hdata).
  destruct (evolves_observe _ _ _ _ _ _ _ Hev) as [Hv1 _].
  pose proof Hev as (HO1 & Hr1 & _). destruct w1 as [O1 H1 F1]. cbn [objs heap] in *.
  pose proof (wp_pop_back this v1 (s ++ [x]) O1 H1 F1 Hv1 Hr1) as Hwp. unfold wp in Hwp.
  destruct (pop_back this (World O1 H1 F1)) as [[] w2| |]; [|done|by destruct s].
  destruct Hwp as (s1 & y & Hs & Hev2). apply app_inj_tail in Hs as [<- <-].
  exists w2. split; [done|].
  destruct (evolves_observe _ _ _ _ _ _ _ Hev2) as [Hv2 He2].
  destruct (observe_members _ _ _ Hv2) as (Hs2 & _).
  destruct Hr1 as (Hsz1 & _). destruct Hrep as (Hsz & _).
  rewrite length_app in Hsz1. cbn [length] in Hsz1.
  assert (Hsame : size_ v1 - 1 = size_ v) by lia.
  split_and!; [done|by rewrite Hs2, Hsame|].
  intros Hlt. destruct Hev2 as (-> & _). rewrite HO1, insert_insert_eq.
  rewrite Hsame, Hcap, Hdata, decide_False by lia.
  apply insert_id. by destruct v.
Qed.

(** X14: [clear] returns whatever the schedule, leaves the container empty and
    keeps buffer and capacity. *)
Theorem clear_spec (w : world) this v (s : list T) :
  world_ok w → objs w !! this = Some v → elems w this = Some s →
  ∃ w', clear this w = Ok tt w' ∧
    elems w' this = Some [] ∧ size_of w' this = Some 0 ∧
    capacity_of w' this = Some (capacity_ v) ∧ data_of w' this = Some (data_ v) ∧
    world_ok w' ∧ ∀ o, o ≠ this → view w' o = view w o.
Proof.
  intros Hok Hv He. pose proof (known_rep _ _ _ _ Hok Hv He) as Hrep.
  destruct w as [O H F0]. cbn [objs heap] in *.
  pose proof (wp_clear this v s O H F0 Hv Hrep) as Hwp. unfold wp in Hwp.
  destruct (clear this (World O H F0)) as [[] w'| |]; [|done..].
  exists w'. split; [done|].
  destruct (evolves_observe _ _ _ _ _ _ _ Hwp) as [Hv' He'].
  destruct (observe_members _ _ _ Hv') as (Hs & Hc & Hd).
  destruct (evolves_world_ok (World O H F0) w' this v _ _ Hok Hv Hwp) as [Hok' Hview].
  by split_and!.
Qed.

(** X15: [swap] exchanges the members of two containers, and with them their
    sequences; the free store, the schedule and all other objects stay;
    swapping again gives back the world there was. *)
Theorem swap_exchanges (w : world) a b va vb :
  objs w !! a = Some va → objs w !! b = Some vb →
  ∃ w', swap a b w = Ok tt w' ∧
    objs w' !! a = Some vb ∧ objs w' !! b = Some va ∧
    heap w' = heap w ∧ faults w' = faults w ∧
    elems w' a = elems w b ∧ elems w' b = elems w a ∧
    (∀ o, o ≠ a → o ≠ b → objs w' !! o = objs w !! o) ∧
    swap a b w' = Ok tt w.
Proof.
  intros Ha Hb. destruct w as [O H F0]. cbn [objs heap faults] in *.
  exists (World (<[b := va]> (<[a := vb]> O)) H F0).
  assert (Ha' : (<[b := va]> (<[a := vb]> O)) !! a = Some vb).
  { rewrite !lookup_insert. repeat case_decide; congruence. }
  assert (Hb' : (<[b := va]> (<[a := vb]> O)) !! b = Some va) by apply lookup_insert_eq.
  split; [apply wp_exact; by eapply wp_swap|].
  split_and!; [done..| | | |].
  - unfold elems; cbn [objs heap]. by rewrite Ha', Hb.
  - unfold elems; cbn [objs heap]. by rewrite Hb', Ha.
  - intros o Hoa Hob. cbn [objs]. by rewrite !lookup_insert_ne.
  - apply wp_exact. eapply wp_swap; [done..|]. split; [done|]. f_equal.
    apply map_eq. intros k. rewrite !lookup_insert. repeat case_decide; congruence.
Qed.


(** ** Element access *)

Lemma wp_is_ub {A} (m : M A) (w : world) :
  wp m w (λ _ _, False) (λ _ _, False) True → m w = UB.
Proof. unfold wp. by destruct (m w). Qed.

(** Reading at offset [i] of the buffer of a well-formed container: the
    element [s[i]] in range, undefined behaviour out of range. *)
Lemma wp_read_elem v (s : list T) i O (H : store) F (Q : T → world → Prop) E (U : Prop) :
  vec_rep H v s →
  (∀ x, 0 ≤ i → s !! Z.to_nat i = Some x → Q x (World O H F)) →
  (¬ (0 ≤ i < Z.of_nat (length s)) → U) →
  wp (read_at (ptr_add (data_ v) i)) (World O H F) Q E U.
Proof.
  intros Hrep HQ HU.
  destruct (vec_rep_inv _ _ _ Hrep) as [(-> & ->)|(l & cap & -> & Hc & Hle & Hlen & Hl)];
    cbn [data_]; unfold ptr_add; cbn [blk off nullptr].
  { unfold wp; simpl. apply HU. simpl. lia. }
  rewrite Z.add_0_l. by eapply wp_read_at_filled.
Qed.

(** X16: [operator[]], [front()] and [back()] give the elements of the
    sequence, leaving the world alone: [this[i]] is [s[i]] for
    [0 <= i < size], [front()] the first and [back()] the last element.
    Reading [this[i]] out of that range, or [front()] or [back()] of an
    empty container, is undefined behaviour. *)
Theorem element_access (w : world) this v (s : list T) :
  world_ok w → objs w !! this = Some v → elems w this = Some s →
  (∀ (i : nat) x, s !! i = Some x → load this (Z.of_nat i) w = Ok x w) ∧
  (∀ i, ¬ (0 ≤ i < Z.of_nat (length s)) → load this i w = UB) ∧
  (∀ x s', s = x :: s' → load_front this w = Ok x w) ∧
  (∀ s' x, s = s' ++ [x] → load_back this w = Ok x w) ∧
  (s = [] → load_front this w = UB ∧ load_back this w = UB).
Proof.
  intros Hok Hv He. pose proof (known_rep _ _ _ _ Hok Hv He) as Hrep.
  destruct w as [O H F0]. cbn [objs heap] in *.
  assert (Hin : ∀ i x, 0 ≤ i → s !! Z.to_nat i = Some x →
            wp (read_at (ptr_add (data_ v) i)) (World O H F0)
              (λ a w', a = x ∧ w' = World O H F0) (λ _ _, False) False).
  { intros i x Hi Hx. apply (wp_read_elem v s); [done| |].
    - intros y _ Hy. split; congruence.
    - intros Hout. apply Hout. apply lookup_lt_Some in Hx. lia. }
  assert (Hout : ∀ i, ¬ (0 ≤ i < Z.of_nat (length s)) →
            wp (read_at (ptr_add (data_ v) i)) (World O H F0)
              (λ _ _, False) (λ _ _, False) True).
  { intros i Hi. apply (wp_read_elem v s); [done| |done].
    intros y Hi0 Hy. apply Hi. apply lookup_lt_Some in Hy. lia. }
  destruct Hrep as (Hsz & _).
  split_and!.
  - intros i x Hx. apply wp_exact. unfold load, index.
    apply wp_bind, wp_bind, (wp_get _ _ _ _ _ _ _ _ Hv), wp_ret.
    apply Hin; [lia|by rewrite Nat2Z.id].
  - intros i Hi. apply wp_is_ub. unfold load, index.
    apply wp_bind, wp_bind, (wp_get _ _ _ _ _ _ _ _ Hv), wp_ret. by apply Hout.
  - intros x s' ->. apply wp_exact. unfold load_front, front.
    apply wp_bind, wp_bind, (wp_get _ _ _ _ _ _ _ _ Hv), wp_ret. by apply Hin.
  - intros s' x ->. apply wp_exact. unfold load_back, back.
    apply wp_bind, wp_bind, (wp_get _ _ _ _ _ _ _ _ Hv), wp_ret.
    rewrite length_app in Hsz. cbn [length] in Hsz.
    apply Hin; [lia|]. replace (Z.to_nat (size_ v - 1)) with (length s') by lia.
    by rewrite list_lookup_middle.
  - intros ->. cbn [length] in *. split; apply wp_is_ub.
    + unfold load_front, front.
      apply wp_bind, wp_bind, (wp_get _ _ _ _ _ _ _ _ Hv), wp_ret. apply Hout. simpl. lia.
    + unfold load_back, back.
      apply wp_bind, wp_bind, (wp_get _ _ _ _ _ _ _ _ Hv), wp_ret. apply Hout. simpl. lia.
Qed.

(** X17: The observers agree with the element sequence: [size()] is its length,
    [empty()] says whether it is empty, [end() - begin()] is its length,
    [capacity()] is at least its length, and [data()] is [begin()]. *)
Theorem observers_agree (w : world) this v (s : list T) :
  world_ok w → objs w !! this = Some v → elems w this = Some s →
  size this w = Ok (Z.of_nat (length s)) w ∧
  empty this w = Ok (bool_decide (s = [])) w ∧
  distance this w = Ok (Z.of_nat (length s)) w ∧
  (∃ c, capacity this w = Ok c w ∧ Z.of_nat (length s) ≤ c) ∧
  (∃ d, data this w = Ok d w ∧ begin_ this w = Ok d w ∧
        end_ this w = Ok (ptr_add d (Z.of_nat (length s))) w).
Proof.
  intros Hok Hv He. pose proof (known_rep _ _ _ _ Hok Hv He) as (Hsz & Hle & _).
  unfold size, empty, distance, capacity, data, begin_, end_, ptr_diff, bind, get, ret.
  repeat (rewrite Hv; cbn [blk ptr_add off]). rewrite decide_True by done.
  split_and!.
  - by rewrite Hsz.
  - do 2 f_equal. apply bool_decide_ext. rewrite Hsz. destruct s; simpl; [done|]. split; [lia|done].
  - f_equal. lia.
  - exists (capacity_ v). split; [done|lia].
  - exists (data_ v). by rewrite Hsz.
Qed.

Lemma nothrow_store_at this i (x : T) : nothrow (store_at this i x).
Proof. unfold store_at, index. nothrow_go. Qed.

(** X18: Assignment through the reference [operator[]] returns: in range it
    replaces element [i] and nothing else; when the element's copy
    assignment raises, the members of all objects are as before, the world
    is well formed, no other object has changed and the container holds as
    many elements as before (what the element assigned to then holds is the
    element type's business); out of range it is undefined behaviour. *)
Theorem store_through_index (w : world) this v (s : list T) i x :
  world_ok w → objs w !! this = Some v → elems w this = Some s →
  (∀ w', store_at this i x w = Ok tt w' →
     0 ≤ i < Z.of_nat (length s) ∧ elems w' this = Some (<[Z.to_nat i := x]> s) ∧
     objs w' = objs w ∧ world_ok w' ∧ ∀ o, o ≠ this → view w' o = view w o) ∧
  (∀ e w', store_at this i x w = Throw e w' →
     objs w' = objs w ∧ world_ok w' ∧ (∀ o, o ≠ this → view w' o = view w o) ∧
     ∃ s', elems w' this = Some s' ∧ length s' = length s) ∧
  (¬ (0 ≤ i < Z.of_nat (length s)) → store_at this i x w = UB) ∧
  (0 ≤ i < Z.of_nat (length s) → quiet w → ∃ w', store_at this i x w = Ok tt w').
Proof.
  intros Hok Hv He. pose proof (known_rep _ _ _ _ Hok Hv He) as Hrep.
  destruct w as [O H F0]. cbn [objs heap] in *.
  pose proof (wp_store_at this v s i x O H F0 Hv Hrep) as Hwp. split_and!.
  - intros w' Hrun. apply (wp_ok _ _ _ _ _ _ _ Hwp) in Hrun. destruct Hrun as [Hi Hev].
    destruct (evolves_observe _ _ _ _ _ _ _ Hev) as [Hv' He'].
    destruct (evolves_world_ok (World O H F0) w' this v _ _ Hok Hv Hev) as [Hok' Hview].
    destruct Hev as (HO & _). split; [done|]. split; [done|].
    split; [rewrite HO; by apply insert_id|done].
  - intros e w' Hrun. apply (wp_throw _ _ _ _ _ _ _ Hwp) in Hrun as [HO HH].
    destruct (world_ok_same (World O H F0) w' Hok HO HH) as [Hok' Hview].
    split_and!; [done|done|by intros o _|]. exists s. split; [|done].
    by rewrite (elems_view _ _ _ (Hview this)).
  - intros Hi. unfold wp in Hwp.
    destruct (store_at this i x (World O H F0)) as [[] w'|e w'|] eqn:Hrun; [tauto| |done].
    exfalso. revert Hrun. unfold store_at, index, bind, get, ret; cbn [objs]. rewrite Hv.
    destruct (vec_rep_inv _ _ _ Hrep) as [(-> & ->)|(l & cap & -> & Hc & Hle & Hlen & Hl)];
      cbn [data_]; unfold assign_at, bind, peek, ptr_add; cbn [blk off nullptr heap]; [done|].
    rewrite Hl, Z.add_0_l. destruct (decide (0 ≤ i)); [|done].
    destruct (decide (Z.to_nat i < alloc_slots cap)%nat).
    + by rewrite filled_lookup_ge by lia.
    + by rewrite filled_lookup_out by lia.
  - intros Hi Hq.
    destruct (wp_total _ _ _ _ _ Hwp) as ([] & w' & Hrun & _);
      [tauto|apply nothrow_store_at|done|eauto].
Qed.


(** ** What a computation leaves alone *)

#[local] Instance same_blocks_preorder : PreOrder (same_blocks (T := T)).
Proof.
  split.
  - by intros w.
  - intros w1 w2 w3 [HO1 HH1] [HO2 HH2]. split; [congruence|].
    intros l. by rewrite HH2, HH1.
Qed.

#[local] Instance same_buffers_preorder : PreOrder (same_buffers (T := T)).
Proof.
  split.
  - by intros w.
  - intros w1 w2 w3 [HO1 HH1] [HO2 HH2]. split.
    + intros o. by rewrite HO2, HO1.
    + intros l. by rewrite HH2, HH1.
Qed.

Lemma same_blocks_buffers (w w' : world) : same_blocks w w' → same_buffers w w'.
Proof. intros [HO HH]. split; [|done]. intros o. by rewrite HO. Qed.

Lemma preserves_ret {A} (R : relation world) `{!PreOrder R} (a : A) : preserves R (ret a).
Proof. intros w. simpl. reflexivity. Qed.

Lemma preserves_ub {A} (R : relation world) : preserves R (ub (T := T) (A := A)).
Proof. by intros w. Qed.

Lemma preserves_bind {A B} (R : relation world) `{!PreOrder R} (m : M A) (f : A → M B) :
  preserves R m → (∀ a, preserves R (f a)) → preserves R (bind m f).
Proof.
  intros Hm Hf w. specialize (Hm w). unfold bind.
  destruct (m w) as [a w1|e w1|]; [|done..].
  specialize (Hf a w1). destruct (f a w1); [..|done]; by etrans.
Qed.

Lemma preserves_on_throw {A} (R : relation world) `{!PreOrder R} (m : M A) h :
  preserves R m → preserves R h → preserves R (on_throw m h).
Proof.
  intros Hm Hh w. specialize (Hm w). unfold on_throw.
  destruct (m w) as [a w1|e w1|]; [done| |done].
  specialize (Hh w1). destruct (h w1); [|done..]. by etrans.
Qed.

Lemma preserves_mono {A} (R R' : relation world) (m : M A) :
  (∀ w w', R w w' → R' w w') → preserves R m → preserves R' m.
Proof. intros HR Hm w. specialize (Hm w). destruct (m w); auto. Qed.

Lemma preserves_may_throw e : preserves same_blocks (may_throw (T := T) e).
Proof. intros w. unfold may_throw. by destruct (faults w) as [|[] ?]. Qed.

Lemma preserves_get this : preserves same_blocks (get (T := T) this).
Proof. intros w. unfold get. by destruct (objs w !! this). Qed.

Lemma preserves_peek p : preserves same_blocks (peek (T := T) p).
Proof.
  intros w. unfold peek.
  destruct (blk p) as [l|]; [|done]. destruct (heap w !! l) as [buf|]; [|done].
  destruct (decide (0 ≤ off p)); [|done]. by destruct (buf !! Z.to_nat (off p)).
Qed.

Lemma preserves_poke p o : preserves same_blocks (poke (T := T) p o).
Proof.
  intros w. unfold poke.
  destruct (blk p) as [l|]; [|done]. destruct (heap w !! l) as [buf|] eqn:Hl; [|done].
  destruct (decide _); [|done]. split; [done|]. intros l'. cbn [heap set_heap].
  rewrite lookup_insert. case_decide; [subst|done]. rewrite Hl. split; by eauto.
Qed.

Lemma preserves_block_slots p : preserves same_blocks (block_slots (T := T) p).
Proof. by intros w. Qed.

(** Writing members other than the buffer pointer. *)
Lemma preserves_set_size this n : preserves same_buffers (set_size (T := T) this n).
Proof.
  intros w. unfold set_size, bind, get, put. destruct (objs w !! this) as [v|] eqn:Hv; [|done].
  rewrite Hv. split; [|done]. intros o. cbn [objs set_objs].
  rewrite lookup_insert. case_decide; [subst|done]. by rewrite Hv.
Qed.

Lemma preserves_set_capacity this n : preserves same_buffers (set_capacity (T := T) this n).
Proof.
  intros w. unfold set_capacity, bind, get, put.
  destruct (objs w !! this) as [v|] eqn:Hv; [|done].
  rewrite Hv. split; [|done]. intros o. cbn [objs set_objs].
  rewrite lookup_insert. case_decide; [subst|done]. by rewrite Hv.
Qed.

Create HintDb keeps.
#[local] Hint Resolve preserves_ret preserves_ub preserves_may_throw preserves_get
  preserves_peek preserves_poke preserves_block_slots : keeps.
#[local] Hint Extern 1 (PreOrder _) => apply _ : keeps.

Ltac keeps_go :=
  repeat (intros;
    first
      [ solve [auto with keeps]
      | apply preserves_bind; [apply _|..]
      | apply preserves_on_throw; [apply _|..]
      | match goal with
        | |- preserves _ (if decide ?P then _ else _) => destruct (decide P)
        | |- preserves _ (if ?b then _ else _) => destruct b
        | |- preserves _ (match ?o with _ => _ end) => destruct o
        end ]).

Lemma preserves_copy_T (x : T) : preserves same_blocks (copy_T x).
Proof. unfold copy_T. keeps_go. Qed.
Lemma preserves_read_at p : preserves same_blocks (read_at (T := T) p).
Proof. unfold read_at. keeps_go. Qed.
#[local] Hint Resolve preserves_copy_T preserves_read_at : keeps.
Lemma preserves_construct_at p (x : T) : preserves same_blocks (construct_at p x).
Proof. unfold construct_at. keeps_go. Qed.
Lemma preserves_destroy_at p : preserves same_blocks (destroy_at (T := T) p).
Proof. unfold destroy_at. keeps_go. Qed.
Lemma preserves_assign_at p (x : T) : preserves same_blocks (assign_at p x).
Proof. unfold assign_at. keeps_go. Qed.
Lemma preserves_ptr_diff p q : preserves same_blocks (ptr_diff (T := T) p q).
Proof. unfold ptr_diff. keeps_go. Qed.
Lemma preserves_begin this : preserves same_blocks (begin_ (T := T) this).
Proof. unfold begin_. keeps_go. Qed.
Lemma preserves_end this : preserves same_blocks (end_ (T := T) this).
Proof. unfold end_. keeps_go. Qed.
Lemma preserves_index this i : preserves same_blocks (index (T := T) this i).
Proof. unfold index. keeps_go. Qed.
Lemma preserves_calc_new_capacity this :
  preserves same_blocks (calc_new_capacity (T := T) this).
Proof. unfold calc_new_capacity. keeps_go. Qed.
#[local] Hint Resolve preserves_construct_at preserves_destroy_at preserves_assign_at
  preserves_ptr_diff preserves_begin preserves_end preserves_index
  preserves_calc_new_capacity : keeps.

Lemma preserves_swap_at p q : preserves same_blocks (swap_at (T := T) p q).
Proof. unfold swap_at. keeps_go. Qed.
Lemma preserves_destroy_loop n data : preserves same_blocks (destroy_loop (T := T) n data).
Proof. induction n; cbn [destroy_loop]; keeps_go. Qed.
Lemma preserves_memcpy_loop n :
  ∀ dst src i, preserves same_blocks (memcpy_loop (T := T) n dst src i).
Proof. induction n; intros; cbn [memcpy_loop]; keeps_go. Qed.
#[local] Hint Resolve preserves_swap_at preserves_destroy_loop preserves_memcpy_loop : keeps.

Lemma preserves_destroy_elements data n :
  preserves same_blocks (destroy_elements (T := T) data n).
Proof. unfold destroy_elements. keeps_go. Qed.
#[local] Hint Resolve preserves_destroy_elements : keeps.

Lemma preserves_copy_loop n :
  ∀ src dst i, preserves same_blocks (copy_loop (T := T) n src dst i).
Proof. induction n; intros; cbn [copy_loop]; keeps_go. Qed.
Lemma preserves_insert_loop fuel :
  ∀ i cur, preserves same_blocks (insert_loop (T := T) fuel i cur).
Proof. induction fuel; intros; cbn [insert_loop]; keeps_go. Qed.
Lemma preserves_erase_loop fuel :
  ∀ this i cnt, preserves same_blocks (erase_loop (T := T) fuel this i cnt).
Proof. induction fuel; intros; cbn [erase_loop]; keeps_go. Qed.
#[local] Hint Resolve preserves_copy_loop preserves_insert_loop preserves_erase_loop : keeps.

Lemma preserves_copy_elements src dst n :
  preserves same_blocks (copy_elements (T := T) src dst n).
Proof. unfold copy_elements, memcpy. keeps_go. Qed.
#[local] Hint Resolve preserves_copy_elements : keeps.

(** Members that keep the buffer. *)
Lemma keeps_buffer_lift {A} (m : M A) : preserves same_blocks m → preserves same_buffers m.
Proof. apply preserves_mono, same_blocks_buffers. Qed.

Ltac buffers_go :=
  repeat (intros;
    first
      [ solve [auto using preserves_set_size, preserves_set_capacity with keeps]
      | solve [apply keeps_buffer_lift; auto with keeps]
      | apply preserves_bind; [apply _|..]
      | match goal with
        | |- preserves _ (if decide ?P then _ else _) => destruct (decide P)
        | |- preserves _ (match ?o with _ => _ end) => destruct o
        end ]).

Lemma preserves_clear this : preserves same_buffers (clear (T := T) this).
Proof. unfold clear. buffers_go. Qed.
Lemma preserves_pop_back this : preserves same_buffers (pop_back (T := T) this).
Proof. unfold pop_back. buffers_go. Qed.
Lemma preserves_pop_loop n this : preserves same_buffers (pop_loop (T := T) n this).
Proof.
  induction n; cbn [pop_loop]; [apply preserves_ret, _|].
  apply preserves_bind; [apply _|apply preserves_pop_back|done].
Qed.
Lemma preserves_erase this first last : preserves same_buffers (erase (T := T) this first last).
Proof.
  pose proof preserves_pop_loop. unfold erase. buffers_go.
Qed.
Lemma preserves_store_at this i (x : T) : preserves same_buffers (store_at this i x).
Proof. unfold store_at. buffers_go. Qed.


(** ** The weak guarantee of [insert] and [erase] *)

(** X19: When [insert] or [erase] raises, the world is well formed and no other
    object has changed; the container holds as many elements as before,
    or after a failed [insert] possibly one more; after a failed [erase]
    its members are the ones before. *)
Theorem insert_erase_weak (w : world) this v (s : list T) :
  world_ok w → objs w !! this = Some v → elems w this = Some s →
  (∀ pos x e w', insert this pos x w = Throw e w' →
     world_ok w' ∧ (∀ o, o ≠ this → view w' o = view w o) ∧
     ∃ s', elems w' this = Some s' ∧ (length s ≤ length s' ≤ S (length s))%nat) ∧
  (∀ first last e w', erase this first last w = Throw e w' →
     world_ok w' ∧ (∀ o, o ≠ this → view w' o = view w o) ∧
     objs w' !! this = Some v ∧
     ∃ s', elems w' this = Some s' ∧ length s' = length s).
Proof.
  intros Hok Hv He. pose proof (known_rep _ _ _ _ Hok Hv He) as Hrep.
  destruct w as [O H F0]. cbn [objs heap] in *. split.
  - intros pos x e w' Hrun.
    apply (wp_throw _ _ _ _ _ _ _ (wp_insert this v s pos x O H F0 Hv Hrep)) in Hrun.
    destruct Hrun as (v' & s' & Hev & Hlen).
    destruct (evolves_world_ok (World O H F0) w' this v _ _ Hok Hv Hev) as [Hok' Hview].
    destruct (evolves_observe _ _ _ _ _ _ _ Hev) as [_ He']. eauto.
  - intros first last e w' Hrun.
    apply (wp_throw _ _ _ _ _ _ _ (wp_erase this v s first last O H F0 Hv Hrep)) in Hrun.
    destruct Hrun as (s' & Hlen & Hev).
    destruct (evolves_world_ok (World O H F0) w' this v _ _ Hok Hv Hev) as [Hok' Hview].
    destruct (evolves_observe _ _ _ _ _ _ _ Hev) as [Hv' He']. eauto 6.
Qed.

(** ** Capacity and the place of the buffer *)

Lemma grown_ne cap : 0 ≤ cap < two64 → grown cap ≠ cap.
Proof.
  intros Hc. unfold grown. destruct (decide (cap = 0)) as [->|Hne]; [done|].
  unfold wrap. intros Heq. pose proof two64_pos as Hpos.
  revert Hc Heq Hpos. generalize two64. intros m Hc Heq Hpos.
  pose proof (Z.div_mod (cap * 2) m ltac:(lia)) as Hdm. rewrite Heq in Hdm.
  set (q := cap * 2 / m) in Hdm. clearbody q.
  assert (q ≤ 0 ∨ 1 ≤ q) as [?|?] by lia; nia.
Qed.

Lemma push_back_capacity this v (s : list T) x O (H : store) F (w' : world) :
  O !! this = Some v → vec_rep H v s → ends_in (push_back this x (World O H F)) w' →
  ∃ v', objs w' !! this = Some v' ∧ capacity_ v ≤ capacity_ v' ∧
        (capacity_ v' = capacity_ v → data_ v' = data_ v).
Proof.
  intros Hv Hrep Hend. pose proof Hrep as (Hsz & Hle & Hcap & _).
  destruct (wp_ends _ _ _ _ _ (wp_weaken_ub _ _ _ _ _ (wp_push_back _ _ _ x _ _ F Hv Hrep)) Hend)
    as [(_ & v' & Hev & Hc & Hd)|(e & [[HO _]|(_ & Hfull & d' & Hev)])].
  - destruct (evolves_observe _ _ _ _ _ _ _ Hev) as [Hv' _]. exists v'. split; [done|].
    destruct Hev as (_ & (Hsz' & Hle' & _) & _). rewrite length_app in Hsz'. cbn [length] in Hsz'.
    destruct (decide (size_ v = capacity_ v)); [lia|]. split; [lia|auto].
  - exists v. rewrite HO. by split_and!.
  - destruct (evolves_observe _ _ _ _ _ _ _ Hev) as [Hv' _]. eexists. split; [done|].
    destruct Hev as (_ & (Hsz' & Hle' & _) & _). cbn [size_ capacity_ data_] in *.
    split; [lia|]. intros Heq. by destruct (grown_ne (capacity_ v) ltac:(lia)).
Qed.

(** [insert] is [push_back] followed by steps that only write into
    blocks. *)
Lemma insert_after_push this pos (x : T) (w w' : world) :
  ends_in (insert this pos x w) w' →
  ∃ w1, ends_in (push_back this x w) w1 ∧ same_blocks w1 w'.
Proof.
  assert (Hbeg : begin_ this w
            = match objs w !! this with Some v => Ok (data_ v) w | None => UB end)
    by (unfold begin_, bind, get; by destruct (objs w !! this)).
  unfold insert, bind at 1. rewrite Hbeg. destruct (objs w !! this) as [v|]; [|done].
  unfold bind at 1, ptr_diff. destruct (decide _); [|done]. unfold ret at 1.
  unfold bind at 1.
  destruct (push_back this x w) as [[] w1|e1 w1|]; [|intros <-; by exists w1|done].
  match goal with
  | |- ends_in (?m w1) w' → _ =>
      assert (Hk : preserves same_blocks m) by keeps_go;
      specialize (Hk w1); destruct (m w1)
  end; [| |done]; intros Hend; simpl in Hend; subst; by exists w1.
Qed.

(** X20: The calls other than [shrink_to_fit], assignment, [swap], constructors
    and destructor never lower the capacity, whether they return or raise,
    and they leave the buffer where it is unless the capacity has
    changed. *)
Theorem capacity_never_shrinks (c : call) (w w' : world) v :
  keeps_capacity c → world_ok w → objs w !! target c = Some v → callable w c →
  ends_in (run c w) w' →
  ∃ v', objs w' !! target c = Some v' ∧ capacity_ v ≤ capacity_ v' ∧
        (capacity_ v' = capacity_ v → data_ v' = data_ v).
Proof.
  intros Hc Hok Hv Hcall Hend. destruct w as [O H F]. cbn [objs] in Hv.
  assert (∃ s, vec_rep H v s) as (s & Hrep).
  { destruct Hok as [Hok _]. apply (vec_ok_rep (World O H F) v (Hok _ _ Hv)). }
  assert (Hsame : ∀ w' : world, objs w' = O →
            ∃ v', objs w' !! target c = Some v' ∧ capacity_ v ≤ capacity_ v' ∧
                  (capacity_ v' = capacity_ v → data_ v' = data_ v)).
  { intros w0 ->. exists v. by split_and!. }
  assert (Hev : ∀ (w' : world) d' n' c' s',
            evolves (target c) v O H w' (Vector d' n' c') s' → capacity_ v ≤ c' →
            (c' = capacity_ v → d' = data_ v) →
            ∃ v', objs w' !! target c = Some v' ∧ capacity_ v ≤ capacity_ v' ∧
                  (capacity_ v' = capacity_ v → data_ v' = data_ v)).
  { intros w0 d' n' c' s' Hev0 ? ?. destruct (evolves_observe _ _ _ _ _ _ _ Hev0) as [Hv0 _].
    eexists. by split. }
  destruct c; try done; cbn [run target] in *.
  - by eapply push_back_capacity.
  - destruct (wp_ends _ _ _ _ _ (wp_weaken_ub _ _ _ _ _ (wp_pop_back _ _ _ _ _ F Hv Hrep)) Hend)
      as [(_ & s0 & x & _ & Hev0)|(e & [])]. by eapply Hev.
  - destruct Hcall as [_ Hn].
    destruct (wp_ends _ _ _ _ _ (wp_weaken_ub _ _ _ _ _ (wp_reserve _ _ _ n _ _ F Hv Hrep Hn)) Hend)
      as [(_ & [(Hgt & d' & Hev0)|(_ & ->)])|(e & [HO _])]; [|by apply Hsame..].
    eapply Hev; [done|lia|lia].
  - destruct (wp_ends _ _ _ _ _ (wp_weaken_ub _ _ _ _ _ (wp_clear _ _ _ _ _ F Hv Hrep)) Hend)
      as [(_ & Hev0)|(e & [])]. by eapply Hev.
  - apply ends_in_forget, insert_after_push in Hend. destruct Hend as (w1 & Hpush & [HO _]).
    rewrite HO. by eapply push_back_capacity.
  - apply ends_in_forget in Hend.
    destruct (wp_ends _ _ _ _ _ (wp_weaken_ub _ _ _ _ _ (wp_erase _ _ _ _ _ _ _ F Hv Hrep)) Hend)
      as [(_ & f & l & _ & _ & [(_ & -> & _)|(_ & _ & _ & Hev0)])|(e & s' & _ & Hev0)];
      [by apply Hsame|by eapply Hev|].
    destruct v. by eapply Hev.
  - apply ends_in_forget in Hend. unfold erase1 in Hend.
    destruct (wp_ends _ _ _ _ _ (wp_weaken_ub _ _ _ _ _ (wp_erase _ _ _ _ _ _ _ F Hv Hrep)) Hend)
      as [(_ & f & l & _ & _ & [(_ & -> & _)|(_ & _ & _ & Hev0)])|(e & s' & _ & Hev0)];
      [by apply Hsame|by eapply Hev|].
    destruct v. by eapply Hev.
  - destruct (wp_ends _ _ _ _ _ (wp_weaken_ub _ _ _ _ _ (wp_store_at _ _ _ i x _ _ F Hv Hrep)) Hend)
      as [(_ & _ & Hev0)|(e & [HO _])]; [|by apply Hsame].
    destruct v. by eapply Hev.
Qed.


(** ** A run of [push_back]s inside the capacity *)

Lemma wp_raises {A} (P : exn → Prop) (m : M A) (w : world) :
  raises_only P m → wp m w (λ _ _, True) (λ e _, P e) True.
Proof. intros Hm. specialize (Hm w). unfold wp. by destruct (m w). Qed.

Lemma wp_and {A} (m : M A) (w : world) (Q1 Q2 : A → world → Prop) E1 E2 (U1 U2 : Prop) :
  wp m w Q1 E1 U1 → wp m w Q2 E2 U2 →
  wp m w (λ a w', Q1 a w' ∧ Q2 a w') (λ e w', E1 e w' ∧ E2 e w') (U1 ∧ U2).
Proof. unfold wp. by destruct (m w). Qed.

(** With room left [push_back] copies one element and allocates nothing:
    it can raise only what the copy raises. *)
Lemma wp_push_back_room_exn this v (x : T) O (H : store) F :
  O !! this = Some v → size_ v ≠ capacity_ v →
  wp (push_back this x) (World O H F) (λ _ _, True) (λ e _, e = element_error) True.
Proof.
  intros Hv Hne. unfold push_back. apply wp_bind, (wp_get _ _ _ _ _ _ _ _ Hv).
  rewrite decide_False by done. apply wp_raises. unfold construct_at, copy_T.
  raises_go.
Qed.

Lemma wp_push_all this (xs : list T) :
  ∀ (s : list T) v O (H : store) F,
    O !! this = Some v → vec_rep H v s →
    size_ v + Z.of_nat (length xs) ≤ capacity_ v →
    capacity_ v * Z.pos sizeof_T < two64 →
    wp (push_all this xs) (World O H F)
       (λ _ w', evolves this v O H w' (Vector (data_ v) (size_ v + Z.of_nat (length xs))
                                          (capacity_ v)) (s ++ xs))
       (λ e w', e = element_error ∧
          ∃ n' s', evolves this v O H w' (Vector (data_ v) n' (capacity_ v)) s')
       False.
Proof.
  induction xs as [|x xs IH]; intros s v O H F Hv Hrep Hfit Hbytes;
    cbn [push_all length] in Hfit |- *.
  { apply wp_ret. rewrite app_nil_r, Z.add_0_r. destruct v. by apply evolves_refl. }
  pose proof Hrep as (Hsz & Hle & _).
  assert (Hroom : size_ v ≠ capacity_ v) by lia.
  apply wp_bind.
  eapply wp_mono;
    [exact (wp_and _ _ _ _ _ _ _ _ (wp_push_back this v s x O H F Hv Hrep)
              (wp_push_back_room_exn this v x O H F Hv Hroom))|..].
  - intros [] [O1 H1 F1] [(v1 & Hev & Hc & Hd) _]. cbn beta.
    rewrite decide_False in Hc by done. specialize (Hd Hroom).
    destruct (evolves_observe _ _ _ _ _ _ _ Hev) as [Hv1 _]. cbn [objs] in Hv1.
    pose proof Hev as (_ & Hr1 & _). cbn [heap] in Hr1.
    pose proof Hr1 as (Hsz1 & _). rewrite length_app in Hsz1. cbn [length] in Hsz1.
    eapply wp_mono; [apply (IH (s ++ [x]) v1 O1 H1 F1 Hv1 Hr1); lia|..].
    + intros ? w' Hev'. cbn beta in Hev'. rewrite Hc, Hd in Hev'.
      replace (size_ v1 + Z.of_nat (length xs)) with (size_ v + Z.of_nat (S (length xs)))
        in Hev' by lia.
      rewrite <- app_assoc in Hev'. by eapply evolves_trans.
    + intros e w' (-> & n' & s' & Hev'). split; [done|]. exists n', s'.
      rewrite Hc, Hd in Hev'. by eapply evolves_trans.
    + done.
  - intros e w' [[[HO HH]|(_ & ? & _)] ->]; [|done]. split; [done|].
    exists (size_ v), s. destruct w' as [O' H' F']. cbn [objs heap] in *. subst.
    destruct v. by apply evolves_refl.
  - intros [Hno _]. apply Hno. unfold has_room. rewrite decide_False by done.
    rewrite alloc_slots_fit by lia. lia.
Qed.

Lemma nothrow_push_all this (xs : list T) : nothrow (push_all this xs).
Proof. induction xs; cbn [push_all]; nothrow_go. Qed.

(** X21: While the elements fit the capacity, a run of [push_back]s never moves
    the buffer and never changes the capacity, however the run ends; it
    raises nothing but what an element copy raises (no allocation is
    tried); when it returns the elements have been appended in order.  With
    a quiet schedule it returns. *)
Theorem push_within_capacity (w : world) this v (s xs : list T) :
  world_ok w → objs w !! this = Some v → elems w this = Some s →
  size_ v + Z.of_nat (length xs) ≤ capacity_ v →
  capacity_ v * Z.pos sizeof_T < two64 →
  (∀ w', ends_in (push_all this xs w) w' →
     data_of w' this = Some (data_ v) ∧ capacity_of w' this = Some (capacity_ v)) ∧
  (∀ w', push_all this xs w = Ok tt w' →
     elems w' this = Some (s ++ xs) ∧
     size_of w' this = Some (size_ v + Z.of_nat (length xs))) ∧
  (∀ e w', push_all this xs w = Throw e w' → e = element_error) ∧
  (quiet w → ∃ w', push_all this xs w = Ok tt w').
Proof.
  intros Hok Hv He Hfit Hbytes. pose proof (known_rep _ _ _ _ Hok Hv He) as Hrep.
  destruct w as [O H F0]. cbn [objs heap] in *.
  pose proof (wp_push_all this xs s v O H F0 Hv Hrep Hfit Hbytes) as Hwp. split_and!.
  - intros w' Hend.
    destruct (wp_ends _ _ _ _ _ (wp_weaken_ub _ _ _ _ _ Hwp) Hend)
      as [(_ & Hev)|(e & _ & n' & s' & Hev)];
      destruct (evolves_observe _ _ _ _ _ _ _ Hev) as [Hv' _];
      by destruct (observe_members _ _ _ Hv') as (_ & ? & ?).
  - intros w' Hrun. apply (wp_ok _ _ _ _ _ _ _ Hwp) in Hrun.
    destruct (evolves_observe _ _ _ _ _ _ _ Hrun) as [Hv' He'].
    by destruct (observe_members _ _ _ Hv') as (? & _).
  - intros e w' Hrun. by apply (wp_throw _ _ _ _ _ _ _ Hwp) in Hrun as [-> _].
  - intros Hq.
    destruct (wp_total _ _ _ _ _ Hwp) as ([] & w' & Hrun & _);
      [tauto|apply nothrow_push_all|done|eauto].
Qed.

(** ** The byte count of an allocation is not checked *)

(** X22: [reserve(n)] computes [n * sizeof(T)] in [size_t].  When the product
    wraps so that the block obtained has just the slots the elements fill,
    [reserve] still returns and records capacity [n]; the world is well
    formed in the sense of the invariants, but the next [push_back] writes
    behind the block: undefined behaviour. *)
Theorem reserve_overflow (w : world) this v (s : list T) n x :
  world_ok w → objs w !! this = Some v → elems w this = Some s →
  capacity_ v < n < two64 → alloc_slots n = length s → quiet w →
  ∃ w', reserve this n w = Ok tt w' ∧
    capacity_of w' this = Some n ∧ size_of w' this = Some (size_ v) ∧
    world_ok w' ∧ push_back this x w' = UB.
Proof.
  intros Hok Hv He Hn Hslots Hq. pose proof (known_rep _ _ _ _ Hok Hv He) as Hrep.
  pose proof Hrep as (Hsz & Hle & _).
  destruct w as [O H F0]. cbn [objs heap] in *.
  pose proof (wp_reserve this v s n O H F0 Hv Hrep ltac:(lia)) as Hwp.
  destruct (wp_total _ _ _ _ _ Hwp) as ([] & w' & Hrun & Hpost & Hq');
    [lia|auto with nothrow|done|].
  destruct Hpost as [(_ & d' & Hev)|(? & _)]; [|lia].
  exists w'. split; [done|].
  destruct (evolves_observe _ _ _ _ _ _ _ Hev) as [Hv' He'].
  destruct (observe_members _ _ _ Hv') as (Hs & Hc & _).
  destruct (evolves_world_ok (World O H F0) w' this v _ _ Hok Hv Hev) as [Hok' _].
  split_and!; [done..|].
  pose proof Hev as (_ & Hr' & _). destruct w' as [O' H' F']. cbn [objs heap] in *.
  pose proof (wp_push_back this _ s x O' H' F' Hv' Hr') as Hwp'.
  pose proof (nothrow_push_back this x (World O' H' F') Hq') as Hno.
  unfold wp in Hwp'. destruct (push_back this x (World O' H' F')) as [[] w2|e w2|]; [|done..].
  destruct Hwp' as (v2 & (_ & Hr2 & _) & Hc2 & _). cbn [size_ capacity_] in Hc2.
  rewrite decide_False in Hc2 by lia.
  destruct Hr2 as (_ & _ & _ & _ & Hb). rewrite Hc2 in Hb.
  destruct (blk (data_ v2)); [|lia]. destruct Hb as (_ & Hlen & _).
  rewrite length_app in Hlen. cbn [length] in Hlen. lia.
Qed.


(** ** [erase] at the end *)

(** X23: [erase(end())] is undefined behaviour: the first loop reads the slot
    behind the last element. *)
Theorem erase_at_end_undefined (w : world) this v (s : list T) :
  world_ok w → objs w !! this = Some v → elems w this = Some s →
  erase1 this (ptr_add (data_ v) (size_ v)) w = UB.
Proof.
  intros Hok Hv He. pose proof (known_rep _ _ _ _ Hok Hv He) as Hrep.
  pose proof Hrep as (Hsz & _).
  destruct w as [O H F0]. cbn [objs heap] in *.
  apply wp_is_ub. unfold erase1, erase.
  apply wp_bind, (wp_begin _ _ _ _ _ _ _ _ Hv). apply wp_bind.
  unfold ptr_diff at 1. cbn [blk ptr_add off]. rewrite decide_True by done. apply wp_ret.
  apply wp_bind, (wp_begin _ _ _ _ _ _ _ _ Hv). apply wp_bind.
  unfold ptr_diff at 1. cbn [blk ptr_add off]. rewrite decide_True by done. apply wp_ret.
  rewrite decide_False by lia.
  apply wp_bind, (wp_begin _ _ _ _ _ _ _ _ Hv). apply wp_bind, wp_block_slots. intros n _.
  apply wp_bind. cbn [erase_loop].
  apply wp_bind, (wp_end _ _ _ _ _ _ _ _ Hv).
  rewrite decide_False by (unfold ptr_add; cbn [blk off]; intros [=]; lia).
  apply wp_bind. unfold swap_at. apply wp_bind.
  apply (wp_read_elem v s); [done| |done].
  intros y _ Hy. apply lookup_lt_Some in Hy. lia.
Qed.


(** ** No block is ever lost *)

Lemma wp_keeps {A} (R : relation world) (m : M A) (w : world)
    (Q : A → world → Prop) (E : exn → world → Prop) :
  preserves R m → (∀ a w', R w w' → Q a w') → (∀ e w', R w w' → E e w') →
  wp m w Q E True.
Proof. intros Hm HQ HE. specialize (Hm w). unfold wp. destruct (m w); auto. Qed.

Lemma wp_keeps_noexcept {A} (R : relation world) (m : M A) (w : world)
    (Q : A → world → Prop) (E : exn → world → Prop) :
  preserves R m → raises_only (λ _, False) m → (∀ a w', R w w' → Q a w') →
  wp m w Q E True.
Proof.
  intros Hm Hr HQ. specialize (Hm w). specialize (Hr w). unfold wp.
  destruct (m w); [auto|done..].
Qed.

Lemma wp_get_any this (w : world) (Q : vector → world → Prop) E :
  (∀ v, objs w !! this = Some v → Q v w) → wp (get this) w Q E True.
Proof. intros HQ. unfold wp, get. destruct (objs w !! this); auto. Qed.

Lemma wp_put_any this v (w : world) (Q : unit → world → Prop) E :
  (∀ v0, objs w !! this = Some v0 → Q tt (set_objs (<[this := v]> (objs w)) w)) →
  wp (put this v) w Q E True.
Proof. intros HQ. unfold wp, put. destruct (objs w !! this); eauto. Qed.

Lemma wp_operator_delete_any p (w : world) (Q : unit → world → Prop) E :
  Q tt (set_heap (drop_block p (heap w)) w) → wp (operator_delete p) w Q E True.
Proof.
  intros HQ. unfold wp, operator_delete. unfold drop_block in HQ.
  destruct (blk p) as [l|].
  - destruct (heap w !! l); [|done]. by destruct (decide _).
  - destruct (decide _); [|done]. by destruct w.
Qed.

Lemma wp_allocate_data_any n (w : world) (Q : ptr → world → Prop) E :
  (∀ F' l, heap w !! l = None →
     Q (Ptr (Some l) 0)
       (World (objs w) (<[l := replicate (alloc_slots n) None]> (heap w)) F')) →
  (∀ F', E bad_alloc (set_faults F' w)) →
  wp (allocate_data n) w Q E True.
Proof. intros HQ HE. destruct w as [O H F]. by apply wp_allocate_data. Qed.

Lemma drop_block_lookup d (H : store) l :
  is_Some (drop_block d H !! l) → is_Some (H !! l) ∧ blk d ≠ Some l.
Proof.
  unfold drop_block. destruct (blk d) as [l'|]; [|by split].
  rewrite lookup_delete. case_decide; [by intros []|]. split; [done|congruence].
Qed.

Lemma garbage_in_same X (w w' : world) :
  same_buffers w w' → garbage_in X w → garbage_in X w'.
Proof.
  intros [HO HH] Hg l Hl. apply HH in Hl. destruct (Hg l Hl) as [?|(o & v & Hv & Hb)]; [by left|].
  right. specialize (HO o). rewrite Hv in HO. cbn in HO.
  destruct (objs w' !! o) as [v'|] eqn:Hv'; simplify_eq/=. exists o, v'. split; [done|]. congruence.
Qed.

Lemma no_garbage_in (w : world) : no_garbage w ↔ garbage_in None w.
Proof.
  split; intros Hg l Hl; [right; by apply Hg|]. by destruct (Hg l Hl).
Qed.

Lemma no_garbage_same (w w' : world) : same_buffers w w' → no_garbage w → no_garbage w'.
Proof. rewrite !no_garbage_in. apply garbage_in_same. Qed.

Lemma no_garbage_weaken X (w : world) : no_garbage w → garbage_in X w.
Proof. intros Hg l Hl. right. by apply Hg. Qed.

Lemma leak_free_bind {A B} (m : M A) (f : A → M B) :
  leak_free m → (∀ a, leak_free (f a)) → leak_free (bind m f).
Proof.
  intros Hm Hf w Hg. specialize (Hm w Hg). unfold bind.
  destruct (m w) as [a w1| |]; [|done..]. by apply Hf.
Qed.

Lemma leak_free_on_throw {A} (m : M A) h :
  leak_free m → leak_free h → leak_free (on_throw m h).
Proof.
  intros Hm Hh w Hg. specialize (Hm w Hg). unfold on_throw.
  destruct (m w) as [|e w1|]; [done| |done].
  specialize (Hh w1 Hm). by destruct (h w1).
Qed.

Lemma leak_free_keeps {A} (m : M A) : preserves same_buffers m → leak_free m.
Proof.
  intros Hm w Hg. specialize (Hm w). destruct (m w); [| |done]; by eapply no_garbage_same.
Qed.

Lemma leak_free_wp {A} (m : M A) :
  (∀ w, no_garbage w → wp m w (λ _ w', no_garbage w') (λ _ w', no_garbage w') True) →
  leak_free m.
Proof. intros Hm w Hg. apply (Hm w Hg). Qed.

(** [new_buffer] from the point where the new block is in flight: a throw
    of the relocation releases it, and at the end the old buffer has been
    released and the container owns the new one. *)
Lemma new_buffer_rest_leak_free this new_data n (w : world) :
  garbage_in (blk new_data) w →
  wp (let* v := get this in
      (if decide (size_ v ≠ 0) then
         on_throw (copy_elements (data_ v) new_data (size_ v)) (operator_delete new_data);;
         destroy_elements (data_ v) (size_ v)
       else ret tt);;
      let* v := get this in
      operator_delete (data_ v);;
      set_data this new_data;;
      set_capacity this n)
     w (λ _ w', no_garbage w') (λ _ w', no_garbage w') True.
Proof.
  intros Hg. apply wp_bind, wp_get_any. intros v Hv. apply wp_bind.
  apply (wp_mono _ _ (λ _ w', garbage_in (blk new_data) w') _ (λ _ w', no_garbage w') _ True);
    [|clear dependent v|done..].
  { destruct (decide (size_ v ≠ 0)); [|by apply wp_ret].
    apply wp_bind, wp_on_throw.
    eapply (wp_keeps same_buffers); [apply keeps_buffer_lift, preserves_copy_elements|..].
    - intros _ w1 Hs. eapply (wp_keeps_noexcept same_buffers);
        [apply keeps_buffer_lift, preserves_destroy_elements
        |apply raises_only_destroy_elements|].
      intros _ w2 Hs2. by eapply garbage_in_same, garbage_in_same.
    - intros e w1 Hs. apply wp_operator_delete_any.
      pose proof (garbage_in_same _ _ _ Hs Hg) as Hg1. intros l Hl. cbn [heap set_heap] in Hl.
      apply drop_block_lookup in Hl as [Hl Hne]. destruct (Hg1 l Hl) as [?|?]; [congruence|done]. }
  intros [] w2 Hg2. apply wp_bind, wp_get_any. intros v Hv.
  apply wp_bind, wp_operator_delete_any. apply wp_bind.
  unfold set_data. apply wp_bind, wp_get_any. intros v' Hv'. cbn [objs set_heap] in Hv'.
  assert (v' = v) as -> by congruence.
  apply wp_put_any. intros _ _.
  apply (wp_keeps same_buffers); [apply preserves_set_capacity| |];
    intros _ w3 Hs; (eapply no_garbage_same; [exact Hs|]);
    intros l Hl; cbn [heap objs set_objs set_heap] in *;
    apply drop_block_lookup in Hl as [Hl Hne];
    (destruct (Hg2 l Hl) as [Hnew|(o & vo & Ho & Hb)];
      [exists this; eexists; by rewrite lookup_insert_eq|]);
    (destruct (decide (o = this)) as [->|Hot]; [congruence|]);
    exists o, vo; by rewrite lookup_insert_ne.
Qed.


Lemma no_garbage_faults (w : world) F : no_garbage w → no_garbage (set_faults F w).
Proof. done. Qed.

Lemma leak_free_new_buffer this n : leak_free (new_buffer (T := T) this n).
Proof.
  apply leak_free_wp. intros w Hg. unfold new_buffer. apply wp_bind.
  destruct (decide (n ≠ 0)).
  - apply wp_allocate_data_any; [|done]. intros F' l Hfresh.
    apply new_buffer_rest_leak_free. intros l' Hl'. cbn [heap blk objs] in *.
    rewrite lookup_insert in Hl'. case_decide; [left; congruence|right; by apply Hg].
  - apply wp_ret. by apply new_buffer_rest_leak_free, no_garbage_weaken.
Qed.

Lemma leak_free_vector_default this : leak_free (vector_default (T := T) this).
Proof.
  intros w Hg. unfold vector_default. destruct (objs w !! this) eqn:Hn; [done|].
  intros l Hl. destruct (Hg l Hl) as (o & v & Hv & Hb). exists o, v. split; [|done].
  cbn [objs set_objs]. rewrite lookup_insert_ne; [done|congruence].
Qed.

Lemma leak_free_vector_dtor this : leak_free (vector_dtor (T := T) this).
Proof.
  unfold vector_dtor. apply leak_free_bind; [apply leak_free_keeps, preserves_clear|intros _].
  apply leak_free_wp. intros w Hg. apply wp_bind, wp_get_any. intros v Hv.
  apply wp_bind, wp_operator_delete_any. unfold wp. cbn [heap objs set_objs set_heap].
  intros l Hl. cbn [heap objs set_objs set_heap] in *.
  apply drop_block_lookup in Hl as [Hl Hne].
  destruct (Hg l Hl) as (o & vo & Ho & Hb).
  destruct (decide (o = this)) as [->|Hot]; [congruence|].
  exists o, vo. by rewrite lookup_delete_ne.
Qed.

Lemma leak_free_swap this other : leak_free (swap (T := T) this other).
Proof.
  intros [O H F] Hg.
  destruct (O !! this) as [va|] eqn:Ha;
    [|unfold swap, bind, get; cbn [objs]; by rewrite Ha].
  destruct (O !! other) as [vb|] eqn:Hb;
    [|unfold swap, bind, get; cbn [objs]; rewrite Ha; cbn [objs]; by rewrite Hb].
  rewrite (wp_exact (swap this other) (World O H F)
             (World (<[other := va]> (<[this := vb]> O)) H F) tt)
    by (by eapply wp_swap).
  intros l Hl. destruct (Hg l Hl) as (o & vo & Ho & Hbl). cbn [objs] in *.
  destruct (decide (o = this)) as [->|Hot].
  { exists other, va. rewrite lookup_insert_eq. split; [done|congruence]. }
  destruct (decide (o = other)) as [->|Hoo].
  { exists this, vb. rewrite lookup_insert_ne, lookup_insert_eq by done.
    split; [done|congruence]. }
  exists o, vo. by rewrite !lookup_insert_ne.
Qed.

Lemma wp_leak_free {A} (m : M A) (w : world) E :
  leak_free m → no_garbage w →
  wp m w (λ _ w', no_garbage w') (λ e w', E e w' ∨ no_garbage w') True.
Proof.
  intros Hm Hg. specialize (Hm w Hg). unfold wp. destruct (m w); auto.
Qed.

(** The copy constructor: the block it obtains is owned by the new object
    before anything can raise, and the destructor run by a throw releases
    it. *)
Lemma leak_free_vector_copy this other : leak_free (vector_copy (T := T) this other).
Proof.
  apply leak_free_wp. intros [O H F] Hg. unfold vector_copy. apply wp_bind.
  pose proof (leak_free_vector_default this (World O H F) Hg) as Hg1.
  unfold wp, vector_default in *. cbn [objs] in *.
  destruct (O !! this) eqn:Hn; [done|]. cbn [set_objs objs heap faults] in *.
  apply wp_on_throw.
  apply (wp_mono _ _ (λ _ w', no_garbage w') _ (λ _ w', no_garbage w') _ True);
    [|done| |done].
  2:{ intros e w' Hg'. eapply wp_mono;
        [apply (wp_leak_free (vector_dtor this) w' (λ _ _, False));
           [apply leak_free_vector_dtor|done]
        |done..]. }
  apply wp_bind, wp_get_any. intros vo Hvo.
  destruct (decide (size_ vo ≠ 0)); [|by apply wp_ret].
  apply wp_bind, wp_allocate_data_any; [|done]. intros F' l Hfresh.
  apply wp_bind. unfold set_data. apply wp_bind, wp_get_any. intros v Hv.
  cbn [objs set_objs heap faults] in Hv, Hg1, Hfresh |- *.
  rewrite lookup_insert_eq in Hv. injection Hv as <-.
  apply wp_put_any. intros _ _. cbn [objs set_objs heap faults size_ capacity_].
  assert (Hk : preserves same_buffers
            (let* t := get this in
             copy_elements (data_ vo) (data_ t) (size_ vo);;
             set_size this (size_ vo);;
             let* t0 := get this in set_capacity this (size_ t0))) by buffers_go.
  apply (wp_keeps same_buffers); [exact Hk| |];
    intros _ w3 Hs; (eapply no_garbage_same; [exact Hs|]);
    intros l' Hl'; cbn [heap objs set_objs set_heap] in *;
    (rewrite lookup_insert in Hl'; case_decide;
      [subst l'; exists this; eexists; by rewrite lookup_insert_eq|]);
    destruct (Hg1 l' Hl') as (o & vo' & Ho & Hb); cbn [objs set_objs] in Ho;
    (destruct (decide (o = this)) as [->|Hot];
      [rewrite lookup_insert_eq in Ho; by simplify_eq/=|]);
    exists o, vo'; by rewrite lookup_insert_ne.
Qed.


Lemma leak_free_ret {A} (a : A) : leak_free (ret (T := T) a).
Proof. by intros w Hg. Qed.

Lemma preserves_temporary : preserves same_blocks (temporary (T := T)).
Proof. by intros w. Qed.

Create HintDb leaks.
#[local] Hint Resolve leak_free_ret leak_free_new_buffer leak_free_vector_default
  leak_free_vector_dtor leak_free_swap leak_free_vector_copy : leaks.

Ltac leak_go :=
  repeat (intros;
    first
      [ solve [auto with leaks]
      | solve [apply leak_free_keeps;
               auto using preserves_clear, preserves_pop_back, preserves_erase,
                 preserves_store_at, preserves_set_size, preserves_set_capacity,
                 preserves_temporary, keeps_buffer_lift with keeps]
      | apply leak_free_bind
      | apply leak_free_on_throw
      | match goal with
        | |- leak_free (if decide ?P then _ else _) => destruct (decide P)
        end ]).

Lemma leak_free_push_back this (x : T) : leak_free (push_back this x).
Proof. unfold push_back. leak_go. Qed.
Lemma leak_free_reserve this n : leak_free (reserve (T := T) this n).
Proof. unfold reserve. leak_go. Qed.
Lemma leak_free_shrink_to_fit this : leak_free (shrink_to_fit (T := T) this).
Proof. unfold shrink_to_fit. leak_go. Qed.
Lemma leak_free_assign this other : leak_free (assign (T := T) this other).
Proof. unfold assign. leak_go. Qed.
#[local] Hint Resolve leak_free_push_back leak_free_reserve leak_free_shrink_to_fit
  leak_free_assign : leaks.

Lemma leak_free_insert this pos (x : T) : leak_free (insert this pos x).
Proof. unfold insert. leak_go. Qed.
Lemma leak_free_erase1 this pos : leak_free (erase1 (T := T) this pos).
Proof. unfold erase1. leak_go. Qed.
#[local] Hint Resolve leak_free_insert leak_free_erase1 : leaks.

Lemma leak_free_run (c : call) : leak_free (run c).
Proof. destruct c; cbn [run]; leak_go. Qed.

(** X24: No call ever loses a block: in every world a program can reach, each
    block of the free store is the buffer of a live container, and it stays
    so after any further call, whether the call returns or raises. *)
Theorem no_leaks (w : world) :
  reachable w →
  no_garbage w ∧ ∀ c w', ends_in (run c w) w' → no_garbage w'.
Proof.
  assert (Hstep : ∀ c (w w' : world), no_garbage w → ends_in (run c w) w' → no_garbage w').
  { intros c w0 w' Hg Hend. pose proof (leak_free_run c w0 Hg) as Hl.
    destruct (run c w0); simpl in Hend; by subst. }
  intros Hr. assert (Hg : no_garbage w); [|by eauto].
  induction Hr as [F|w F _ IH|w c w' _ IH Hcall Hend].
  - intros l [buf Hl]. cbn [heap] in Hl. by rewrite lookup_empty in Hl.
  - by apply no_garbage_faults.
  - by eapply Hstep.
Qed.


(** ** Arguments that refer into the container *)

Lemma bind_ext_l {A B} (m1 m2 : M A) (f : A → M B) (w : world) :
  m1 w = m2 w → bind m1 f w = bind m2 f w.
Proof. unfold bind. by intros ->. Qed.

(** Reading an element of a well-formed container changes nothing. *)
Lemma read_own_element (w : world) this v (s : list T) (i : nat) x :
  world_ok w → objs w !! this = Some v → elems w this = Some s → s !! i = Some x →
  read_at (ptr_add (data_ v) (Z.of_nat i)) w = Ok x w.
Proof.
  intros Hok Hv He Hx. pose proof (known_rep _ _ _ _ Hok Hv He) as Hrep.
  destruct w as [O H F0]. cbn [objs heap] in *.
  apply wp_exact, (wp_read_elem v s); [done| |].
  - intros y _ Hy. rewrite Nat2Z.id in Hy. split; congruence.
  - intros Hout. apply Hout. apply lookup_lt_Some in Hx. lia.
Qed.

(** X25: [push_back] and [insert] may be given a reference to an element of
    the container itself, [v.push_back(v[i])]: the element is copied before
    the buffer is released, so the call does what it does for the value
    [s[i]], also when it reallocates. *)
Theorem own_element_argument (w : world) this v (s : list T) (i : nat) x :
  world_ok w → objs w !! this = Some v → elems w this = Some s → s !! i = Some x →
  push_back_ref this (ptr_add (data_ v) (Z.of_nat i)) w = push_back this x w ∧
  (∀ pos, insert_ref this pos (ptr_add (data_ v) (Z.of_nat i)) w = insert this pos x w) ∧
  (∀ w', push_back_ref this (ptr_add (data_ v) (Z.of_nat i)) w = Ok tt w' →
     elems w' this = Some (s ++ [x])).
Proof.
  intros Hok Hv He Hx.
  pose proof (read_own_element w this v s i x Hok Hv He Hx) as Hread.
  assert (Hpush : push_back_ref this (ptr_add (data_ v) (Z.of_nat i)) w = push_back this x w).
  { unfold push_back_ref, push_back.
    rewrite !(bind_ok_l (get this) _ w v w) by (unfold get; by rewrite Hv).
    apply bind_ext_l.
    destruct (decide (size_ v = capacity_ v)); by rewrite (bind_ok_l _ _ _ _ _ Hread). }
  split; [done|]. split.
  - intros pos. unfold insert_ref, insert.
    assert (Hb : begin_ this w = Ok (data_ v) w)
      by (unfold begin_, bind, get; by rewrite Hv).
    rewrite !(bind_ok_l _ _ _ _ _ Hb). unfold ptr_diff.
    destruct (decide (blk pos = blk (data_ v))); [|done].
    rewrite !(bind_ok_l (ret _) _ w _ w) by done. by apply bind_ext_l.
  - intros w' Hrun. rewrite Hpush in Hrun.
    pose proof (known_rep _ _ _ _ Hok Hv He) as Hrep.
    destruct w as [O H F0]. cbn [objs heap] in *.
    apply (wp_ok _ _ _ _ _ _ _ (wp_push_back this v s x O H F0 Hv Hrep)) in Hrun.
    destruct Hrun as (v' & Hev & _). by destruct (evolves_observe _ _ _ _ _ _ _ Hev).
Qed.


(** ** The blocks behind a reallocation *)

Lemma wp_true {A} (m : M A) (w : world) : wp m w (λ _ _, True) (λ _ _, True) True.
Proof. unfold wp. by destruct (m w). Qed.

Lemma drop_block_is_Some d (H : store) l :
  is_Some (drop_block d H !! l) ↔ is_Some (H !! l) ∧ blk d ≠ Some l.
Proof.
  split; [apply drop_block_lookup|]. intros [Hl Hne]. unfold drop_block.
  destruct (blk d) as [l'|]; [|done]. rewrite lookup_delete_ne; [done|congruence].
Qed.

(** [new_buffer] from the point where the new buffer is known: the blocks
    there are at the end are those there were, less the old buffer, and the
    container has the new buffer. *)
Lemma new_buffer_rest_blocks this v new_data n (w : world) :
  objs w !! this = Some v →
  wp (let* v := get this in
      (if decide (size_ v ≠ 0) then
         on_throw (copy_elements (data_ v) new_data (size_ v)) (operator_delete new_data);;
         destroy_elements (data_ v) (size_ v)
       else ret tt);;
      let* v := get this in
      operator_delete (data_ v);;
      set_data this new_data;;
      set_capacity this n)
     w
     (λ _ w', data_of w' this = Some new_data ∧
        ∀ l, is_Some (heap w' !! l) ↔ is_Some (heap w !! l) ∧ blk (data_ v) ≠ Some l)
     (λ _ _, True) True.
Proof.
  intros Hv. apply wp_bind, wp_get_any. intros v0 Hv0.
  assert (v0 = v) as -> by congruence. clear Hv0.
  apply wp_bind.
  apply (wp_mono _ _ (λ _ w', same_blocks w w') _ (λ _ _, True) _ True); [| |done..].
  { destruct (decide (size_ v ≠ 0)); [|by apply wp_ret].
    apply wp_bind, wp_on_throw.
    eapply (wp_keeps same_blocks); [apply preserves_copy_elements| |].
    - intros _ w1 Hs. eapply (wp_keeps same_blocks); [apply preserves_destroy_elements| |done].
      intros _ w2 Hs2. by etrans.
    - intros e w1 Hs. apply wp_true. }
  intros [] w2 [HO HH]. apply wp_bind, wp_get_any. intros v0 Hv0.
  assert (v0 = v) as -> by congruence. clear Hv0.
  apply wp_bind, wp_operator_delete_any. apply wp_bind.
  unfold set_data. apply wp_bind, wp_get_any. intros v' Hv'. cbn [objs set_heap] in Hv'.
  assert (v' = v) as -> by congruence.
  apply wp_put_any. intros _ _.
  apply (wp_keeps same_buffers); [apply preserves_set_capacity| |done].
  intros _ w3 [Hd Hh]. split.
  - unfold data_of. rewrite Hd. cbn [objs set_objs]. by rewrite lookup_insert_eq.
  - intros l. rewrite Hh. cbn [heap set_objs set_heap]. by rewrite drop_block_is_Some, HH.
Qed.

Lemma new_buffer_blocks this v n (w : world) :
  objs w !! this = Some v →
  (∀ l, blk (data_ v) = Some l → is_Some (heap w !! l)) →
  wp (new_buffer this n) w
     (λ _ w', ∃ d', data_of w' this = Some d' ∧
        (n = 0 → d' = nullptr) ∧
        (∀ l, blk d' = Some l → heap w !! l = None) ∧
        ∀ l, is_Some (heap w' !! l) ↔
             blk d' = Some l ∨ (is_Some (heap w !! l) ∧ blk (data_ v) ≠ Some l))
     (λ _ _, True) True.
Proof.
  intros Hv Hold. unfold new_buffer. apply wp_bind.
  destruct (decide (n ≠ 0)) as [Hn|Hn].
  - apply wp_allocate_data_any; [|done]. intros F' l Hfresh.
    eapply wp_mono; [apply (new_buffer_rest_blocks this v); exact Hv| |done..].
    intros _ w' [Hd Hh]. exists (Ptr (Some l) 0). split; [done|]. split; [done|].
    cbn [blk heap] in *. split; [by intros l' [= <-]|].
    intros l'. rewrite Hh, lookup_insert. split.
    + intros [Hl Hne]. case_decide; [left; congruence|by right].
    + intros [[= <-]|[Hl Hne]].
      * rewrite decide_True by done. split; [done|]. intros Heq.
        destruct (Hold _ Heq) as [? Hc]. congruence.
      * split; [|done]. by case_decide.
  - apply wp_ret.
    eapply wp_mono; [apply (new_buffer_rest_blocks this v); exact Hv| |done..].
    intros _ w' [Hd Hh]. exists nullptr. split; [done|]. split; [done|].
    cbn [blk nullptr]. split; [done|]. intros l'. rewrite Hh. split; [by right|].
    by intros [?|?].
Qed.

(** After a returning [new_buffer(n)] with [n] not 0: the container has a
    fresh block with the slots [allocate_data(n)] obtains, the elements in
    its first slots; the old buffer is gone; every other block is as it
    was. *)
Lemma new_buffer_returns this v (s : list T) n O (H : store) F (w' : world) :
  world_ok (World O H F) → O !! this = Some v → vec_rep H v s → 0 ≤ n < two64 →
  new_buffer this n (World O H F) = Ok tt w' →
  elems w' this = Some s ∧ size_of w' this = Some (size_ v) ∧
  capacity_of w' this = Some n ∧
  world_ok w' ∧ (∀ o, o ≠ this → view w' o = view (World O H F) o) ∧
  ∃ d', data_of w' this = Some d' ∧
    (n = 0 → d' = nullptr) ∧
    (n ≠ 0 → ∃ l', d' = Ptr (Some l') 0 ∧ H !! l' = None ∧
               heap w' !! l' = Some (filled s (alloc_slots n))) ∧
    (∀ l, blk (data_ v) = Some l → heap w' !! l = None) ∧
    (∀ l, blk (data_ v) ≠ Some l → blk d' ≠ Some l → heap w' !! l = H !! l).
Proof.
  intros Hok Hv Hrep Hn Hrun.
  assert (Hold : ∀ l, blk (data_ v) = Some l → is_Some (H !! l)).
  { intros l Hl. destruct (vec_rep_data _ _ _ Hrep) as [(Hd & _)|(l0 & Hd & _ & _ & Hl0)].
    - rewrite Hd in Hl. done.
    - rewrite Hd in Hl. cbn in Hl. injection Hl as <-. by eexists. }
  pose proof (wp_ok _ _ _ _ _ _ _ (new_buffer_blocks this v n (World O H F) Hv Hold) Hrun)
    as (d' & Hd' & Hnull & Hfresh & Hdom).
  pose proof (wp_ok _ _ _ _ _ _ _ (wp_new_buffer this v s n O H F Hv Hrep Hn) Hrun)
    as (d0 & Hev).
  destruct (evolves_observe _ _ _ _ _ _ _ Hev) as [Hv' He'].
  destruct (observe_members _ _ _ Hv') as (Hs & Hc & Hd).
  cbn [data_ size_ capacity_] in Hs, Hc, Hd.
  assert (d0 = d') as -> by congruence.
  destruct (evolves_world_ok (World O H F) w' this v _ _ Hok Hv Hev) as [Hok' Hview].
  split_and!; [done..|]. exists d'. cbn [heap] in *. split_and!; [done|done| | |].
  - intros Hne. destruct Hev as (_ & Hr' & _).
    destruct (vec_rep_data _ _ _ Hr') as [(_ & Hc0 & _)|(l' & Hdl & _ & _ & Hl')];
      cbn [data_ capacity_] in *; [done|].
    exists l'. split; [done|]. split; [|done]. apply Hfresh. by rewrite Hdl.
  - intros l Hl. destruct (heap w' !! l) eqn:Hl'; [|done]. exfalso.
    destruct (proj1 (Hdom l) ltac:(by eexists)) as [Hnew|[_ Hne]]; [|done].
    destruct (Hold l Hl) as [? Hc0]. rewrite (Hfresh l Hnew) in Hc0. done.
  - intros l Hne Hne'. destruct (H !! l) eqn:Hl.
    + destruct Hev as (_ & _ & Hfr & _). rewrite <- Hl. apply Hfr; [done|]. by rewrite Hl.
    + destruct (heap w' !! l) eqn:Hl'; [|done]. exfalso.
      destruct (proj1 (Hdom l) ltac:(by eexists)) as [Hnew|[[? Hc0] _]]; [done|].
      rewrite Hl in Hc0. done.
Qed.


Lemma filled_full (s : list T) : filled s (length s) = Some <$> s.
Proof. unfold filled. by rewrite Nat.sub_diag, app_nil_r. Qed.

(** C9: a [shrink_to_fit] that returns leaves capacity equal to size, the
    size and the element sequence as before, the world well formed and all
    other objects as they were.  With [size < capacity] it has reallocated
    to exactly [size] slots: the buffer is a block that did not exist, of
    [size] slots that all hold the elements (no buffer at all for an empty
    container), the old buffer has been released, and every other block is
    as it was.  With [size == capacity] it changes nothing at all.  With a
    quiet schedule it returns. *)
Theorem shrink_to_fit_spec (w : world) this v (s : list T) :
  world_ok w → objs w !! this = Some v → elems w this = Some s →
  (∀ w', shrink_to_fit this w = Ok tt w' →
     elems w' this = Some s ∧ size_of w' this = Some (size_ v) ∧
     capacity_of w' this = Some (size_ v) ∧
     world_ok w' ∧ (∀ o, o ≠ this → view w' o = view w o) ∧
     (size_ v < capacity_ v →
        ∃ d', data_of w' this = Some d' ∧
          (s = [] → d' = nullptr) ∧
          (s ≠ [] → ∃ l', d' = Ptr (Some l') 0 ∧ heap w !! l' = None ∧
                      heap w' !! l' = Some (Some <$> s)) ∧
          (∀ l, blk (data_ v) = Some l → heap w' !! l = None) ∧
          (∀ l, blk (data_ v) ≠ Some l → blk d' ≠ Some l →
                heap w' !! l = heap w !! l))) ∧
  (size_ v = capacity_ v → shrink_to_fit this w = Ok tt w) ∧
  (quiet w → ∃ w', shrink_to_fit this w = Ok tt w').
Proof.
  intros Hok Hv He. pose proof (known_rep _ _ _ _ Hok Hv He) as Hrep.
  pose proof Hrep as (Hsz & Hle & Hcap & _).
  assert (Hsame : size_ v = capacity_ v → shrink_to_fit this w = Ok tt w).
  { intros Heq. unfold shrink_to_fit, bind, get. rewrite Hv. by rewrite decide_False by lia. }
  destruct w as [O H F]. cbn [objs heap] in *.
  pose proof (wp_shrink_to_fit this v s O H F Hv Hrep) as Hwp.
  split; [|split; [done|]].
  - intros w' Hrun. destruct (decide (size_ v < capacity_ v)) as [Hlt|Hge].
    + assert (Hnb : new_buffer this (size_ v) (World O H F) = Ok tt w').
      { rewrite <- Hrun. unfold shrink_to_fit.
        rewrite (bind_ok_l _ _ _ v (World O H F)) by (unfold get; cbn; by rewrite Hv).
        by rewrite decide_True. }
      destruct (new_buffer_returns this v s (size_ v) O H F w' Hok Hv Hrep ltac:(lia) Hnb)
        as (He' & Hs' & Hc' & Hok' & Hview & d' & Hd' & Hnull & Hblock & Hgone & Hrest).
      split_and!; [done..|]. intros _. exists d'. split_and!; [done| | |done|done].
      * intros ->. apply Hnull. simpl in Hsz. lia.
      * intros Hne. destruct Hblock as (l' & -> & Hfr & Hl').
        { destruct s; [done|]. simpl in Hsz. lia. }
        exists l'. split_and!; [done..|].
        rewrite Hl', Hsz, <- filled_full. do 2 f_equal.
        destruct (vec_rep_data _ _ _ Hrep) as [(_ & _ & ->)|(l & _ & _ & Hfit & _)]; [done|].
        by eapply alloc_slots_exact.
    + rewrite Hsame in Hrun by lia. injection Hrun as <-.
      destruct (observe_members (World O H F) _ _ Hv) as (Hs & Hc & _).
      split_and!; [done|done|rewrite Hc; f_equal; lia|done|done|lia].
  - intros Hq.
    destruct (wp_total _ _ _ _ _ Hwp) as ([] & w' & Hrun & _); [|auto with nothrow|done|eauto].
    tauto.
Qed.

(** X26: for [n] whose byte count [n * sizeof(T)] fits [size_t]:
    [reserve(n)] with [n <= capacity] changes nothing at all; a returning
    [reserve(n)] with [n > capacity] leaves capacity [n] over a block that
    did not exist, of exactly [n] slots whose first [size] hold the
    elements, the old buffer released, every other block and object as it
    was, size and elements as before; with a quiet schedule it returns. *)
Theorem reserve_within_range (w : world) this v (s : list T) n :
  world_ok w → objs w !! this = Some v → elems w this = Some s →
  0 ≤ n → n * Z.pos sizeof_T < two64 →
  (n ≤ capacity_ v → reserve this n w = Ok tt w) ∧
  (n > capacity_ v → ∀ w', reserve this n w = Ok tt w' →
     elems w' this = Some s ∧ size_of w' this = Some (size_ v) ∧
     capacity_of w' this = Some n ∧
     world_ok w' ∧ (∀ o, o ≠ this → view w' o = view w o) ∧
     ∃ l', data_of w' this = Some (Ptr (Some l') 0) ∧ heap w !! l' = None ∧
       heap w' !! l' = Some (filled s (Z.to_nat n)) ∧
       (∀ l, blk (data_ v) = Some l → heap w' !! l = None) ∧
       (∀ l, blk (data_ v) ≠ Some l → l ≠ l' → heap w' !! l = heap w !! l)) ∧
  (n > capacity_ v → quiet w → ∃ w', reserve this n w = Ok tt w').
Proof.
  intros Hok Hv He Hn0 Hfit. pose proof (known_rep _ _ _ _ Hok Hv He) as Hrep.
  pose proof Hrep as (Hsz & Hle & Hcap & _).
  assert (Hn : 0 ≤ n < two64).
  { split; [done|]. pose proof (Pos2Z.is_pos sizeof_T). nia. }
  destruct w as [O H F]. cbn [objs heap] in *. split_and!.
  - intros Hle'. unfold reserve, bind, get. cbn [objs]. rewrite Hv.
    by rewrite decide_False by lia.
  - intros Hgt w' Hrun.
    assert (Hnb : new_buffer this n (World O H F) = Ok tt w').
    { rewrite <- Hrun. unfold reserve.
      rewrite (bind_ok_l _ _ _ v (World O H F)) by (unfold get; cbn; by rewrite Hv).
      by rewrite decide_True. }
    destruct (new_buffer_returns this v s n O H F w' Hok Hv Hrep Hn Hnb)
      as (He' & Hs' & Hc' & Hok' & Hview & d' & Hd' & _ & Hblock & Hgone & Hrest).
    destruct Hblock as (l' & -> & Hfr & Hl'); [lia|].
    split_and!; [done..|]. exists l'. rewrite alloc_slots_fit in Hl' by done.
    split_and!; [done..|]. intros l Hne Hne'. apply Hrest; [done|]. cbn. congruence.
  - intros Hgt Hq.
    pose proof (wp_reserve this v s n O H F Hv Hrep Hn) as Hwp.
    destruct (wp_total _ _ _ _ _ Hwp) as ([] & w' & Hrun & _); [|auto with nothrow|done|eauto].
    intros (_ & Hlt). rewrite alloc_slots_fit in Hlt by lia. lia.
Qed.

End Proofs.

(** * The theorems at work on containers of integers *)

(** Decidable facts about the example worlds are settled by evaluation. *)
Ltac by_evaluation := apply (bool_decide_unpack _); vm_compute; exact I.
Ltac runs_to := vm_compute; reflexivity.

Lemma w_123_ok : world_ok w_123.
Proof. by_evaluation. Defined.

Lemma w_1_99_2_3_ok : world_ok w_1_99_2_3.
Proof. by_evaluation. Defined.

Lemma in_size_t_10 : 0 ≤ 10 < two64.
Proof. unfold two64. lia. Defined.

(** The copy of [1; 2; 3] with capacity 4 has capacity 3. *)
Lemma copy_capacity_example :
  capacity_of w_123 1 = Some 4 ∧
  capacity_of w_copy 2 = Some 3 ∧ size_of w_copy 2 = Some 3 ∧
  elems w_copy 2 = Some [1; 2; 3].
Proof.
  split; [reflexivity|].
  destruct (copy_capacity w_123 2 1 v_123 [1; 2; 3] w_123_ok eq_refl eq_refl eq_refl)
    as (Hret & _).
  destruct (Hret w_copy) as (Hc & Hs & He & _); [runs_to|].
  exact (conj Hc (conj Hs He)).
Defined.

(** [insert(begin() + 1, 99)] into [1; 2; 3]. *)
Lemma insert_spec_example :
  elems w_1_99_2_3 1 = Some [1; 99; 2; 3] ∧
  size_of w_1_99_2_3 1 = Some 4 ∧ capacity_of w_1_99_2_3 1 = Some 4.
Proof.
  destruct (insert_spec w_123 1 v_123 [1; 2; 3] 1 99 w_123_ok eq_refl eq_refl ltac:(simpl; lia))
    as (Hret & _).
  destruct (Hret (ptr_add (data_ v_123) 1) w_1_99_2_3) as (He & _ & Hs & Hc & _); [runs_to|].
  exact (conj He (conj Hs Hc)).
Defined.

(** [erase(begin() + 1, begin() + 3)] from [1; 99; 2; 3]. *)
Lemma erase_spec_example :
  elems w_1_3 1 = Some [1; 3] ∧ size_of w_1_3 1 = Some 2 ∧
  capacity_of w_1_3 1 = Some 4 ∧ world_ok w_1_3.
Proof.
  destruct (erase_spec w_1_99_2_3 1 v_1_99_2_3 [1; 99; 2; 3] w_1_99_2_3_ok eq_refl eq_refl)
    as (_ & Hret & _).
  destruct (Hret 1%nat 3%nat (ptr_add (data_ v_1_99_2_3) 1) w_1_3) as (He & Hs & Hc & _ & _ & Hok);
    [simpl; lia|runs_to|].
  exact (conj He (conj Hs (conj Hc Hok))).
Defined.

(** [insert(begin() + 1, 99)] into [1; 2; 3], then [erase] at the returned
    iterator. *)
Lemma insert_erase_identity_example :
  elems (world_after (erase1 1 (ptr_add (data_ v_123) 1) w_1_99_2_3)) 1 = Some [1; 2; 3].
Proof.
  destruct (insert_erase_identity w_123 1 v_123 [1; 2; 3] 1 99 w_123_ok eq_refl eq_refl
              ltac:(simpl; lia)) as (Hret & _).
  destruct (Hret (ptr_add (data_ v_123) 1) w_1_99_2_3 (ptr_add (data_ v_123) 1)
              (world_after (erase1 1 (ptr_add (data_ v_123) 1) w_1_99_2_3)))
    as (He & _); [runs_to|runs_to|].
  exact He.
Defined.

(** Five [push_back]s on a default-constructed container. *)
Lemma push_back_schedule_example :
  ∃ w' : world (T := Z),
    (vector_default 1;; push_trace 1 [10; 20; 30; 40; 50]) w_none
    = Ok [(1, 1); (2, 2); (3, 4); (4, 4); (5, 8)] w' ∧
    elems w' 1 = Some [10; 20; 30; 40; 50] ∧
    size_of w' 1 = Some 5 ∧ capacity_of w' 1 = Some 8.
Proof.
  exists (world_after ((vector_default 1;; push_trace 1 [10; 20; 30; 40; 50]) w_none)).
  split; [runs_to|].
  destruct (push_back_schedule w_none 1 [10; 20; 30; 40; 50] eq_refl) as (Hret & _).
  destruct (Hret [(1, 1); (2, 2); (3, 4); (4, 4); (5, 8)]
              (world_after ((vector_default 1;; push_trace 1 [10; 20; 30; 40; 50]) w_none)))
    as (_ & He & Hs & Hc); [runs_to|].
  exact (conj He (conj Hs Hc)).
Defined.

(** A copy of [1; 2; 3], then [push_back(4)] on the copy: the source still
    holds [1; 2; 3]. *)
Lemma copies_are_independent_example :
  elems w_copy 2 = Some [1; 2; 3] ∧ elems w_copy 1 = Some [1; 2; 3] ∧
  elems w_copy_pushed 2 = Some [1; 2; 3; 4] ∧ elems w_copy_pushed 1 = Some [1; 2; 3].
Proof.
  assert (Hcp : copied 2 1 w_123 w_copy) by (left; split; [reflexivity|runs_to]).
  destruct (copies_are_independent 2 1 w_123 w_copy [1; 2; 3] w_123_ok eq_refl Hcp)
    as (Hc & Hs & Hsrc & _).
  assert (Hrun : untouched_run 1 w_copy w_copy_pushed).
  { apply (one_call 1 w_copy (PushBack 2 4) w_copy_pushed).
    - exists (Vector (Ptr (Some 4%positive) 0) 3 3). runs_to.
    - intros [Ht|[]]. discriminate Ht.
    - runs_to.
    - apply no_call. }
  destruct (Hsrc w_copy_pushed Hrun) as [Hs' _].
  split; [exact Hc|]. split; [exact Hs|]. split; [runs_to|exact Hs'].
Defined.

(** [push_back(4)] on [1; 2; 3] with capacity 4. *)
Lemma invariant_I2_kept_example :
  world_ok (world_after (push_back 1%positive 4 w_123)) ∧
  ∀ o v, objs (world_after (push_back 1%positive 4 w_123)) !! o = Some v →
    size_ v ≤ capacity_ v ∧ (capacity_ v = 0 → data_ v = nullptr).
Proof.
  apply (invariant_I2_kept (PushBack 1 4) w_123 (world_after (push_back 1%positive 4 w_123))).
  - exact w_123_ok.
  - exists v_123. reflexivity.
  - runs_to.
Defined.

(** C1, the code against its own contract ([push_back] is marked
    [// O(1)* strong]): on a full container the new element is constructed
    after [new_buffer] has replaced the buffer, and when that construction
    raises nothing restores the old buffer.  On a default-constructed
    container (capacity 0) the exception leaves capacity 1; on [7] with
    capacity 1 it leaves capacity 2, the element in a new buffer.  Size and
    elements are as before, and so is everything when the exception comes
    earlier, from the relocation. *)
Theorem push_back_not_strong :
  (* empty container, the final construction raises *)
  (world_ok w_fresh_faulty ∧
   size_of w_fresh_faulty 1 = Some 0 ∧ capacity_of w_fresh_faulty 1 = Some 0 ∧
   data_of w_fresh_faulty 1 = Some nullptr ∧
   ∃ w', push_back 1%positive 5 w_fresh_faulty = Throw element_error w' ∧
         elems w' 1 = Some [] ∧ size_of w' 1 = Some 0 ∧
         capacity_of w' 1 = Some 1 ∧ data_of w' 1 ≠ Some nullptr) ∧
  (* one element, the final construction raises *)
  (world_ok w_7_faulty ∧
   elems w_7_faulty 1 = Some [7] ∧
   size_of w_7_faulty 1 = Some 1 ∧ capacity_of w_7_faulty 1 = Some 1 ∧
   ∃ w', push_back 1%positive 5 w_7_faulty = Throw element_error w' ∧
         elems w' 1 = Some [7] ∧ size_of w' 1 = Some 1 ∧
         capacity_of w' 1 = Some 2 ∧ data_of w' 1 ≠ data_of w_7_faulty 1) ∧
  (* one element, the relocation raises: everything is as before *)
  (∃ w', push_back 1%positive 5 (set_faults [false; false; true] w_7)
         = Throw element_error w' ∧
         elems w' 1 = Some [7] ∧ size_of w' 1 = Some 1 ∧
         capacity_of w' 1 = Some 1 ∧ data_of w' 1 = data_of w_7 1 ∧
         heap w' = heap w_7).
Proof.
  split; [|split].
  - split; [by_evaluation|]. do 3 (split; [reflexivity|]).
    exists (world_after (push_back 1%positive 5 w_fresh_faulty)).
    split; [runs_to|]. do 3 (split; [runs_to|]). vm_compute. discriminate.
  - split; [by_evaluation|]. do 3 (split; [reflexivity|]).
    exists (world_after (push_back 1%positive 5 w_7_faulty)).
    split; [runs_to|]. do 3 (split; [runs_to|]). vm_compute. discriminate.
  - exists (world_after (push_back 1%positive 5 (set_faults [false; false; true] w_7))).
    split; [runs_to|]. do 4 (split; [runs_to|]). runs_to.
Qed.

(** * Further properties at work on containers of integers *)

Lemma w_fresh_ok : world_ok w_fresh.
Proof. by_evaluation. Defined.

Lemma w_7_ok : world_ok w_7.
Proof. by_evaluation. Defined.

Lemma w_copy_ok : world_ok w_copy.
Proof. by_evaluation. Defined.

Lemma w_copy_pushed_ok : world_ok w_copy_pushed.
Proof. by_evaluation. Defined.

Lemma w_reserved_ok : world_ok w_reserved.
Proof. by_evaluation. Defined.

Lemma w_123_faulty_ok : world_ok w_123_faulty.
Proof. by_evaluation. Defined.

(** With a trivial copy constructor only an allocation can fail. *)
Lemma trivial_elements_example :
  @raises_only Z unit (λ e, e = bad_alloc) (@push_back Z Z_pod 1%positive 5) ∧
  @raises_only Z unit (λ e, e = bad_alloc) (@reserve Z Z_pod 1%positive 10) ∧
  @raises_only Z unit (λ e, e = bad_alloc) (@shrink_to_fit Z Z_pod 1%positive) ∧
  @raises_only Z unit (λ e, e = bad_alloc) (@vector_copy Z Z_pod 1%positive 2%positive) ∧
  @raises_only Z unit (λ e, e = bad_alloc) (@assign Z Z_pod 1%positive 2%positive).
Proof.
  exact (@trivial_elements_raise_only_bad_alloc Z Z_pod 1%positive 2%positive 5 10 eq_refl).
Defined.

(** [reserve(10)] on [1; 2; 3] when [operator new] fails. *)
Lemma reserve_strong_example :
  reserve 1 10 (set_faults [true] w_123) = Throw bad_alloc w_123.
Proof.
  destruct (reserve_strong w_123 1 v_123 [1; 2; 3] 10 w_123_ok eq_refl eq_refl in_size_t_10)
    as [_ Hfail].
  exact (Hfail eq_refl []).
Defined.

(** [shrink_to_fit] on [1; 2; 3] with capacity 4 when [operator new]
    fails. *)
Lemma shrink_to_fit_strong_example :
  shrink_to_fit 1 (set_faults [true] w_123) = Throw bad_alloc w_123.
Proof.
  destruct (shrink_to_fit_strong w_123 1 v_123 [1; 2; 3] w_123_ok eq_refl eq_refl)
    as (_ & Hfail & _).
  exact (Hfail (conj eq_refl eq_refl) []).
Defined.

(** Copy construction from [1; 2; 3] when [operator new] fails. *)
Lemma copy_constructor_strong_example :
  vector_copy 2 1 (set_faults [true] w_123) = Throw bad_alloc w_123.
Proof.
  destruct (copy_constructor_strong w_123 2 1 v_123 [1; 2; 3] w_123_ok eq_refl eq_refl eq_refl)
    as [_ Hfail].
  exact (Hfail ltac:(discriminate) []).
Defined.

(** Destroying the copy of [1; 2; 3] gives back the world before the
    copy. *)
Lemma destructor_releases_example : vector_dtor 2 w_copy = Ok tt w_123.
Proof.
  destruct (destructor_releases w_copy 2 v_copy [1; 2; 3] w_copy_ok eq_refl eq_refl)
    as (Hrun & _).
  etrans; [exact Hrun|]. runs_to.
Defined.

Lemma copy_then_destroy_example :
  ∃ w2, vector_dtor 2 w_copy = Ok tt w2 ∧ objs w2 = objs w_123 ∧ heap w2 = heap w_123.
Proof.
  apply (copy_then_destroy w_123 2 1 v_123 [1; 2; 3] w_copy w_123_ok eq_refl eq_refl eq_refl).
  runs_to.
Defined.

(** Object 2 holds [1; 2; 3; 4] with capacity 6 and is assigned
    [1; 2; 3]. *)
Lemma assign_strong_example :
  elems (world_after (assign 2 1 w_copy_pushed)) 2 = Some [1; 2; 3] ∧
  size_of (world_after (assign 2 1 w_copy_pushed)) 2 = Some 3 ∧
  capacity_of (world_after (assign 2 1 w_copy_pushed)) 2 = Some 3 ∧
  view (world_after (assign 2 1 w_copy_pushed)) 1 = view w_copy_pushed 1.
Proof.
  destruct (assign_strong w_copy_pushed 2 1 v_copy_pushed v_123 [1; 2; 3; 4] [1; 2; 3]
              w_copy_pushed_ok eq_refl eq_refl eq_refl eq_refl) as (_ & _ & Hret & _).
  apply (Hret ltac:(discriminate)). runs_to.
Defined.

Lemma push_back_appends_example :
  elems (world_after (push_back 1%positive 4 w_123)) 1 = Some [1; 2; 3; 4] ∧
  size_of (world_after (push_back 1%positive 4 w_123)) 1 = Some 4 ∧
  capacity_of (world_after (push_back 1%positive 4 w_123)) 1 = Some 4.
Proof.
  destruct (push_back_appends w_123 1 v_123 [1; 2; 3] 4 w_123_ok eq_refl eq_refl)
    as [Hret _].
  destruct (Hret (world_after (push_back 1%positive 4 w_123))) as (He & Hs & Hc & _);
    [runs_to|].
  exact (conj He (conj Hs Hc)).
Defined.

(** [push_back(5)] on the full [7] when [operator new] fails. *)
Lemma push_back_strong_cases_example :
  ∃ F0, push_back 1%positive 5 (set_faults (F0 ++ []) w_7) = Throw bad_alloc w_7.
Proof.
  destruct (push_back_strong_cases w_7 1 v_7 [7] 5 w_7_ok eq_refl eq_refl) as [_ Hfail].
  exact (Hfail eq_refl ltac:(discriminate) []).
Defined.

Lemma pop_back_spec_example :
  ∃ w', pop_back 1 w_123 = Ok tt w' ∧
    elems w' 1 = Some [1; 2] ∧ size_of w' 1 = Some 2 ∧
    capacity_of w' 1 = Some 4 ∧ data_of w' 1 = Some (data_ v_123) ∧
    world_ok w' ∧ ∀ o, o ≠ 1%positive → view w' o = view w_123 o.
Proof.
  destruct (pop_back_spec w_123 1 v_123 [1; 2; 3] w_123_ok eq_refl eq_refl) as [_ Hret].
  exact (Hret [1; 2] 3 eq_refl).
Defined.

Lemma push_back_pop_back_example :
  ∃ w2, pop_back 1 (world_after (push_back 1%positive 4 w_123)) = Ok tt w2 ∧
    elems w2 1 = Some [1; 2; 3] ∧ size_of w2 1 = Some 3 ∧
    (3 < 4 → objs w2 = objs w_123).
Proof.
  apply (push_back_pop_back w_123 1 v_123 [1; 2; 3] 4
           (world_after (push_back 1%positive 4 w_123)) w_123_ok eq_refl eq_refl).
  runs_to.
Defined.

Lemma clear_spec_example :
  ∃ w', clear 1 w_123 = Ok tt w' ∧
    elems w' 1 = Some [] ∧ size_of w' 1 = Some 0 ∧
    capacity_of w' 1 = Some 4 ∧ data_of w' 1 = Some (data_ v_123) ∧
    world_ok w' ∧ ∀ o, o ≠ 1%positive → view w' o = view w_123 o.
Proof. exact (clear_spec w_123 1 v_123 [1; 2; 3] w_123_ok eq_refl eq_refl). Defined.

(** Exchanging [1; 2; 3] and [1; 2; 3; 4]. *)
Lemma swap_exchanges_example :
  ∃ w', swap 1 2 w_copy_pushed = Ok tt w' ∧
    objs w' !! 1%positive = Some v_copy_pushed ∧ objs w' !! 2%positive = Some v_123 ∧
    heap w' = heap w_copy_pushed ∧ faults w' = faults w_copy_pushed ∧
    elems w' 1 = elems w_copy_pushed 2 ∧ elems w' 2 = elems w_copy_pushed 1 ∧
    (∀ o, o ≠ 1%positive → o ≠ 2%positive → objs w' !! o = objs w_copy_pushed !! o) ∧
    swap 1 2 w' = Ok tt w_copy_pushed.
Proof.
  exact (swap_exchanges w_copy_pushed 1 2 v_123 v_copy_pushed eq_refl eq_refl).
Defined.

Lemma element_access_example :
  load 1 1 w_123 = Ok 2 w_123 ∧ load 1 3 w_123 = UB ∧
  load_front 1 w_123 = Ok 1 w_123 ∧ load_back 1 w_123 = Ok 3 w_123.
Proof.
  destruct (element_access w_123 1 v_123 [1; 2; 3] w_123_ok eq_refl eq_refl)
    as (Hin & Hout & Hfront & Hback & _).
  split; [exact (Hin 1%nat 2 eq_refl)|]. split; [apply Hout; simpl; lia|].
  split; [exact (Hfront 1 [2; 3] eq_refl)|exact (Hback [1; 2] 3 eq_refl)].
Defined.

Lemma observers_agree_example :
  size 1 w_123 = Ok 3 w_123 ∧ empty 1 w_123 = Ok false w_123 ∧
  distance 1 w_123 = Ok 3 w_123 ∧
  (∃ c, capacity 1 w_123 = Ok c w_123 ∧ 3 ≤ c) ∧
  (∃ d, data 1 w_123 = Ok d w_123 ∧ begin_ 1 w_123 = Ok d w_123 ∧
        end_ 1 w_123 = Ok (ptr_add d 3) w_123).
Proof. exact (observers_agree w_123 1 v_123 [1; 2; 3] w_123_ok eq_refl eq_refl). Defined.

Lemma store_through_index_example :
  elems (world_after (store_at 1 1 9 w_123)) 1 = Some [1; 9; 3] ∧
  objs (world_after (store_at 1 1 9 w_123)) = objs w_123 ∧
  store_at 1 3 9 w_123 = UB.
Proof.
  destruct (store_through_index w_123 1 v_123 [1; 2; 3] 1 9 w_123_ok eq_refl eq_refl)
    as (Hret & _).
  destruct (Hret (world_after (store_at 1 1 9 w_123))) as (_ & He & HO & _); [runs_to|].
  split; [exact He|]. split; [exact HO|].
  destruct (store_through_index w_123 1 v_123 [1; 2; 3] 3 9 w_123_ok eq_refl eq_refl)
    as (_ & _ & Hout & _).
  apply Hout. simpl. lia.
Defined.

(** [insert(begin(), 99)] into [1; 2; 3] whose second copy assignment
    raises: the container is left holding [1; 2; 3; 3]. *)
Lemma insert_erase_weak_example :
  elems w_insert_failed 1 = Some [1; 2; 3; 3] ∧
  world_ok w_insert_failed ∧
  (∀ o, o ≠ 1%positive → view w_insert_failed o = view w_123_faulty o) ∧
  ∃ s', elems w_insert_failed 1 = Some s' ∧ (3 ≤ length s' ≤ 4)%nat.
Proof.
  split; [reflexivity|].
  destruct (insert_erase_weak w_123_faulty 1 v_123 [1; 2; 3] w_123_faulty_ok eq_refl eq_refl)
    as [Hins _].
  apply (Hins (data_ v_123) 99 element_error w_insert_failed). runs_to.
Defined.

Lemma capacity_never_shrinks_example :
  ∃ v', objs (world_after (push_back 1%positive 4 w_123)) !! 1%positive = Some v' ∧
    4 ≤ capacity_ v' ∧ (capacity_ v' = 4 → data_ v' = data_ v_123).
Proof.
  apply (capacity_never_shrinks (PushBack 1 4) w_123
           (world_after (push_back 1%positive 4 w_123)) v_123 I w_123_ok eq_refl).
  - exists v_123. reflexivity.
  - runs_to.
Defined.

(** Two [push_back]s on [1; 2; 3] after [reserve(10)]. *)
Lemma push_within_capacity_example :
  elems (world_after (push_all 1 [4; 5] w_reserved)) 1 = Some [1; 2; 3; 4; 5] ∧
  data_of (world_after (push_all 1 [4; 5] w_reserved)) 1 = Some (data_ v_reserved) ∧
  capacity_of (world_after (push_all 1 [4; 5] w_reserved)) 1 = Some 10.
Proof.
  destruct (push_within_capacity w_reserved 1 v_reserved [1; 2; 3] [4; 5] w_reserved_ok
              eq_refl eq_refl ltac:(simpl; lia) ltac:(unfold two64; simpl; lia))
    as (Hend & Hret & _).
  destruct (Hend (world_after (push_all 1 [4; 5] w_reserved))) as [Hd Hc]; [runs_to|].
  destruct (Hret (world_after (push_all 1 [4; 5] w_reserved))) as [He _]; [runs_to|].
  exact (conj He (conj Hd Hc)).
Defined.

(** [reserve(2^61)] on an empty container of 8-byte elements asks for
    [2^64 mod 2^64 = 0] bytes. *)
Lemma reserve_overflow_example :
  ∃ w', reserve 1 (2 ^ 61) w_fresh = Ok tt w' ∧
    capacity_of w' 1 = Some (2 ^ 61) ∧ size_of w' 1 = Some 0 ∧
    world_ok w' ∧ push_back 1%positive 5 w' = UB.
Proof.
  apply (reserve_overflow w_fresh 1 v_fresh [] (2 ^ 61) 5 w_fresh_ok eq_refl eq_refl).
  - split; reflexivity.
  - vm_compute. reflexivity.
  - reflexivity.
Defined.

Lemma erase_at_end_undefined_example :
  erase1 1 (ptr_add (data_ v_123) 3) w_123 = UB.
Proof. exact (erase_at_end_undefined w_123 1 v_123 [1; 2; 3] w_123_ok eq_refl eq_refl). Defined.

Lemma w_fresh_reachable : reachable w_fresh.
Proof.
  apply (reach_call w_none (Default 1)); [apply reach_empty|reflexivity|runs_to].
Defined.

Lemma no_leaks_example :
  no_garbage w_fresh ∧ ∀ c w', ends_in (run c w_fresh) w' → no_garbage w'.
Proof. exact (no_leaks w_fresh w_fresh_reachable). Defined.

(** [push_back(5)] on the full [7] when the construction of the new element
    raises: size and element as before, capacity grown. *)
Lemma push_back_raises_example :
  elems (world_after (push_back 1%positive 5 w_7_faulty)) 1 = Some [7] ∧
  size_of (world_after (push_back 1%positive 5 w_7_faulty)) 1 = Some 1 ∧
  (capacity_of (world_after (push_back 1%positive 5 w_7_faulty)) 1 = Some 1 ∨
   (element_error = element_error ∧ 1 = 1 ∧
    capacity_of (world_after (push_back 1%positive 5 w_7_faulty)) 1 = Some (grown 1))).
Proof.
  apply (push_back_raises w_7_faulty 1 v_7 [7] 5 element_error
           (world_after (push_back 1%positive 5 w_7_faulty)));
    [by_evaluation|reflexivity|reflexivity|runs_to].
Defined.

(** [v.push_back(v[0])] on the full [7]: the buffer is reallocated and the
    copy still is a copy of 7. *)
Lemma own_element_argument_example :
  push_back_ref 1 (ptr_add (data_ v_7) 0) w_7 = push_back 1%positive 7 w_7 ∧
  elems (world_after (push_back_ref 1 (ptr_add (data_ v_7) 0) w_7)) 1 = Some [7; 7] ∧
  data_of (world_after (push_back_ref 1 (ptr_add (data_ v_7) 0) w_7)) 1 ≠ data_of w_7 1.
Proof.
  destruct (own_element_argument w_7 1 v_7 [7] 0 7 w_7_ok eq_refl eq_refl eq_refl)
    as (Heq & _ & Hret).
  split; [exact Heq|]. split; [apply Hret; runs_to|]. vm_compute. discriminate.
Defined.

(** [shrink_to_fit] on [1; 2; 3] with capacity 4 in block 3: the container
    ends with a new block of three slots, block 3 is gone. *)
Lemma shrink_to_fit_spec_example :
  elems w_shrunk 1 = Some [1; 2; 3] ∧ size_of w_shrunk 1 = Some 3 ∧
  capacity_of w_shrunk 1 = Some 3 ∧ world_ok w_shrunk ∧
  data_of w_123 1 = Some (Ptr (Some 3%positive) 0) ∧
  heap w_123 !! 3%positive = Some [Some 1; Some 2; Some 3; None] ∧
  heap w_shrunk !! 3%positive = None ∧
  ∃ l', data_of w_shrunk 1 = Some (Ptr (Some l') 0) ∧ heap w_123 !! l' = None ∧
        heap w_shrunk !! l' = Some [Some 1; Some 2; Some 3].
Proof.
  destruct (shrink_to_fit_spec w_123 1 v_123 [1; 2; 3] w_123_ok eq_refl eq_refl)
    as (Hret & _ & _).
  destruct (Hret w_shrunk) as (He & Hs & Hc & Hok & _ & Hbuf); [runs_to|].
  destruct (Hbuf eq_refl) as (d' & Hd & _ & Hblock & Hgone & _).
  destruct (Hblock ltac:(discriminate)) as (l' & -> & Hfr & Hl').
  split_and!; [exact He|exact Hs|exact Hc|exact Hok|reflexivity|reflexivity
              |exact (Hgone 3%positive eq_refl)|].
  exists l'. split_and!; [exact Hd|exact Hfr|exact Hl'].
Defined.

(** [reserve(10)] on [1; 2; 3] with capacity 4 in block 3: a new block of
    ten slots, block 3 is gone. *)
Lemma reserve_within_range_example :
  elems w_reserved 1 = Some [1; 2; 3] ∧ size_of w_reserved 1 = Some 3 ∧
  capacity_of w_reserved 1 = Some 10 ∧ world_ok w_reserved ∧
  heap w_reserved !! 3%positive = None ∧
  ∃ l', data_of w_reserved 1 = Some (Ptr (Some l') 0) ∧ heap w_123 !! l' = None ∧
        heap w_reserved !! l' = Some ([Some 1; Some 2; Some 3] ++ replicate 7 None).
Proof.
  destruct (reserve_within_range w_123 1 v_123 [1; 2; 3] 10 w_123_ok eq_refl eq_refl
              ltac:(lia) ltac:(unfold two64; simpl; lia)) as (_ & Hret & _).
  destruct (Hret eq_refl w_reserved) as (He & Hs & Hc & Hok & _ & l' & Hd & Hfr & Hl' & Hgone & _);
    [runs_to|].
  split_and!; [exact He|exact Hs|exact Hc|exact Hok|exact (Hgone 3%positive eq_refl)|].
  exists l'. split_and!; [exact Hd|exact Hfr|exact Hl'].
Defined.

(** C8, the code against the claim ([reserve] is marked [// O(N) strong],
    and the claim is for every [n]): [allocate_data] computes
    [n * sizeof(T)] in [size_t] and nothing checks the product.  With
    8-byte elements, [reserve(2^61 + 1)] on [1; 2; 3] asks for
    [(2^61 + 1) * 8 mod 2^64 = 8] bytes, one slot, and the relocation of
    the second element writes behind the block: undefined behaviour, no
    capacity at all.  [reserve(2^61)] on an empty container asks for 0
    bytes: it returns with [capacity() = 2^61] over a block without a
    single slot, so that the [push_back] that follows, which trusts the
    capacity, writes behind the block. *)
Theorem reserve_unchecked_product :
  (world_ok w_123 ∧ elems w_123 1 = Some [1; 2; 3] ∧ capacity_of w_123 1 = Some 4 ∧
   4 < 2 ^ 61 + 1 < two64 ∧ wrap ((2 ^ 61 + 1) * 8) = 8 ∧
   alloc_slots (2 ^ 61 + 1) = 1%nat ∧
   reserve 1 (2 ^ 61 + 1) w_123 = UB) ∧
  (world_ok w_fresh ∧ elems w_fresh 1 = Some [] ∧ capacity_of w_fresh 1 = Some 0 ∧
   0 < 2 ^ 61 < two64 ∧ wrap (2 ^ 61 * 8) = 0 ∧ alloc_slots (2 ^ 61) = 0%nat ∧
   ∃ w' l, reserve 1 (2 ^ 61) w_fresh = Ok tt w' ∧
     size_of w' 1 = Some 0 ∧ capacity_of w' 1 = Some (2 ^ 61) ∧
     data_of w' 1 = Some (Ptr (Some l) 0) ∧ heap w' !! l = Some [] ∧
     push_back 1%positive 5 w' = UB).
Proof.
  split.
  - split; [by_evaluation|]. do 2 (split; [reflexivity|]).
    split; [split; reflexivity|]. split; [reflexivity|]. split; [runs_to|]. runs_to.
  - split; [by_evaluation|]. do 2 (split; [reflexivity|]).
    split; [split; reflexivity|]. split; [reflexivity|]. split; [runs_to|].
    exists (world_after (reserve 1 (2 ^ 61) w_fresh)), 1%positive.
    split; [runs_to|]. do 4 (split; [runs_to|]). runs_to.
Qed.
